(** * multimedia-movil: identifier codec, media index and range streaming

    A shallow embedding of [src/utils/pathUtils.js] (the base64url
    identifier codec) and of the server module (media catalogue, lookup by
    id and the [GET /stream/:id] handler), together with the properties of
    the specification that concern them.

    Conventions of the embedding:
    - a JavaScript string is the list of its UTF-16 code units ([jsstring]);
    - a [Buffer] is the list of its bytes ([buffer]), each in [0, 255];
    - a JavaScript Number is a [number]: an integer-valued double, an
      infinity or NaN; arithmetic rounds to 53 significant bits as IEEE-754
      does;
    - code that may throw returns a [result]; code that touches the file
      system runs in the monad [M], which also records every access;
    - Node's library functions ([Buffer], [path], [fs], [String.prototype])
      are modelled after their documented behaviour on POSIX. *)

From Stdlib Require Import String Ascii ZArith List Bool Lia.
From Stdlib Require DecimalString.
Import ListNotations.
Local Open Scope Z_scope.

(** ** JavaScript strings and buffers *)

Definition jsstring := list Z.
Definition buffer := list Z.

(** An ASCII literal as a JavaScript string. *)
Definition js (s : string) : jsstring :=
  map (fun a => Z.of_N (N_of_ascii a)) (list_ascii_of_string s).

Definition zeqb_list : list Z -> list Z -> bool :=
  fix go (a b : list Z) : bool :=
    match a, b with
    | [], [] => true
    | x :: a', y :: b' => (x =? y) && go a' b'
    | _, _ => false
    end.

(** Thrown values: the only exceptions the modelled code can raise. *)
Inductive exn : Type :=
| RangeError            (* String.prototype.repeat with a negative count *)
| FsError (syscall code : string).
    (* a rejected fs call: which call ([scandir], [stat]) and its code *)

Inductive result (A : Type) : Type :=
| Ok (a : A)
| Throw (e : exn).
Arguments Ok {A} a.
Arguments Throw {A} e.

Definition rbind {A B} (r : result A) (k : A -> result B) : result B :=
  match r with
  | Ok a => k a
  | Throw e => Throw e
  end.

(** ** String.prototype helpers used by the codec *)

(** [s.replace(/c/g, d)] for a one-character pattern. *)
Definition replace_all (c d : Z) (s : jsstring) : jsstring :=
  map (fun x => if x =? c then d else x) s.

Fixpoint drop_leading (c : Z) (s : jsstring) : jsstring :=
  match s with
  | [] => []
  | x :: t => if x =? c then drop_leading c t else s
  end.

(** [s.replace(/=+$/, '')]: the leftmost match of [=+$] is the maximal run
    of ['='] that ends the string. *)
Definition strip_trailing_eq (s : jsstring) : jsstring :=
  List.rev (drop_leading 61 (rev s)).

(** ['='.repeat(n)]: throws a RangeError when the count is negative. *)
Definition str_repeat (c : Z) (n : Z) : result jsstring :=
  if n <? 0 then Throw RangeError else Ok (repeat c (Z.to_nat n)).

Definition str_length (s : jsstring) : Z := Z.of_nat (length s).

(** ** Buffer.from(str, 'utf8') *)

Definition is_high_surrogate (c : Z) : bool := (0xD800 <=? c) && (c <=? 0xDBFF).
Definition is_low_surrogate (c : Z) : bool := (0xDC00 <=? c) && (c <=? 0xDFFF).

Definition utf8_replacement : buffer := [0xEF; 0xBF; 0xBD].

Definition utf8_of_cp (cp : Z) : buffer :=
  if cp <? 0x80 then [cp]
  else if cp <? 0x800 then [0xC0 + cp / 64; 0x80 + cp mod 64]
  else if cp <? 0x10000 then
    [0xE0 + cp / 4096; 0x80 + (cp / 64) mod 64; 0x80 + cp mod 64]
  else
    [0xF0 + cp / 262144; 0x80 + (cp / 4096) mod 64;
     0x80 + (cp / 64) mod 64; 0x80 + cp mod 64].

Definition cp_of_surrogates (hi lo : Z) : Z :=
  0x10000 + (hi - 0xD800) * 1024 + (lo - 0xDC00).

(** A surrogate pair becomes one four-byte sequence; an unpaired surrogate
    becomes U+FFFD. *)
Fixpoint utf8_encode (s : jsstring) : buffer :=
  match s with
  | [] => []
  | c :: t =>
    if is_high_surrogate c then
      match t with
      | d :: t' =>
        if is_low_surrogate d
        then utf8_of_cp (cp_of_surrogates c d) ++ utf8_encode t'
        else utf8_replacement ++ utf8_encode t
      | [] => utf8_replacement
      end
    else if is_low_surrogate c then utf8_replacement ++ utf8_encode t
    else utf8_of_cp c ++ utf8_encode t
  end.

(** ** buf.toString('utf8'): the WHATWG decoder with U+FFFD replacement *)

Inductive utf8_state : Type :=
| U_start
| U_cont (cp : Z) (needed : nat) (lower upper : Z).

Definition utf8_lead (b : Z) : list Z * utf8_state :=
  if b <=? 0x7F then ([b], U_start)
  else if (0xC2 <=? b) && (b <=? 0xDF) then
    ([], U_cont (b - 0xC0) 0 0x80 0xBF)
  else if (0xE0 <=? b) && (b <=? 0xEF) then
    ([], U_cont (b - 0xE0) 1
           (if b =? 0xE0 then 0xA0 else 0x80)
           (if b =? 0xED then 0x9F else 0xBF))
  else if (0xF0 <=? b) && (b <=? 0xF4) then
    ([], U_cont (b - 0xF0) 2
           (if b =? 0xF0 then 0x90 else 0x80)
           (if b =? 0xF4 then 0x8F else 0xBF))
  else ([0xFFFD], U_start).

(** [U_cont cp n lo hi]: [n + 1] continuation bytes are still expected, the
    next one in [lo, hi].  A byte out of that range ends the sequence with
    U+FFFD and is then read again as a lead byte. *)
Fixpoint utf8_decode_from (st : utf8_state) (bs : buffer) : list Z :=
  match bs with
  | [] => match st with U_start => [] | U_cont _ _ _ _ => [0xFFFD] end
  | b :: bs' =>
    match st with
    | U_start =>
      let '(out, st') := utf8_lead b in out ++ utf8_decode_from st' bs'
    | U_cont cp needed lower upper =>
      if (lower <=? b) && (b <=? upper) then
        let cp' := cp * 64 + (b - 0x80) in
        match needed with
        | O => cp' :: utf8_decode_from U_start bs'
        | S n => utf8_decode_from (U_cont cp' n 0x80 0xBF) bs'
        end
      else
        let '(out, st') := utf8_lead b in
        0xFFFD :: out ++ utf8_decode_from st' bs'
    end
  end.

Definition utf16_of_cp (cp : Z) : jsstring :=
  if cp <? 0x10000 then [cp]
  else [0xD800 + (cp - 0x10000) / 1024; 0xDC00 + (cp - 0x10000) mod 1024].

Definition utf8_decode (bs : buffer) : jsstring :=
  flat_map utf16_of_cp (utf8_decode_from U_start bs).

(** ** buf.toString('base64') and Buffer.from(str, 'base64') *)

Definition b64_char (v : Z) : Z :=
  if v <? 26 then 65 + v
  else if v <? 52 then 97 + (v - 26)
  else if v <? 62 then 48 + (v - 52)
  else if v =? 62 then 43
  else 47.

Fixpoint base64_encode (bs : buffer) : jsstring :=
  match bs with
  | [] => []
  | a :: [] => [b64_char (a / 4); b64_char ((a mod 4) * 16); 61; 61]
  | a :: b :: [] =>
    [b64_char (a / 4); b64_char ((a mod 4) * 16 + b / 16);
     b64_char ((b mod 16) * 4); 61]
  | a :: b :: c :: t =>
    b64_char (a / 4) :: b64_char ((a mod 4) * 16 + b / 16)
      :: b64_char ((b mod 16) * 4 + c / 64) :: b64_char (c mod 64)
      :: base64_encode t
  end.

(** Node's decoding table, indexed by a byte: both the standard and the
    URL-safe alphabet. *)
Definition unbase64 (c : Z) : option Z :=
  if (65 <=? c) && (c <=? 90) then Some (c - 65)
  else if (97 <=? c) && (c <=? 122) then Some (c - 97 + 26)
  else if (48 <=? c) && (c <=? 57) then Some (c - 48 + 52)
  else if (c =? 43) || (c =? 45) then Some 62
  else if (c =? 47) || (c =? 95) then Some 63
  else None.

(** The forgiving decoder.  Node reads every character of the string
    through a [uint8_t], that is by the low byte of its code unit: a
    character whose low byte is outside the alphabet is skipped, and
    decoding stops at the first character whose low byte is ['=']. *)
Fixpoint b64_sextets (s : jsstring) : list Z :=
  match s with
  | [] => []
  | x :: t =>
    let c := x mod 256 in
    if c =? 61 then []
    else match unbase64 c with
         | Some v => v :: b64_sextets t
         | None => b64_sextets t
         end
  end.

Fixpoint b64_pack (vs : list Z) : buffer :=
  match vs with
  | a :: b :: c :: d :: t =>
    (a * 4 + b / 16) :: ((b mod 16) * 16 + c / 4) :: ((c mod 4) * 64 + d)
      :: b64_pack t
  | a :: b :: c :: [] => [a * 4 + b / 16; (b mod 16) * 16 + c / 4]
  | a :: b :: [] => [a * 4 + b / 16]
  | _ => []
  end.

Definition base64_decode (s : jsstring) : buffer := b64_pack (b64_sextets s).

(** ** src/utils/pathUtils.js *)

Definition toBase64Url (str : jsstring) : jsstring :=
  strip_trailing_eq
    (replace_all 47 95 (replace_all 43 45 (base64_encode (utf8_encode str)))).

Definition fromBase64Url (b64 : jsstring) : result jsstring :=
  rbind (if str_length b64 mod 4 =? 0 then Ok []
         else str_repeat 61 (4 - str_length b64 mod 4))
        (fun pad =>
           let base64 := replace_all 95 47 (replace_all 45 43 b64) ++ pad in
           Ok (utf8_decode (base64_decode base64))).

(** ** JavaScript Numbers

    Every Number that the server computes is an integer-valued double, an
    infinity or NaN.  [round53] rounds a non-negative integer to the nearest
    value with 53 significant bits, ties to even. *)

Inductive number : Type :=
| Fin (z : Z)
| PosInf
| NegInf
| NaN.

Definition round53 (n : Z) : Z :=
  let k := Z.log2 n - 52 in
  if k <=? 0 then n
  else
    let q := n / 2 ^ k in
    let r := n mod 2 ^ k in
    let h := 2 ^ (k - 1) in
    (if r <? h then q
     else if h <? r then q + 1
     else if Z.even q then q else q + 1) * 2 ^ k.

Definition to_double (z : Z) : number :=
  let m := round53 (Z.abs z) in
  if 2 ^ 1024 <=? m then (if z <? 0 then NegInf else PosInf)
  else Fin (Z.sgn z * m).

Definition num_neg (a : number) : number :=
  match a with
  | Fin x => Fin (- x)
  | PosInf => NegInf
  | NegInf => PosInf
  | NaN => NaN
  end.

Definition num_add (a b : number) : number :=
  match a, b with
  | Fin x, Fin y => to_double (x + y)
  | NaN, _ | _, NaN => NaN
  | PosInf, NegInf | NegInf, PosInf => NaN
  | PosInf, _ | _, PosInf => PosInf
  | NegInf, _ | _, NegInf => NegInf
  end.

Definition num_sub (a b : number) : number := num_add a (num_neg b).

(** [a < b] *)
Definition num_lt (a b : number) : bool :=
  match a, b with
  | NaN, _ | _, NaN => false
  | Fin x, Fin y => x <? y
  | NegInf, NegInf => false
  | NegInf, _ => true
  | _, PosInf => match a with PosInf => false | _ => true end
  | _, _ => false
  end.

(** [a === b] on Numbers *)
Definition num_eq (a b : number) : bool :=
  match a, b with
  | Fin x, Fin y => x =? y
  | PosInf, PosInf | NegInf, NegInf => true
  | _, _ => false
  end.

Definition num_gt (a b : number) : bool := num_lt b a.
Definition num_ge (a b : number) : bool :=
  match a, b with
  | NaN, _ | _, NaN => false
  | _, _ => negb (num_lt a b)
  end.

(** [Math.max(a, b)] *)
Definition Math_max (a b : number) : number :=
  match a, b with
  | NaN, _ | _, NaN => NaN
  | _, _ => if num_lt a b then b else a
  end.

Definition is_digit (c : Z) : bool := (48 <=? c) && (c <=? 57).

Fixpoint digits_value (acc : Z) (s : jsstring) : Z :=
  match s with
  | [] => acc
  | c :: t => if is_digit c then digits_value (acc * 10 + (c - 48)) t else acc
  end.

(** [parseInt(s, 10)] on a string without leading white space or sign: the
    value of the leading decimal digits as a Number, NaN when there are
    none. *)
Definition parseInt10 (s : jsstring) : number :=
  match s with
  | [] => NaN
  | c :: _ => if is_digit c then to_double (digits_value 0 s) else NaN
  end.

(** Number to String, as a template literal does it; exact for integers
    below 10^21, which is all the server prints. *)
Definition num_to_string (a : number) : jsstring :=
  match a with
  | Fin z => js (DecimalString.NilZero.string_of_int (Z.to_int z))
  | PosInf => js "Infinity"
  | NegInf => js "-Infinity"
  | NaN => js "NaN"
  end.

(** ** The Range pattern: [bytes=], digits, [-], digits, each run captured

    The pattern is not anchored: the match is the leftmost position at
    which [bytes=], a maximal run of digits, [-] and a second maximal run of
    digits follow one another.  (A shorter first run can never be followed
    by [-], so the greedy choice is the only one.) *)

Fixpoint strip_prefix (p s : jsstring) : option jsstring :=
  match p with
  | [] => Some s
  | x :: p' =>
    match s with
    | [] => None
    | y :: s' => if x =? y then strip_prefix p' s' else None
    end
  end.

Fixpoint span_digits (s : jsstring) : jsstring * jsstring :=
  match s with
  | [] => ([], [])
  | c :: t =>
    if is_digit c then let '(d, r) := span_digits t in (c :: d, r)
    else ([], s)
  end.

Definition range_match_here (s : jsstring) : option (jsstring * jsstring) :=
  match strip_prefix (js "bytes=") s with
  | None => None
  | Some r =>
    let '(d1, r1) := span_digits r in
    match r1 with
    | 45 :: r2 => Some (d1, fst (span_digits r2))
    | _ => None
    end
  end.

Fixpoint range_search (s : jsstring) : option (jsstring * jsstring) :=
  match range_match_here s with
  | Some m => Some m
  | None =>
    match s with
    | [] => None
    | _ :: t => range_search t
    end
  end.

(** ** Node's [path] module (POSIX) *)

Fixpoint split_slash (s : jsstring) : list jsstring :=
  match s with
  | [] => [[]]
  | c :: t =>
    if c =? 47 then [] :: split_slash t
    else match split_slash t with
         | seg :: rest => (c :: seg) :: rest
         | [] => [[c]]
         end
  end.

Fixpoint join_slash (segs : list jsstring) : jsstring :=
  match segs with
  | [] => []
  | seg :: [] => seg
  | seg :: rest => seg ++ 47 :: join_slash rest
  end.

Definition dot : jsstring := [46].
Definition dotdot : jsstring := [46; 46].

(** [normalizeString]: [stack] holds the segments kept so far, last first. *)
Fixpoint norm_segs (allowAboveRoot : bool) (stack segs : list jsstring)
  : list jsstring :=
  match segs with
  | [] => rev stack
  | seg :: rest =>
    match seg with
    | [] => norm_segs allowAboveRoot stack rest
    | _ :: _ =>
      if zeqb_list seg dot then norm_segs allowAboveRoot stack rest
      else if zeqb_list seg dotdot then
        match stack with
        | top :: stack' =>
          if zeqb_list top dotdot
          then norm_segs allowAboveRoot (seg :: stack) rest
          else norm_segs allowAboveRoot stack' rest
        | [] =>
          if allowAboveRoot
          then norm_segs allowAboveRoot [seg] rest
          else norm_segs allowAboveRoot [] rest
        end
      else norm_segs allowAboveRoot (seg :: stack) rest
    end
  end.

Definition is_absolute (p : jsstring) : bool :=
  match p with
  | 47 :: _ => true
  | _ => false
  end.

Definition ends_with_slash (p : jsstring) : bool :=
  match rev p with
  | 47 :: _ => true
  | _ => false
  end.

Definition path_normalize (p : jsstring) : jsstring :=
  match p with
  | [] => dot
  | _ :: _ =>
    let isAbsolute := is_absolute p in
    let trailingSeparator := ends_with_slash p in
    let r := join_slash (norm_segs (negb isAbsolute) [] (split_slash p)) in
    match r with
    | [] => if isAbsolute then [47]
            else if trailingSeparator then [46; 47] else dot
    | _ :: _ =>
      (if isAbsolute then [47] else []) ++ r
        ++ (if trailingSeparator then [47] else [])
    end
  end.

(** [path.join(a, b)] *)
Definition path_join (a b : jsstring) : jsstring :=
  match a, b with
  | [], [] => dot
  | [], _ :: _ => path_normalize b
  | _ :: _, [] => path_normalize a
  | _ :: _, _ :: _ => path_normalize (a ++ 47 :: b)
  end.

Definition abs_path (segs : list jsstring) : jsstring := 47 :: join_slash segs.

(** The segments of [path.resolve(p)] for a process whose working directory
    is [cwd]. *)
Definition resolve_segs (cwd p : jsstring) : list jsstring :=
  norm_segs false []
    (split_slash (if is_absolute p then p else cwd ++ 47 :: p)).

Definition path_resolve (cwd p : jsstring) : jsstring :=
  abs_path (resolve_segs cwd p).

Fixpoint strip_common (a b : list jsstring) : list jsstring * list jsstring :=
  match a, b with
  | x :: a', y :: b' => if zeqb_list x y then strip_common a' b' else (a, b)
  | _, _ => (a, b)
  end.

(** [path.relative(from, to)] *)
Definition path_relative (cwd from to : jsstring) : jsstring :=
  let '(f, t) := strip_common (resolve_segs cwd from) (resolve_segs cwd to) in
  join_slash (map (fun _ => dotdot) f ++ t).

Fixpoint take_until_slash (s : jsstring) : jsstring :=
  match s with
  | [] => []
  | c :: t => if c =? 47 then [] else c :: take_until_slash t
  end.

(** The last portion of a path, trailing separators ignored, reversed. *)
Definition rev_basename (p : jsstring) : jsstring :=
  take_until_slash (drop_leading 47 (rev p)).

Fixpoint split_at_dot (s : jsstring) : option (jsstring * jsstring) :=
  match s with
  | [] => None
  | c :: t =>
    if c =? 46 then Some ([], t)
    else match split_at_dot t with
         | Some (a, b) => Some (c :: a, b)
         | None => None
         end
  end.

(** [path.extname(p)]: from the last [.] of the last portion to its end;
    empty when there is no [.], when the only [.] begins the portion, and
    for the portion [..]. *)
Definition path_extname (p : jsstring) : jsstring :=
  let rb := rev_basename p in
  if zeqb_list rb dotdot then []
  else match split_at_dot rb with
       | None => []
       | Some (_, []) => []
       | Some (rext, _ :: _) => 46 :: rev rext
       end.

(** ** The file system

    A tree of regular files, directories and special files (whatever
    [readdir] reports as neither: sockets, FIFOs, devices), as it stands
    while a request is served.  A directory carries its two permissions:
    one that is not [readable] cannot be listed, one that is not
    [searchable] lets no path through, so that nothing in it can be
    stat'ed or opened even when it can be listed.  Directories and special
    files carry the size that [stat] reports for them; the size of a regular
    file is the length of its content.  Entries keep the order in which
    [readdir] reports them.  Symbolic links are not part of the model. *)

#[warnings="-register-all"]
Inductive node : Type :=
| File (content : buffer)
| Dir (readable searchable : bool) (size : Z)
      (entries : list (jsstring * node))
| Special (size : Z).

Fixpoint assoc (name : jsstring) (es : list (jsstring * node)) : option node :=
  match es with
  | [] => None
  | (n, c) :: es' => if zeqb_list name n then Some c else assoc name es'
  end.

(** What resolving a path gives: the node it names, or the code of the
    error. *)
Inductive lookup : Type :=
| Found (n : node)
| Failed (code : string).

(** Path resolution from the root; [anc] holds the directories above [cur],
    nearest first.  Looking a name up in a directory needs search permission
    on it; a name that is missing gives ENOENT, a path that goes on below
    something that is not a directory gives ENOTDIR. *)
Fixpoint walk (anc : list node) (cur : node) (segs : list jsstring)
  : lookup :=
  match segs with
  | [] => Found cur
  | seg :: rest =>
    match cur with
    | Dir _ searchable _ es =>
      match seg with
      | [] => walk anc cur rest
      | _ :: _ =>
        if negb searchable then Failed "EACCES"
        else if zeqb_list seg dot then walk anc cur rest
        else if zeqb_list seg dotdot then
          match anc with
          | parent :: anc' => walk anc' parent rest
          | [] => walk [] cur rest
          end
        else match assoc seg es with
             | Some child => walk (cur :: anc) child rest
             | None => Failed "ENOENT"
             end
      end
    | _ => Failed "ENOTDIR"
    end
  end.

Definition has_nul (p : jsstring) : bool := existsb (fun c => c =? 0) p.

(** Every path the server hands to [fs] is absolute; a path that holds a
    NUL character is refused by Node before any system call. *)
Definition fs_lookup (root : node) (p : jsstring) : lookup :=
  if has_nul p then Failed "ERR_INVALID_ARG_VALUE"
  else walk [] root (split_slash p).

Definition found (l : lookup) : option node :=
  match l with
  | Found n => Some n
  | Failed _ => None
  end.

(** The node a path names, when it names one. *)
Definition fs_resolve (root : node) (p : jsstring) : option node :=
  found (fs_lookup root p).

Inductive fs_op : Type :=
| OpReaddir (p : jsstring)
| OpStat (p : jsstring)
| OpExists (p : jsstring)
| OpRead (p : jsstring) (window : option (number * number)).

(** The path an access touches. *)
Definition op_path (o : fs_op) : jsstring :=
  match o with
  | OpReaddir p | OpStat p | OpExists p | OpRead p _ => p
  end.

(** ** The monad of server code: a log of file-system accesses and an
    outcome, which is a value, a thrown exception, or [NoFuel] when the
    recursion budget of the model ran out. *)

Inductive outcome (A : Type) : Type :=
| Val (a : A)
| Exc (e : exn)
| NoFuel.
Arguments Val {A} a.
Arguments Exc {A} e.
Arguments NoFuel {A}.

Definition M (A : Type) : Type := (list fs_op * outcome A)%type.

Definition ret {A} (a : A) : M A := ([], Val a).

Definition bind {A B} (c : M A) (k : A -> M B) : M B :=
  match c with
  | (t, Val a) => let '(t', r) := k a in (t ++ t', r)
  | (t, Exc e) => (t, Exc e)
  | (t, NoFuel) => (t, NoFuel)
  end.

Notation "x <- c ;; k" := (bind c (fun x => k))
  (at level 61, c at next level, right associativity).

Definition lift {A} (r : result A) : M A :=
  match r with
  | Ok a => ret a
  | Throw e => ([], Exc e)
  end.

(** [try { c } catch { }]: [None] when [c] threw. *)
Definition attempt {A} (c : M A) : M (option A) :=
  match c with
  | (t, Val a) => (t, Val (Some a))
  | (t, Exc _) => (t, Val None)
  | (t, NoFuel) => (t, NoFuel)
  end.

Definition trace {A} (c : M A) : list fs_op := fst c.
Definition run {A} (c : M A) : outcome A := snd c.

Record Dirent : Type := mkDirent {
  d_name : jsstring;
  d_isFile : bool;
  d_isDirectory : bool
}.

Record Stats : Type := mkStats {
  st_isFile : bool;
  st_isDirectory : bool;
  st_size : number
}.

Definition dirent_of (e : jsstring * node) : Dirent :=
  match snd e with
  | File _ => mkDirent (fst e) true false
  | Dir _ _ _ _ => mkDirent (fst e) false true
  | Special _ => mkDirent (fst e) false false
  end.

(** The size that [stat] reports, as an integer; [stat] gives it as a
    Number, which holds it exactly when it is below 2^53 ([safe_size]
    below). *)
Definition node_size (n : node) : Z :=
  match n with
  | File c => Z.of_nat (length c)
  | Dir _ _ size _ => size
  | Special size => size
  end.

Definition stats_of (n : node) : Stats :=
  match n with
  | File _ => mkStats true false (Fin (node_size n))
  | Dir _ _ _ _ => mkStats false true (Fin (node_size n))
  | Special _ => mkStats false false (Fin (node_size n))
  end.

(** The bytes [start .. end], both included. *)
Definition read_window (c : buffer) (window : option (number * number))
  : option buffer :=
  match window with
  | None => Some c
  | Some (Fin s, Fin e) =>
    if (0 <=? s) && (s <=? e)
    then Some (firstn (Z.to_nat (e - s + 1)) (skipn (Z.to_nat s) c))
    else None
  | Some _ => None
  end.

(** ** HTTP responses *)

Inductive hval : Type :=
| HStr (s : jsstring)
| HNum (n : number).

Record media_item : Type := mkItem {
  item_id : jsstring;
  item_name : jsstring;
  item_path : jsstring;
  item_size : number;
  item_mime : jsstring
}.

Record media_meta : Type := mkMeta {
  meta_id : jsstring;
  meta_name : jsstring;
  meta_size : number;
  meta_mime : jsstring
}.

Inductive body : Type :=
| BodyEmpty
| BodyError (message : jsstring)          (* res.json({ error }) *)
| BodyItems (items : list media_item)     (* res.json(items) *)
| BodyMeta (m : media_meta)               (* res.json(media) *)
| BodyBytes (b : buffer)                  (* a file stream piped to res *)
| BodyAborted.                            (* the stream failed *)

Record response : Type := mkResponse {
  status : Z;
  headers : list (jsstring * hval);
  resp_body : body
}.

Definition json_error (code : Z) (message : jsstring) : response :=
  mkResponse code [] (BodyError message).

Definition msg_invalid_id : jsstring := js "ID inv" ++ [225] ++ js "lido".
Definition msg_not_found : jsstring := js "Archivo no encontrado".
Definition octet_stream : jsstring := js "application/octet-stream".

Definition VIDEO_EXTS : list jsstring :=
  [js ".mp4"; js ".mkv"; js ".avi"; js ".mov"; js ".m4v"; js ".webm"].

Definition set_has (l : list jsstring) (x : jsstring) : bool :=
  existsb (zeqb_list x) l.

(** JavaScript truthiness of a string and of a possibly absent header. *)
Definition truthy (s : jsstring) : bool :=
  match s with
  | [] => false
  | _ :: _ => true
  end.

Definition header_truthy (h : option jsstring) : bool :=
  match h with
  | None => false
  | Some s => truthy s
  end.

(** The three results of range resolution that the specification names. *)
Inductive resolution : Type :=
| FullFile
| Unsatisfiable
| Window (start end_ : number).

(** ** The server module *)

Section Server.

Variable cwd : jsstring.            (* process.cwd() at start-up *)
Variable env_MEDIA_DIR : jsstring.  (* process.env.MEDIA_DIR *)
Variable toLowerCase : jsstring -> jsstring.  (* String.prototype.toLowerCase *)
Variable mime_types : jsstring -> option jsstring.  (* the table of mime-types *)
Variable fs : node.                 (* the file system, from its root *)

Definition MEDIA_DIR : jsstring := path_resolve cwd env_MEDIA_DIR.

(** [mime.lookup(path)]: the type registered for the extension of
    ['x.' + path], in lower case and without its dot. *)
Definition mime_lookup (p : jsstring) : option jsstring :=
  if negb (truthy p) then None
  else
    let extension := tl (toLowerCase (path_extname (js "x." ++ p))) in
    if negb (truthy extension) then None
    else match mime_types extension with
         | Some t => if truthy t then Some t else None
         | None => None
         end.

(** [mime.lookup(p) || 'application/octet-stream'] *)
Definition mime_or_default (p : jsstring) : jsstring :=
  match mime_lookup p with
  | Some t => t
  | None => octet_stream
  end.

(** [fsp.readdir(p, { withFileTypes: true })]: the type of every entry
    comes with the listing, no entry is stat'ed. *)
Definition fsp_readdir (p : jsstring) : M (list Dirent) :=
  ([OpReaddir p],
   match fs_lookup fs p with
   | Found (Dir true _ _ es) => Val (map dirent_of es)
   | Found (Dir false _ _ _) => Exc (FsError "scandir" "EACCES")
   | Found _ => Exc (FsError "scandir" "ENOTDIR")
   | Failed code => Exc (FsError "scandir" code)
   end).

Definition fsp_stat (p : jsstring) : M Stats :=
  ([OpStat p],
   match fs_lookup fs p with
   | Found n => Val (stats_of n)
   | Failed code => Exc (FsError "stat" code)
   end).

Definition fs_statSync (p : jsstring) : M Stats := fsp_stat p.

Definition fs_existsSync (p : jsstring) : M bool :=
  ([OpExists p],
   Val (match fs_resolve fs p with Some _ => true | None => false end)).

(** [fs.createReadStream(p, window).pipe(res)]: the bytes sent, or an
    aborted response when the stream fails. *)
Definition pipe_file (p : jsstring) (window : option (number * number))
  : M body :=
  ([OpRead p window],
   Val (match fs_resolve fs p with
        | Some (File c) =>
          match read_window c window with
          | Some b => BodyBytes b
          | None => BodyAborted
          end
        | _ => BodyAborted
        end)).

(** *** listMedia *)

(** The body of the [for] loop over the entries of [dir]; [recur] is the
    recursive call [listMedia(full)]. *)
Fixpoint scan_entries (recur : jsstring -> M (list media_item))
         (dir : jsstring) (es : list Dirent) (items : list media_item)
  : M (list media_item) :=
  match es with
  | [] => ret items
  | dirent :: es' =>
    let full := path_join dir (d_name dirent) in
    if d_isDirectory dirent then
      sub <- recur full;;
      scan_entries recur dir es' (items ++ sub)
    else if negb (d_isFile dirent) then scan_entries recur dir es' items
    else
      let ext := toLowerCase (path_extname (d_name dirent)) in
      if negb (set_has VIDEO_EXTS ext) then scan_entries recur dir es' items
      else
        stat <- fsp_stat full;;
        let rel := path_relative cwd MEDIA_DIR full in
        let id := toBase64Url rel in
        scan_entries recur dir es'
          (items ++
           [mkItem id (d_name dirent) rel (st_size stat)
              (mime_or_default (d_name dirent))])
  end.

(** [fuel] bounds the depth of the recursion, which in the source ends
    because directories nest finitely. *)
Fixpoint listMedia (fuel : nat) (dir : jsstring) : M (list media_item) :=
  match fuel with
  | O => ([], NoFuel)
  | S fuel' =>
    r <- attempt (fsp_readdir dir);;
    match r with
    | None => ret []
    | Some entries => scan_entries (listMedia fuel') dir entries []
    end
  end.

(** *** getMediaById *)

Definition getMediaById (id : jsstring) : M (option media_meta) :=
  r <- attempt
         (fileName <- lift (fromBase64Url id);;
          let full := path_join MEDIA_DIR fileName in
          stat <- fsp_stat full;;
          if negb (st_isFile stat) then ret None
          else
            let ext := toLowerCase (path_extname fileName) in
            if negb (set_has VIDEO_EXTS ext) then ret None
            else
              ret (Some (mkMeta id fileName (st_size stat)
                           (mime_or_default fileName))));;
  match r with
  | Some media => ret media
  | None => ret None
  end.

(** *** GET /stream/:id *)

(** [(end - start) + 1] *)
Definition chunk_size (start end_ : number) : number :=
  num_add (num_sub end_ start) (Fin 1).

(** [res.set('Content-Range', `bytes */${fileSize}`); res.status(416).end()] *)
Definition respond_416 (fileSize : number) : response :=
  mkResponse 416
    [(js "Content-Range", HStr (js "bytes */" ++ num_to_string fileSize))]
    BodyEmpty.

Definition stream_handler (id : jsstring) (range : option jsstring)
  : M response :=
  r <- attempt
         (fileName <- lift (fromBase64Url id);;
          ret (path_join MEDIA_DIR fileName, fileName));;
  match r with
  | None => ret (json_error 400 msg_invalid_id)
  | Some (absPath, fileName) =>
    found <- fs_existsSync absPath;;
    if negb found then ret (json_error 404 msg_not_found)
    else
      stat <- fs_statSync absPath;;
      let fileSize := st_size stat in
      let mimeType := mime_or_default absPath in
      match range with
      | None | Some [] =>
        b <- pipe_file absPath None;;
        ret (mkResponse 200
               [(js "Content-Type", HStr mimeType);
                (js "Content-Length", HNum fileSize);
                (js "Accept-Ranges", HStr (js "bytes"))] b)
      | Some ((_ :: _) as range) =>
        match range_search range with
        | None => ret (respond_416 fileSize)
        | Some (m1, m2) =>
          let start := if truthy m1 then Some (parseInt10 m1) else None in
          let end_ := if truthy m2 then Some (parseInt10 m2) else None in
          let validate (start end_ : number) : M response :=
            if num_lt start (Fin 0) || num_ge end_ fileSize
               || num_gt start end_
            then ret (respond_416 fileSize)
            else
              let chunkSize := chunk_size start end_ in
              b <- pipe_file absPath (Some (start, end_));;
              ret (mkResponse 206
                     [(js "Content-Range",
                       HStr (js "bytes " ++ num_to_string start ++ js "-"
                               ++ num_to_string end_ ++ js "/"
                               ++ num_to_string fileSize));
                      (js "Accept-Ranges", HStr (js "bytes"));
                      (js "Content-Length", HNum chunkSize);
                      (js "Content-Type", HStr mimeType)] b) in
          match start, end_ with
          | None, None => ret (respond_416 fileSize)
          | Some start, None => validate start (num_sub fileSize (Fin 1))
          | None, Some suffix =>
            if num_eq suffix (Fin 0) then ret (respond_416 fileSize)
            else validate (Math_max (num_sub fileSize suffix) (Fin 0))
                   (num_sub fileSize (Fin 1))
          | Some start, Some end_ => validate start end_
          end
        end
      end
  end.

(** *** The handler read as resolver and responder

    The specification splits the handler into a Range Resolver (the
    decisions of steps 3 and 4) and a Stream Responder (what is sent for
    each decision).  [resolve_range] and [respond] are these two halves;
    [stream_handler_factored] below shows that composing them is the
    handler. *)

Definition validate_window (fileSize start end_ : number) : resolution :=
  if num_lt start (Fin 0) || num_ge end_ fileSize || num_gt start end_
  then Unsatisfiable
  else Window start end_.

Definition resolve_range (range : option jsstring) (fileSize : number)
  : resolution :=
  match range with
  | None | Some [] => FullFile
  | Some ((_ :: _) as range) =>
    match range_search range with
    | None => Unsatisfiable
    | Some (m1, m2) =>
      let start := if truthy m1 then Some (parseInt10 m1) else None in
      let end_ := if truthy m2 then Some (parseInt10 m2) else None in
      match start, end_ with
      | None, None => Unsatisfiable
      | Some start, None =>
        validate_window fileSize start (num_sub fileSize (Fin 1))
      | None, Some suffix =>
        if num_eq suffix (Fin 0) then Unsatisfiable
        else validate_window fileSize
               (Math_max (num_sub fileSize suffix) (Fin 0))
               (num_sub fileSize (Fin 1))
      | Some start, Some end_ => validate_window fileSize start end_
      end
    end
  end.

Definition respond (absPath mimeType : jsstring) (fileSize : number)
           (r : resolution) : M response :=
  match r with
  | FullFile =>
    b <- pipe_file absPath None;;
    ret (mkResponse 200
           [(js "Content-Type", HStr mimeType);
            (js "Content-Length", HNum fileSize);
            (js "Accept-Ranges", HStr (js "bytes"))] b)
  | Unsatisfiable => ret (respond_416 fileSize)
  | Window start end_ =>
    let chunkSize := chunk_size start end_ in
    b <- pipe_file absPath (Some (start, end_));;
    ret (mkResponse 206
           [(js "Content-Range",
             HStr (js "bytes " ++ num_to_string start ++ js "-"
                     ++ num_to_string end_ ++ js "/"
                     ++ num_to_string fileSize));
            (js "Accept-Ranges", HStr (js "bytes"));
            (js "Content-Length", HNum chunkSize);
            (js "Content-Type", HStr mimeType)] b)
  end.

(** *** GET /media and GET /media/:id *)

Definition media_handler (fuel : nat) : M response :=
  items <- listMedia fuel MEDIA_DIR;;
  ret (mkResponse 200 [] (BodyItems items)).

Definition media_id_handler (id : jsstring) : M response :=
  media <- getMediaById id;;
  match media with
  | None => ret (json_error 404 msg_not_found)
  | Some m => ret (mkResponse 200 [] (BodyMeta m))
  end.


(** ** Notions the properties are stated with *)

(** A string is well formed when it is the UTF-16 form of a sequence of
    Unicode scalar values: every code unit is in range and every surrogate
    is one half of a pair.  Every string built from printable characters is
    well formed. *)
Fixpoint wf_utf16 (s : jsstring) : bool :=
  match s with
  | [] => true
  | c :: t =>
    if is_high_surrogate c then
      match t with
      | d :: t' => is_low_surrogate d && wf_utf16 t'
      | [] => false
      end
    else negb (is_low_surrogate c) && (0 <=? c) && (c <=? 0xFFFF) && wf_utf16 t
  end.

(** The characters of a URL path segment that never need percent-encoding
    and that a token is made of: letters, digits, [-] and [_]. *)
Definition url_safe (c : Z) : bool :=
  ((65 <=? c) && (c <=? 90)) || ((97 <=? c) && (c <=? 122))
  || ((48 <=? c) && (c <=? 57)) || (c =? 45) || (c =? 95).

Definition is_byte (b : Z) : bool := (0 <=? b) && (b <=? 255).

(** The six-bit groups of a buffer, before they are written as characters. *)
Fixpoint sextets_of (bs : buffer) : list Z :=
  match bs with
  | [] => []
  | a :: [] => [a / 4; (a mod 4) * 16]
  | a :: b :: [] => [a / 4; (a mod 4) * 16 + b / 16; (b mod 16) * 4]
  | a :: b :: c :: t =>
    a / 4 :: (a mod 4) * 16 + b / 16 :: (b mod 16) * 4 + c / 64 :: c mod 64
      :: sextets_of t
  end.

Definition b64_padding (bs : buffer) : nat := ((3 - length bs mod 3) mod 3)%nat.

Definition is_sextet (v : Z) : bool := (0 <=? v) && (v <? 64).

(** The character of a six-bit group in a token: base64 with [+] and [/]
    replaced. *)
Definition url_char (v : Z) : Z :=
  let x := b64_char v in
  let y := if x =? 43 then 45 else x in
  if y =? 47 then 95 else y.

(** *** The single-range grammar and the window of the specification *)

Definition all_digits (s : jsstring) : bool := forallb is_digit s.

(** The header [bytes=<start>-<end>] with the given digit strings. *)
Definition header_of (d1 d2 : jsstring) : jsstring :=
  js "bytes=" ++ d1 ++ 45 :: d2.

(** A field of the header: absent when empty, else its decimal value. *)
Definition field_value (d : jsstring) : option Z :=
  match d with
  | [] => None
  | _ :: _ => Some (digits_value 0 d)
  end.

(** The whole header matches the grammar: [bytes=], digits, [-], digits and
    nothing else, the two digit strings not both empty. *)
Definition matches_grammar (h : jsstring) : bool :=
  match strip_prefix (js "bytes=") h with
  | None => false
  | Some r =>
    let '(d1, r1) := span_digits r in
    match r1 with
    | 45 :: r2 =>
      let '(d2, r3) := span_digits r2 in
      match r3 with
      | [] => truthy d1 || truthy d2
      | _ :: _ => false
      end
    | _ => false
    end
  end.

(** The pattern occurs somewhere in the header. *)
Definition contains_range_pattern (h : jsstring) : Prop :=
  exists pre d1 d2 post,
    all_digits d1 = true /\ all_digits d2 = true /\
    h = pre ++ header_of d1 d2 ++ post.

(** Step 3 of the specification: the window before bounds checking, on exact
    integers; [None] for the suffix of length 0. *)
Definition spec_window (start end_ : option Z) (size : Z) : option (Z * Z) :=
  match start, end_ with
  | Some s, Some e => Some (s, e)
  | Some s, None => Some (s, size - 1)
  | None, Some n => if n =? 0 then None else Some (Z.max (size - n) 0, size - 1)
  | None, None => None
  end.

(** Steps 3 and 4 of the specification. *)
Definition spec_resolve (start end_ : option Z) (size : Z) : resolution :=
  match spec_window start end_ size with
  | None => Unsatisfiable
  | Some (s, e) =>
    if (s <? 0) || (size <=? e) || (e <? s) then Unsatisfiable
    else Window (Fin s) (Fin e)
  end.

(** The bytes [s .. e] of a file, both ends included. *)
Definition byte_range (content : buffer) (s e : Z) : buffer :=
  firstn (Z.to_nat (e - s + 1)) (skipn (Z.to_nat s) content).

(** A file size that a Number holds exactly. *)
Definition safe_size (size : Z) : Prop := 0 <= size < 2 ^ 53.

(** *** Well-formed file systems and the catalogue of the specification *)

(** A path segment that normalisation keeps: not empty, no separator, and
    neither [.] nor [..]. *)
Definition no_slash (s : jsstring) : bool :=
  forallb (fun c => negb (c =? 47)) s.

Definition valid_seg (s : jsstring) : bool :=
  truthy s && no_slash s && negb (zeqb_list s dot)
  && negb (zeqb_list s dotdot).

(** A file name as [readdir] reports it: a valid segment without NUL, well
    formed as a string. *)
Definition valid_name (s : jsstring) : bool :=
  valid_seg s && negb (has_nul s) && wf_utf16 s.

Fixpoint names_distinct (l : list jsstring) : bool :=
  match l with
  | [] => true
  | x :: t => negb (set_has t x) && names_distinct t
  end.

(** Every directory holds valid, pairwise different names. *)
Fixpoint wf_node (n : node) : bool :=
  match n with
  | Dir _ _ _ es =>
    names_distinct (map fst es)
    && forallb (fun e => match e with
                         | (nm, c) => valid_name nm && wf_node c
                         end) es
  | _ => true
  end.

Definition is_dir (n : node) : bool :=
  match n with
  | Dir _ _ _ _ => true
  | _ => false
  end.

(** The root is a directory and the tree is well formed. *)
Definition wf_fs (root : node) : bool := is_dir root && wf_node root.

Fixpoint height (n : node) : nat :=
  match n with
  | Dir _ _ _ es =>
    S (fold_right Nat.max 0%nat
         (map (fun e => match e with (_, c) => height c end) es))
  | _ => 0%nat
  end.

(** Descent along names, without [.], [..] or empty segments, through
    directories that can be searched. *)
Fixpoint descend (cur : node) (segs : list jsstring) : option node :=
  match segs with
  | [] => Some cur
  | seg :: rest =>
    match cur with
    | Dir _ true _ es =>
      match assoc seg es with
      | Some child => descend child rest
      | None => None
      end
    | _ => None
    end
  end.

(** The segments of the media root. *)
Definition root_segs : list jsstring := resolve_segs cwd env_MEDIA_DIR.

Fixpoint seg_prefix (a b : list jsstring) : bool :=
  match a, b with
  | [], _ => true
  | x :: a', y :: b' => zeqb_list x y && seg_prefix a' b'
  | _ :: _, [] => false
  end.

(** The path, once resolved, is the media root or lies below it. *)
Definition within_root (p : jsstring) : bool :=
  seg_prefix root_segs (resolve_segs cwd p).

(** The catalogue as the specification describes it: every regular file
    below the node whose extension, in lower case, is an allowed video
    extension, with its path relative to the media root ([sub] is the path
    of the node itself); a directory that cannot be read, or cannot be
    entered, contributes nothing. *)
Fixpoint spec_catalog (sub : list jsstring) (n : node) : list media_item :=
  match n with
  | Dir true true _ es =>
    flat_map
      (fun e =>
         match e with
         | (nm, c) =>
           match c with
           | Dir _ _ _ _ => spec_catalog (sub ++ [nm]) c
           | File content =>
             if set_has VIDEO_EXTS (toLowerCase (path_extname nm))
             then [mkItem (toBase64Url (join_slash (sub ++ [nm]))) nm
                     (join_slash (sub ++ [nm]))
                     (Fin (Z.of_nat (length content)))
                     (mime_or_default nm)]
             else []
           | Special _ => []
           end
         end) es
  | _ => []
  end.

(** What one directory entry adds to the catalogue of its directory. *)
Definition catalog_entry (sub : list jsstring) (e : jsstring * node)
  : list media_item :=
  match e with
  | (nm, c) =>
    match c with
    | Dir _ _ _ _ => spec_catalog (sub ++ [nm]) c
    | File content =>
      if set_has VIDEO_EXTS (toLowerCase (path_extname nm))
      then [mkItem (toBase64Url (join_slash (sub ++ [nm]))) nm
              (join_slash (sub ++ [nm]))
              (Fin (Z.of_nat (length content)))
              (mime_or_default nm)]
      else []
    | Special _ => []
    end
  end.

(** The scan meets a video file that it lists but cannot stat: one in a
    directory that can be read but not searched.  ([s] is the search
    permission of the directory that holds the entry; a directory below one
    that cannot be searched is never entered.) *)
Fixpoint stat_denied (n : node) : bool :=
  match n with
  | Dir true s _ es =>
    existsb
      (fun e =>
         match e with
         | (nm, c) =>
           match c with
           | Dir _ _ _ _ => s && stat_denied c
           | File _ =>
             negb s && set_has VIDEO_EXTS (toLowerCase (path_extname nm))
           | Special _ => false
           end
         end) es
  | _ => false
  end.

Definition entry_denied (s : bool) (e : jsstring * node) : bool :=
  match e with
  | (nm, c) =>
    match c with
    | Dir _ _ _ _ => s && stat_denied c
    | File _ => negb s && set_has VIDEO_EXTS (toLowerCase (path_extname nm))
    | Special _ => false
    end
  end.

(** What the scan of a node comes to: the exception of the first failed
    [stat], or the catalogue. *)
Definition scan_outcome (sub : list jsstring) (n : node)
  : outcome (list media_item) :=
  if stat_denied n then Exc (FsError "stat" "EACCES")
  else Val (spec_catalog sub n).

(** An exception that comes from a failed [stat]. *)
Definition stat_error (e : exn) : Prop := exists code, e = FsError "stat" code.

(** The decoded value has no [..] segment. *)
Definition no_dotdot (name : jsstring) : bool :=
  forallb (fun seg => negb (zeqb_list seg dotdot)) (split_slash name).

(** What the lookup answers for a decoded name, read off the file system. *)
Definition lookup_answer (id name : jsstring) : option media_meta :=
  match fs_resolve fs (path_join MEDIA_DIR name) with
  | Some (File content) =>
    if set_has VIDEO_EXTS (toLowerCase (path_extname name))
    then Some (mkMeta id name (Fin (Z.of_nat (length content)))
                 (mime_or_default name))
    else None
  | _ => None
  end.

(** A Unicode scalar value. *)
Definition is_scalar (cp : Z) : Prop :=
  0 <= cp < 0x110000 /\ ~ (0xD800 <= cp <= 0xDFFF).

(** What a Number at least 2^53 looks like, and one at most 0. *)
Definition num_huge (a : number) : Prop :=
  a = PosInf \/ exists m, a = Fin m /\ 2 ^ 53 <= m.

Definition num_nonpos (a : number) : Prop :=
  a = NegInf \/ exists m, a = Fin m /\ m <= 0.

Definition starts_with_digit (s : jsstring) : bool :=
  match s with
  | [] => false
  | c :: _ => is_digit c
  end.

(** *** A sample installation, for the worked examples *)

Definition sample_cwd : jsstring := js "/".
Definition sample_env : jsstring := js "/media".

(** Lower case of the ASCII letters. *)
Definition ascii_lower (s : jsstring) : jsstring :=
  map (fun c => if (65 <=? c) && (c <=? 90) then c + 32 else c) s.

Definition sample_mime (ext : jsstring) : option jsstring :=
  if zeqb_list ext (js "mp4") then Some (js "video/mp4")
  else if zeqb_list ext (js "mkv") then Some (js "video/x-matroska")
  else None.

Definition sample_media : node :=
  Dir true true 4096
    [(js "a.mp4", File [1; 2; 3; 4; 5; 6; 7; 8; 9; 10]);
     (js "locked", Dir false true 4096 [(js "c.mp4", File [1])]);
     (js "sub", Dir true true 4096 [(js "b.mkv", File [7; 7; 7])]);
     (js "notes.txt", File [0])].

Definition sample_fs : node :=
  Dir true true 4096
    [(js "media", sample_media); (js "secret.mp4", File [42; 42])].

(** A second installation: the directory [vault] can be listed but not
    searched. *)
Definition sample_guarded : node :=
  Dir true true 4096
    [(js "media",
      Dir true true 4096
        [(js "a.mp4", File [1]);
         (js "vault", Dir true false 4096 [(js "x.mp4", File [9])])])].

Definition sample_items : list media_item :=
  [mkItem (js "YS5tcDQ") (js "a.mp4") (js "a.mp4") (Fin 10) (js "video/mp4");
   mkItem (js "c3ViL2IubWt2") (js "b.mkv") (js "sub/b.mkv") (Fin 3)
     (js "video/x-matroska")].

(** A path with a letter outside ASCII and a character outside the basic
    plane (a surrogate pair). *)
Definition sample_path : jsstring :=
  js "pel" ++ [237] ++ js "cula " ++ [0xD83C; 0xDFAC] ++ js ".mp4".

(** ** Proof automation *)

Ltac zbool :=
  repeat match goal with
  | H : (_ && _)%bool = true |- _ => apply andb_prop in H; destruct H
  | H : (_ && _)%bool = false |- _ => apply andb_false_iff in H
  | H : (_ || _)%bool = true |- _ => apply orb_prop in H
  | H : (_ || _)%bool = false |- _ => apply orb_false_iff in H; destruct H
  | H : negb _ = true |- _ => apply negb_true_iff in H
  | H : negb _ = false |- _ => apply negb_false_iff in H
  | H : (_ <=? _) = true |- _ => apply Z.leb_le in H
  | H : (_ <=? _) = false |- _ => apply Z.leb_gt in H
  | H : (_ <? _) = true |- _ => apply Z.ltb_lt in H
  | H : (_ <? _) = false |- _ => apply Z.ltb_ge in H
  | H : (_ =? _) = true |- _ => apply Z.eqb_eq in H
  | H : (_ =? _) = false |- _ => apply Z.eqb_neq in H
  | H : _ \/ _ |- _ => destruct H
  end.

(** Decide the boolean tests of the goal one after the other, leaving only
    the branches that the arithmetic facts at hand allow. *)
Ltac split_ifs :=
  repeat match goal with
  | |- context [if ?b then _ else _] =>
    let E := fresh "E" in
    destruct b eqn:E; zbool; try (exfalso; Z.div_mod_to_equations; lia)
  | H : context [if ?b then _ else _] |- _ =>
    let E := fresh "E" in
    destruct b eqn:E; zbool; try (exfalso; Z.div_mod_to_equations; lia)
  end.

(** Replace every comparison of the goal that linear arithmetic settles by
    its value. *)
Ltac decide_tests :=
  repeat match goal with
  | |- context [?a <=? ?b] =>
    first [ replace (a <=? b) with true by (symmetry; apply Z.leb_le; lia)
          | replace (a <=? b) with false by (symmetry; apply Z.leb_gt; lia) ]
  | |- context [?a <? ?b] =>
    first [ replace (a <? b) with true by (symmetry; apply Z.ltb_lt; lia)
          | replace (a <? b) with false by (symmetry; apply Z.ltb_ge; lia) ]
  | |- context [?a =? ?b] =>
    first [ replace (a =? b) with true by (symmetry; apply Z.eqb_eq; lia)
          | replace (a =? b) with false by (symmetry; apply Z.eqb_neq; lia) ]
  end.

Ltac nonnil :=
  let E := fresh "E" in
  intros E; cbn [app] in E;
  first [ discriminate E
        | apply app_eq_nil in E; destruct E as [_ E]; discriminate E ].

(** The facts about strings, numbers and paths do not depend on the server's
    configuration; their proofs drop it from the context. *)
Ltac forget_server :=
  try clear fs; try clear mime_types; try clear toLowerCase;
  try clear env_MEDIA_DIR; try clear cwd.

(** ** Notions for further properties of the code *)

(** [String.prototype.toWellFormed]: every unpaired surrogate replaced by
    U+FFFD. *)
Fixpoint toWellFormed (s : jsstring) : jsstring :=
  match s with
  | [] => []
  | c :: t =>
    if is_high_surrogate c then
      match t with
      | d :: t' =>
        if is_low_surrogate d then c :: d :: toWellFormed t'
        else 0xFFFD :: toWellFormed t
      | [] => [0xFFFD]
      end
    else if is_low_surrogate c then 0xFFFD :: toWellFormed t
    else c :: toWellFormed t
  end.

(** Every element is a UTF-16 code unit, as in any JavaScript string. *)
Definition code_units (s : jsstring) : bool :=
  forallb (fun c => (0 <=? c) && (c <=? 0xFFFF)) s.

(** Descent along names through directories that can be listed and
    searched. *)
Fixpoint descend_listed (cur : node) (segs : list jsstring) : option node :=
  match segs with
  | [] => Some cur
  | seg :: rest =>
    match cur with
    | Dir true true _ es =>
      match assoc seg es with
      | Some child => descend_listed child rest
      | None => None
      end
    | _ => None
    end
  end.

(** The access reads file content. *)
Definition is_read (o : fs_op) : bool :=
  match o with
  | OpRead _ _ => true
  | _ => false
  end.

(** An access that stays inside the media root and reads no file content. *)
Definition scan_access (o : fs_op) : Prop :=
  within_root (op_path o) = true /\ is_read o = false.

(** What the decoder still expects in the middle of a sequence: whichever
    continuation bytes it accepts from here, the code point completed is a
    Unicode scalar value. *)
Fixpoint cont_ok (needed : nat) (cp lower upper : Z) : Prop :=
  match needed with
  | O => forall b, lower <= b <= upper -> is_scalar (cp * 64 + (b - 0x80))
  | S n =>
    forall b, lower <= b <= upper -> cont_ok n (cp * 64 + (b - 0x80)) 0x80 0xBF
  end.

Definition state_ok (st : utf8_state) : Prop :=
  match st with
  | U_start => True
  | U_cont cp needed lower upper => cont_ok needed cp lower upper
  end.

(** * Properties *)

Set Default Proof Using "Type".


(** ** Arithmetic helpers *)




Lemma zeqb_list_eq (a b : list Z) : zeqb_list a b = true <-> a = b.
Proof.
  revert b; induction a as [|x a IH]; intros [|y b]; simpl; split;
    try congruence; try reflexivity.
  - intros H. apply andb_prop in H as [Hx Hr]. apply Z.eqb_eq in Hx.
    apply IH in Hr. congruence.
  - intros H. injection H as -> ->. rewrite Z.eqb_refl. simpl. now apply IH.
Qed.

Lemma zeqb_list_refl (a : list Z) : zeqb_list a a = true.
Proof. now apply zeqb_list_eq. Qed.

Lemma zeqb_list_neq (a b : list Z) : zeqb_list a b = false <-> a <> b.
Proof.
  split.
  - intros H E. apply zeqb_list_eq in E. congruence.
  - intros H. destruct (zeqb_list a b) eqn:E; [|reflexivity].
    apply zeqb_list_eq in E. contradiction.
Qed.

(** ** UTF-8: decoding undoes encoding on well-formed strings *)


Lemma utf8_decode_cp (cp : Z) (rest : buffer) :
  is_scalar cp ->
  utf8_decode_from U_start (utf8_of_cp cp ++ rest)
  = cp :: utf8_decode_from U_start rest.
Proof.
  forget_server.
  intros [Hr Hs]. unfold utf8_of_cp.
  destruct (cp <? 0x80) eqn:E1; [|destruct (cp <? 0x800) eqn:E2;
    [|destruct (cp <? 0x10000) eqn:E3]]; zbool;
    cbn [app utf8_decode_from]; unfold utf8_lead.
  - split_ifs. reflexivity.
  - split_ifs. repeat (cbn [app utf8_decode_from]; split_ifs).
    f_equal. Z.div_mod_to_equations; lia.
  - split_ifs; repeat (cbn [app utf8_decode_from]; split_ifs);
      f_equal; Z.div_mod_to_equations; lia.
  - split_ifs; repeat (cbn [app utf8_decode_from]; split_ifs);
      f_equal; Z.div_mod_to_equations; lia.
Qed.

(** Induction along the scalar values of a well-formed string. *)
Lemma wf_utf16_ind (P : jsstring -> Prop) :
  P [] ->
  (forall c t, is_high_surrogate c = false -> is_low_surrogate c = false ->
               0 <= c <= 0xFFFF -> wf_utf16 t = true -> P t -> P (c :: t)) ->
  (forall c d t, is_high_surrogate c = true -> is_low_surrogate d = true ->
                 wf_utf16 t = true -> P t -> P (c :: d :: t)) ->
  forall s, wf_utf16 s = true -> P s.
Proof.
  intros H0 H1 H2. fix IH 1. intros [|c t] Hwf.
  - exact H0.
  - simpl in Hwf. destruct (is_high_surrogate c) eqn:Eh.
    + destruct t as [|d t']; [discriminate|].
      apply andb_prop in Hwf as [Hd Ht]. apply H2; auto.
    + apply andb_prop in Hwf as [Hwf Ht]. apply andb_prop in Hwf as [Hwf Hu].
      apply andb_prop in Hwf as [Hl Hz].
      apply negb_true_iff in Hl. apply Z.leb_le in Hz, Hu.
      apply H1; auto.
Qed.

Lemma surrogates_scalar (c d : Z) :
  is_high_surrogate c = true -> is_low_surrogate d = true ->
  is_scalar (cp_of_surrogates c d) /\ utf16_of_cp (cp_of_surrogates c d) = [c; d].
Proof.
  forget_server.
  unfold is_high_surrogate, is_low_surrogate, cp_of_surrogates, is_scalar,
    utf16_of_cp.
  intros Hc Hd. zbool. split; [lia|].
  split_ifs. f_equal; [|f_equal]; Z.div_mod_to_equations; lia.
Qed.

Lemma bmp_scalar (c : Z) :
  is_high_surrogate c = false -> is_low_surrogate c = false ->
  0 <= c <= 0xFFFF -> is_scalar c /\ utf16_of_cp c = [c].
Proof.
  forget_server.
  unfold is_high_surrogate, is_low_surrogate, is_scalar, utf16_of_cp.
  intros Hh Hl Hr. zbool; (split; [lia|]); split_ifs; reflexivity.
Qed.

Lemma utf8_of_cp_bytes (cp : Z) :
  0 <= cp < 0x110000 -> forallb is_byte (utf8_of_cp cp) = true.
Proof.
  forget_server.
  intros H. unfold utf8_of_cp, is_byte.
  split_ifs; cbn [forallb]; rewrite ?andb_true_r;
    repeat (apply andb_true_intro; split); try reflexivity;
    try apply Z.leb_le; Z.div_mod_to_equations; lia.
Qed.

Lemma utf8_encode_bytes (s : jsstring) :
  wf_utf16 s = true -> forallb is_byte (utf8_encode s) = true.
Proof.
  revert s. apply wf_utf16_ind.
  - reflexivity.
  - intros c t Hh Hl Hr _ IH. simpl. rewrite Hh, Hl.
    rewrite forallb_app, IH, utf8_of_cp_bytes; [reflexivity|lia].
  - intros c d t Hh Hl _ IH. simpl. rewrite Hh, Hl.
    destruct (surrogates_scalar c d Hh Hl) as [[Hr _] _].
    rewrite forallb_app, IH, utf8_of_cp_bytes; [reflexivity|lia].
Qed.

Lemma utf8_roundtrip (s : jsstring) :
  wf_utf16 s = true -> utf8_decode (utf8_encode s) = s.
Proof.
  revert s. unfold utf8_decode. apply wf_utf16_ind.
  - reflexivity.
  - intros c t Hh Hl Hr _ IH. simpl utf8_encode. rewrite Hh, Hl.
    destruct (bmp_scalar c Hh Hl Hr) as [Hs Hu].
    rewrite utf8_decode_cp by exact Hs.
    cbn [flat_map]. rewrite Hu, IH. reflexivity.
  - intros c d t Hh Hl _ IH. simpl utf8_encode. rewrite Hh, Hl.
    destruct (surrogates_scalar c d Hh Hl) as [Hs Hu].
    rewrite utf8_decode_cp by exact Hs.
    cbn [flat_map]. rewrite Hu, IH. reflexivity.
Qed.

(** ** Base64: the token is the unpadded URL-safe form, and decodes back *)

Lemma list_ind3 {A} (P : list A -> Prop) :
  P [] -> (forall a, P [a]) -> (forall a b, P [a; b]) ->
  (forall a b c t, P t -> P (a :: b :: c :: t)) ->
  forall l, P l.
Proof.
  intros H0 H1 H2 H3. fix IH 1.
  intros [|a [|b [|c t]]];
    [exact H0 | apply H1 | apply H2 | apply H3; apply IH].
Qed.

Lemma base64_encode_form (bs : buffer) :
  base64_encode bs = map b64_char (sextets_of bs) ++ repeat 61 (b64_padding bs).
Proof.
  induction bs as [|a|a b|a b c t IH] using list_ind3; try reflexivity.
  cbn [base64_encode sextets_of map app]. rewrite IH.
  unfold b64_padding. cbn [length].
  replace (S (S (S (length t))) mod 3)%nat with (length t mod 3)%nat.
  - reflexivity.
  - change (S (S (S (length t)))) with (3 + length t)%nat.
    rewrite Nat.add_comm.
    replace (length t + 3)%nat with (length t + 1 * 3)%nat by lia.
    now rewrite Nat.Div0.mod_add.
Qed.

Lemma sextets_of_range (bs : buffer) :
  forallb is_byte bs = true -> forallb is_sextet (sextets_of bs) = true.
Proof.
  forget_server.
  unfold is_byte, is_sextet.
  induction bs as [|a|a b|a b c t IH] using list_ind3;
    cbn [forallb sextets_of]; intros H; zbool;
    repeat (apply andb_true_intro; split); auto;
    try apply Z.leb_le; try apply Z.ltb_lt;
    Z.div_mod_to_equations; lia.
Qed.

Lemma b64_pack_sextets (bs : buffer) :
  forallb is_byte bs = true -> b64_pack (sextets_of bs) = bs.
Proof.
  forget_server.
  unfold is_byte.
  induction bs as [|a|a b|a b c t IH] using list_ind3;
    cbn [forallb sextets_of b64_pack]; intros H; zbool.
  - reflexivity.
  - f_equal. Z.div_mod_to_equations; lia.
  - f_equal; [|f_equal]; Z.div_mod_to_equations; lia.
  - rewrite IH by assumption.
    f_equal; [|f_equal; [|f_equal]]; Z.div_mod_to_equations; lia.
Qed.

Lemma b64_char_not_pad (v : Z) : is_sextet v = true -> b64_char v <> 61.
Proof.
  unfold is_sextet, b64_char. intros H. zbool. split_ifs; lia.
Qed.

Lemma url_char_safe (v : Z) :
  is_sextet v = true -> url_safe (url_char v) = true.
Proof.
  forget_server.
  unfold is_sextet, url_char, url_safe, b64_char. intros H. zbool.
  split_ifs; decide_tests; reflexivity.
Qed.

Lemma url_char_not_pad (v : Z) : is_sextet v = true -> url_char v <> 61.
Proof.
  forget_server.
  unfold is_sextet, url_char, b64_char. intros H. zbool. split_ifs; lia.
Qed.

Lemma unbase64_url_char (v : Z) :
  is_sextet v = true ->
  let c := url_char v in
  let c1 := if c =? 45 then 43 else c in
  let c2 := if c1 =? 95 then 47 else c1 in
  c2 mod 256 = c2 /\ c2 <> 61 /\ unbase64 c2 = Some v.
Proof.
  forget_server.
  unfold is_sextet, url_char, b64_char, unbase64. intros H. zbool.
  cbv zeta. split_ifs; (split; [apply Z.mod_small; lia|]); (split; [lia|]);
    decide_tests; cbn [andb orb]; f_equal; lia.
Qed.

Lemma replace_all_app (c d : Z) (a b : jsstring) :
  replace_all c d (a ++ b) = replace_all c d a ++ replace_all c d b.
Proof. apply map_app. Qed.

Lemma replace_all_repeat (c d x : Z) (k : nat) :
  x <> c -> replace_all c d (repeat x k) = repeat x k.
Proof.
  intros H. unfold replace_all. induction k as [|k IH]; simpl; [reflexivity|].
  rewrite IH. apply Z.eqb_neq in H. now rewrite H.
Qed.

Lemma drop_leading_repeat (c : Z) (k : nat) (l : jsstring) :
  drop_leading c (repeat c k ++ l) = drop_leading c l.
Proof.
  induction k as [|k IH]; simpl; [reflexivity|]. now rewrite Z.eqb_refl.
Qed.

Lemma strip_trailing_eq_padding (xs : jsstring) (k : nat) :
  forallb (fun x => negb (x =? 61)) xs = true ->
  strip_trailing_eq (xs ++ repeat 61 k) = xs.
Proof.
  intros H. unfold strip_trailing_eq.
  rewrite rev_app_distr, rev_repeat, drop_leading_repeat.
  assert (E : drop_leading 61 (rev xs) = rev xs).
  { destruct (rev xs) as [|y ys] eqn:Er; [reflexivity|].
    simpl. assert (Hy : In y xs).
    { apply in_rev. rewrite Er. now left. }
    rewrite forallb_forall in H. apply H in Hy.
    apply negb_true_iff in Hy. now rewrite Hy. }
  rewrite E. apply rev_involutive.
Qed.

(** The token of a buffer: one URL-safe character per six-bit group. *)
Lemma token_form (bs : buffer) :
  forallb is_byte bs = true ->
  strip_trailing_eq (replace_all 47 95 (replace_all 43 45 (base64_encode bs)))
  = map url_char (sextets_of bs).
Proof.
  intros Hb. rewrite base64_encode_form.
  rewrite !replace_all_app, !replace_all_repeat by lia.
  replace (replace_all 47 95 (replace_all 43 45 (map b64_char (sextets_of bs))))
    with (map url_char (sextets_of bs))
    by (unfold replace_all; rewrite !map_map; reflexivity).
  apply strip_trailing_eq_padding.
  rewrite forallb_forall. intros x Hx. apply in_map_iff in Hx as [v [<- Hv]].
  apply negb_true_iff, Z.eqb_neq, url_char_not_pad.
  pose proof (sextets_of_range bs Hb) as Hr.
  rewrite forallb_forall in Hr. now apply Hr.
Qed.

Lemma b64_sextets_token (vs : list Z) (k : nat) :
  forallb is_sextet vs = true ->
  b64_sextets (replace_all 95 47 (replace_all 45 43 (map url_char vs))
                 ++ repeat 61 k) = vs.
Proof.
  induction vs as [|v vs IH]; intros H.
  - simpl. destruct k; reflexivity.
  - cbn [forallb] in H. apply andb_prop in H as [Hv Hvs].
    destruct (unbase64_url_char v Hv) as (Hlow & Hne & Hun).
    cbn [map replace_all app b64_sextets].
    unfold replace_all in IH. cbv zeta in Hlow, Hne, Hun. cbv zeta.
    apply Z.eqb_neq in Hne.
    rewrite Hlow, Hne, Hun, IH by assumption. reflexivity.
Qed.

(** [fromBase64Url] never throws: the count given to [repeat] is 1, 2 or 3. *)
Lemma fromBase64Url_total (b64 : jsstring) :
  exists pad : nat,
    fromBase64Url b64
    = Ok (utf8_decode
            (base64_decode
               (replace_all 95 47 (replace_all 45 43 b64) ++ repeat 61 pad))).
Proof.
  unfold fromBase64Url, str_repeat.
  destruct (str_length b64 mod 4 =? 0).
  - exists 0%nat. reflexivity.
  - assert (H : (4 - str_length b64 mod 4 <? 0) = false).
    { apply Z.ltb_ge. pose proof (Z.mod_pos_bound (str_length b64) 4). lia. }
    rewrite H. eexists. reflexivity.
Qed.

Lemma codec_roundtrip (p : jsstring) :
  wf_utf16 p = true -> fromBase64Url (toBase64Url p) = Ok p.
Proof.
  intros Hwf. pose proof (utf8_encode_bytes p Hwf) as Hb.
  destruct (fromBase64Url_total (toBase64Url p)) as [k ->].
  unfold toBase64Url. rewrite token_form by exact Hb.
  unfold base64_decode.
  rewrite b64_sextets_token by (now apply sextets_of_range).
  rewrite b64_pack_sextets by exact Hb.
  now rewrite utf8_roundtrip.
Qed.

(** ** Numbers: rounding is exact below 2^53 and monotone above *)

Lemma round53_small (n : Z) : 0 <= n < 2 ^ 53 -> round53 n = n.
Proof.
  intros H. unfold round53.
  assert (Hk : Z.log2 n - 52 <= 0).
  { destruct (Z.eq_dec n 0) as [->|Hn]; [simpl; lia|].
    assert (Z.log2 n < 53) by (apply Z.log2_lt_pow2; lia). lia. }
  apply Z.leb_le in Hk. now rewrite Hk.
Qed.

Lemma round53_large (n : Z) : 2 ^ 53 <= n -> 2 ^ 53 <= round53 n.
Proof.
  intros H. unfold round53.
  assert (Hl : 53 <= Z.log2 n).
  { change 53 with (Z.log2 (2 ^ 53)). now apply Z.log2_le_mono. }
  destruct (Z.log2 n - 52 <=? 0) eqn:Ek; [exact H|].
  apply Z.leb_gt in Ek. set (k := Z.log2 n - 52) in *.
  assert (Hp : 2 ^ (k + 52) <= n).
  { unfold k. replace (Z.log2 n - 52 + 52) with (Z.log2 n) by lia.
    apply Z.log2_spec. lia. }
  assert (Hk2 : 2 <= 2 ^ k).
  { change 2 with (2 ^ 1) at 1. apply Z.pow_le_mono_r; lia. }
  assert (Hq : 2 ^ 52 <= n / 2 ^ k).
  { apply Z.div_le_lower_bound; [lia|].
    rewrite Z.pow_add_r in Hp by lia. lia. }
  assert (Hr : forall q', n / 2 ^ k <= q' -> 2 ^ 53 <= q' * 2 ^ k).
  { intros q' Hq'. change (2 ^ 53) with (2 ^ 52 * 2). nia. }
  repeat match goal with
         | |- context [if ?b then _ else _] => destruct b
         end; apply Hr; lia.
Qed.

Lemma round53_nonneg (n : Z) : 0 <= n -> 0 <= round53 n.
Proof.
  intros H. destruct (Z_lt_ge_dec n (2 ^ 53)).
  - rewrite round53_small; lia.
  - pose proof (round53_large n). lia.
Qed.

Lemma to_double_small (z : Z) : Z.abs z < 2 ^ 53 -> to_double z = Fin z.
Proof.
  intros H. unfold to_double. rewrite round53_small by lia.
  assert (E : (2 ^ 1024 <=? Z.abs z) = false).
  { apply Z.leb_gt. eapply Z.lt_trans; [exact H|]. reflexivity. }
  rewrite E. f_equal. lia.
Qed.


Lemma to_double_large (z : Z) : 2 ^ 53 <= z -> num_huge (to_double z).
Proof.
  intros H. unfold to_double, num_huge.
  assert (Hz : 0 < z) by (assert (0 < 2 ^ 53) by reflexivity; lia).
  pose proof (round53_large (Z.abs z)) as Hr.
  rewrite Z.abs_eq in * by lia. specialize (Hr H).
  destruct (2 ^ 1024 <=? round53 z).
  - left. assert (E : (z <? 0) = false) by (apply Z.ltb_ge; lia).
    now rewrite E.
  - right. exists (round53 z). split; [|exact Hr]. f_equal.
    rewrite Z.sgn_pos by lia. lia.
Qed.

Lemma to_double_negative (z : Z) : z < 0 -> num_nonpos (to_double z).
Proof.
  intros H. unfold to_double, num_nonpos.
  pose proof (round53_nonneg (Z.abs z) (Z.abs_nonneg z)) as Hr.
  destruct (2 ^ 1024 <=? round53 (Z.abs z)).
  - left. apply Z.ltb_lt in H. now rewrite H.
  - right. eexists. split; [reflexivity|]. rewrite Z.sgn_neg by lia. lia.
Qed.

(** A non-negative integer read as a Number is itself or huge. *)
Lemma to_double_nonneg (z : Z) :
  0 <= z ->
  (z < 2 ^ 53 /\ to_double z = Fin z) \/ (2 ^ 53 <= z /\ num_huge (to_double z)).
Proof.
  intros H. destruct (Z_lt_ge_dec z (2 ^ 53)).
  - left. split; [assumption|]. apply to_double_small. lia.
  - right. split; [lia|]. apply to_double_large. lia.
Qed.

(** ** The Range pattern *)

Lemma strip_prefix_app (p s : jsstring) : strip_prefix p (p ++ s) = Some s.
Proof.
  induction p as [|x p IH]; simpl; [reflexivity|]. now rewrite Z.eqb_refl.
Qed.

Lemma strip_prefix_some (p s r : jsstring) :
  strip_prefix p s = Some r -> s = p ++ r.
Proof.
  revert s. induction p as [|x p IH]; intros s H; simpl in *.
  - congruence.
  - destruct s as [|y s]; [discriminate|].
    destruct (x =? y) eqn:E; [|discriminate].
    apply Z.eqb_eq in E. subst y. f_equal. now apply IH.
Qed.


Lemma span_digits_app (d rest : jsstring) :
  all_digits d = true -> starts_with_digit rest = false ->
  span_digits (d ++ rest) = (d, rest).
Proof.
  intros Hd Hr. unfold all_digits in *.
  induction d as [|c d IH]; cbn [app span_digits forallb] in *.
  - destruct rest as [|x rest]; [reflexivity|].
    cbn [span_digits starts_with_digit] in *. now rewrite Hr.
  - apply andb_prop in Hd as [Hc Hd]. rewrite Hc, IH by assumption.
    reflexivity.
Qed.

Lemma span_digits_spec (s : jsstring) :
  all_digits (fst (span_digits s)) = true
  /\ s = fst (span_digits s) ++ snd (span_digits s).
Proof.
  unfold all_digits.
  induction s as [|c s [IH1 IH2]]; cbn [span_digits]; [split; reflexivity|].
  destruct (is_digit c) eqn:E; [|split; reflexivity].
  destruct (span_digits s) as [d r]. cbn [fst snd forallb app] in *.
  rewrite E, IH1. split; [reflexivity|]. now f_equal.
Qed.

Lemma range_match_here_header (d1 d2 post : jsstring) :
  all_digits d1 = true -> all_digits d2 = true ->
  starts_with_digit post = false ->
  range_match_here (header_of d1 d2 ++ post) = Some (d1, d2).
Proof.
  intros H1 H2 Hp. unfold range_match_here, header_of.
  rewrite <- !app_assoc, strip_prefix_app.
  rewrite (span_digits_app d1 ((45 :: d2) ++ post)) by auto.
  cbn [app]. now rewrite span_digits_app.
Qed.

Lemma range_search_here (s : jsstring) (m : jsstring * jsstring) :
  range_match_here s = Some m -> range_search s = Some m.
Proof. intros H. destruct s; cbn [range_search]; now rewrite H. Qed.

Lemma range_match_here_sound (s d1 d2 : jsstring) :
  range_match_here s = Some (d1, d2) ->
  all_digits d1 = true /\ all_digits d2 = true
  /\ exists post, s = header_of d1 d2 ++ post.
Proof.
  unfold range_match_here. intros H.
  destruct (strip_prefix (js "bytes=") s) as [r|] eqn:Ep; [|discriminate].
  apply strip_prefix_some in Ep.
  destruct (span_digits_spec r) as [Hd1 Hr].
  destruct (span_digits r) as [e1 r1]. simpl in Hd1, Hr.
  destruct r1 as [|c r2]; [discriminate|].
  destruct (c =? 45) eqn:Ec.
  - apply Z.eqb_eq in Ec. subst c.
    injection H as <- <-.
    destruct (span_digits_spec r2) as [Hd2 Hr2].
    split; [exact Hd1|]. split; [exact Hd2|].
    exists (snd (span_digits r2)). unfold header_of.
    rewrite Ep, Hr, Hr2 at 1. rewrite <- !app_assoc. reflexivity.
  - exfalso. apply Z.eqb_neq in Ec.
    destruct c as [|p|p]; try discriminate.
    do 6 (destruct p as [p|p|]; try discriminate). lia.
Qed.

Lemma range_search_sound (h d1 d2 : jsstring) :
  range_search h = Some (d1, d2) ->
  all_digits d1 = true /\ all_digits d2 = true
  /\ exists pre post, h = pre ++ header_of d1 d2 ++ post.
Proof.
  induction h as [|c h IH]; cbn [range_search].
  - discriminate.
  - destruct (range_match_here (c :: h)) as [[e1 e2]|] eqn:E.
    + intros H. injection H as <- <-.
      apply range_match_here_sound in E as (H1 & H2 & post & E).
      split; [exact H1|]. split; [exact H2|]. exists [], post. exact E.
    + intros H. apply IH in H as (H1 & H2 & pre & post & E').
      split; [exact H1|]. split; [exact H2|].
      exists (c :: pre), post. simpl. now f_equal.
Qed.

Lemma range_match_here_complete (d1 d2 post : jsstring) :
  all_digits d1 = true ->
  range_match_here (header_of d1 d2 ++ post) <> None.
Proof.
  intros H1. unfold range_match_here, header_of.
  rewrite <- !app_assoc, strip_prefix_app.
  rewrite (span_digits_app d1 ((45 :: d2) ++ post)) by auto.
  cbn [app]. discriminate.
Qed.

Lemma range_search_complete (h : jsstring) :
  contains_range_pattern h -> range_search h <> None.
Proof.
  intros (pre & d1 & d2 & post & H1 & _ & ->).
  induction pre as [|c pre IH].
  - pose proof (range_match_here_complete d1 d2 post H1) as Hm.
    cbn [app].
    destruct (range_match_here (header_of d1 d2 ++ post)) as [m|] eqn:E;
      [|contradiction].
    rewrite (range_search_here _ _ E). discriminate.
  - cbn [app range_search].
    destruct (range_match_here (c :: pre ++ header_of d1 d2 ++ post));
      [discriminate|exact IH].
Qed.

Lemma range_search_none_iff (h : jsstring) :
  range_search h = None <-> ~ contains_range_pattern h.
Proof.
  split.
  - intros H C. now apply range_search_complete in C.
  - intros H. destruct (range_search h) as [[d1 d2]|] eqn:E; [|reflexivity].
    exfalso. apply H. apply range_search_sound in E as (H1 & H2 & pre & post & E).
    exists pre, d1, d2, post. auto.
Qed.

(** ** The resolver against the window of the specification *)

Lemma digits_value_nonneg (d : jsstring) (acc : Z) :
  0 <= acc -> 0 <= digits_value acc d.
Proof.
  revert acc. induction d as [|c d IH]; intros acc H; simpl; [exact H|].
  destruct (is_digit c) eqn:E; [|exact H].
  apply IH. unfold is_digit in E. zbool. lia.
Qed.

Lemma parseInt10_digits (c : Z) (d : jsstring) :
  all_digits (c :: d) = true ->
  parseInt10 (c :: d) = to_double (digits_value 0 (c :: d))
  /\ 0 <= digits_value 0 (c :: d).
Proof.
  intros H. split.
  - unfold parseInt10. unfold all_digits in H. cbn [forallb] in H.
    apply andb_prop in H as [-> _]. reflexivity.
  - apply digits_value_nonneg. lia.
Qed.

Lemma validate_exact (size s e : Z) :
  validate_window (Fin size) (Fin s) (Fin e)
  = if (s <? 0) || (size <=? e) || (e <? s) then Unsatisfiable
    else Window (Fin s) (Fin e).
Proof.
  unfold validate_window, num_lt, num_ge, num_gt, num_lt.
  now rewrite (Z.leb_antisym e size).
Qed.

Lemma validate_huge_start (size e : Z) (a : number) :
  num_huge a -> e < 2 ^ 53 ->
  validate_window (Fin size) a (Fin e) = Unsatisfiable.
Proof.
  intros [->|(m & -> & Hm)] He; unfold validate_window.
  - cbn. now rewrite orb_true_r.
  - replace (num_gt (Fin m) (Fin e)) with true; [now rewrite orb_true_r|].
    symmetry. apply Z.ltb_lt. lia.
Qed.

Lemma validate_huge_end (size : Z) (a b : number) :
  num_huge b -> size < 2 ^ 53 ->
  validate_window (Fin size) a b = Unsatisfiable.
Proof.
  intros [->|(m & -> & Hm)] Hs; unfold validate_window.
  - replace (num_ge PosInf (Fin size)) with true by reflexivity.
    now rewrite orb_true_r.
  - replace (num_ge (Fin m) (Fin size)) with true;
      [now rewrite orb_true_r|].
    symmetry. cbn. apply negb_true_iff, Z.ltb_ge. lia.
Qed.

Lemma size_minus_one (size : Z) :
  safe_size size -> num_sub (Fin size) (Fin 1) = Fin (size - 1).
Proof.
  intros H. unfold safe_size in H. cbn [num_sub num_neg num_add].
  rewrite to_double_small by lia. f_equal; lia.
Qed.

(** The start of a suffix range: [Math.max(fileSize - suffix, 0)]. *)
Lemma suffix_start (size n : Z) (a : number) :
  safe_size size -> 0 <= n ->
  (n < 2 ^ 53 /\ a = Fin n) \/ (2 ^ 53 <= n /\ num_huge a) ->
  Math_max (num_sub (Fin size) a) (Fin 0) = Fin (Z.max (size - n) 0).
Proof.
  unfold safe_size. intros Hs Hn [[Hlt ->]|[Hge [->|(m & -> & Hm)]]].
  - cbn [num_sub num_neg num_add]. rewrite to_double_small by lia.
    unfold Math_max, num_lt.
    destruct (size + - n <? 0) eqn:E; zbool; f_equal; lia.
  - cbn. f_equal. lia.
  - cbn [num_sub num_neg num_add].
    destruct (to_double_negative (size + - m)) as [->|(k & -> & Hk)]; [lia| |].
    + cbn. f_equal. lia.
    + unfold Math_max, num_lt.
      destruct (k <? 0) eqn:E; zbool; f_equal; lia.
Qed.

Lemma suffix_nonzero (n : Z) (a : number) :
  0 <= n ->
  (n < 2 ^ 53 /\ a = Fin n) \/ (2 ^ 53 <= n /\ num_huge a) ->
  num_eq a (Fin 0) = (n =? 0).
Proof.
  intros Hn [[Hlt ->]|[Hge [->|(m & -> & Hm)]]]; cbn [num_eq].
  - reflexivity.
  - symmetry. apply Z.eqb_neq. assert (0 < 2 ^ 53) by reflexivity. lia.
  - assert (0 < 2 ^ 53) by reflexivity.
    replace (m =? 0) with false by (symmetry; apply Z.eqb_neq; lia).
    symmetry. apply Z.eqb_neq. lia.
Qed.

Lemma header_of_cons (d1 d2 : jsstring) :
  header_of d1 d2 = 98 :: (js "ytes=" ++ d1 ++ 45 :: d2).
Proof. reflexivity. Qed.

Lemma resolve_header (d1 d2 post : jsstring) (fileSize : number) :
  all_digits d1 = true -> all_digits d2 = true ->
  starts_with_digit post = false ->
  resolve_range (Some (header_of d1 d2 ++ post)) fileSize
  = let start := if truthy d1 then Some (parseInt10 d1) else None in
    let end_ := if truthy d2 then Some (parseInt10 d2) else None in
    match start, end_ with
    | None, None => Unsatisfiable
    | Some start, None =>
      validate_window fileSize start (num_sub fileSize (Fin 1))
    | None, Some suffix =>
      if num_eq suffix (Fin 0) then Unsatisfiable
      else validate_window fileSize
             (Math_max (num_sub fileSize suffix) (Fin 0))
             (num_sub fileSize (Fin 1))
    | Some start, Some end_ => validate_window fileSize start end_
    end.
Proof.
  intros H1 H2 Hp.
  pose proof (range_search_here _ _ (range_match_here_header d1 d2 post H1 H2 Hp))
    as Hs.
  rewrite header_of_cons in *. cbn [app] in *.
  unfold resolve_range. rewrite Hs. reflexivity.
Qed.

Lemma resolve_range_spec (d1 d2 : jsstring) (size : Z) :
  all_digits d1 = true -> all_digits d2 = true -> safe_size size ->
  resolve_range (Some (header_of d1 d2)) (Fin size)
  = spec_resolve (field_value d1) (field_value d2) size.
Proof.
  intros H1 H2 Hs.
  rewrite <- (app_nil_r (header_of d1 d2)).
  rewrite resolve_header by auto.
  pose proof Hs as [Hs0 Hs1]. unfold spec_resolve, spec_window.
  destruct d1 as [|c1 d1], d2 as [|c2 d2]; cbn [truthy field_value]; cbv zeta.
  - reflexivity.
  - destruct (parseInt10_digits c2 d2 H2) as [-> Hv].
    pose proof (to_double_nonneg _ Hv) as Hc.
    rewrite (suffix_nonzero _ _ Hv Hc).
    destruct (digits_value 0 (c2 :: d2) =? 0); [reflexivity|].
    rewrite (suffix_start _ _ _ Hs Hv Hc), size_minus_one by exact Hs.
    apply validate_exact.
  - destruct (parseInt10_digits c1 d1 H1) as [-> Hv].
    rewrite size_minus_one by exact Hs.
    destruct (to_double_nonneg _ Hv) as [[Hlt ->]|[Hge Hh]].
    + apply validate_exact.
    + rewrite validate_huge_start by (auto; lia).
      replace (size - 1 <? digits_value 0 (c1 :: d1)) with true
        by (symmetry; apply Z.ltb_lt; lia).
      now rewrite orb_true_r.
  - destruct (parseInt10_digits c1 d1 H1) as [-> Hv1].
    destruct (parseInt10_digits c2 d2 H2) as [-> Hv2].
    destruct (to_double_nonneg _ Hv2) as [[Hlt2 ->]|[Hge2 Hh2]].
    + destruct (to_double_nonneg _ Hv1) as [[Hlt1 ->]|[Hge1 Hh1]].
      * apply validate_exact.
      * rewrite validate_huge_start by (auto; lia).
        replace (digits_value 0 (c2 :: d2) <? digits_value 0 (c1 :: d1))
          with true by (symmetry; apply Z.ltb_lt; lia).
        now rewrite orb_true_r.
    + rewrite validate_huge_end by (auto; lia).
      replace (size <=? digits_value 0 (c2 :: d2)) with true
        by (symmetry; apply Z.leb_le; lia).
      now rewrite orb_true_r.
Qed.

(** ** The handler is the responder applied to the resolver *)

Lemma stream_handler_factored (id : jsstring) (range : option jsstring) :
  stream_handler id range =
  match fromBase64Url id with
  | Throw _ => ret (json_error 400 msg_invalid_id)
  | Ok fileName =>
    let absPath := path_join MEDIA_DIR fileName in
    found <- fs_existsSync absPath;;
    if negb found then ret (json_error 404 msg_not_found)
    else
      stat <- fs_statSync absPath;;
      respond absPath (mime_or_default absPath) (st_size stat)
        (resolve_range range (st_size stat))
  end.
Proof.
  unfold stream_handler.
  destruct (fromBase64Url id) as [fileName|e]; [|reflexivity].
  cbn [lift ret attempt bind app]. cbv zeta.
  unfold fs_existsSync, fs_statSync, fsp_stat, fs_resolve. cbn [bind].
  destruct (fs_lookup fs (path_join MEDIA_DIR fileName)) as [n|code];
    cbn [found]; [|reflexivity].
  cbn [negb bind]. unfold resolve_range, respond, validate_window.
  destruct range as [[|c r]|]; try reflexivity.
  destruct (range_search (c :: r)) as [[m1 m2]|]; [|reflexivity].
  destruct (truthy m1), (truthy m2); try reflexivity;
    repeat match goal with
           | |- context [if ?b then _ else _] => destruct b; try reflexivity
           end.
Qed.

(** What the handler does once the identifier is decoded and the path it
    names is found. *)
Lemma stream_handler_found (id name : jsstring) (range : option jsstring)
      (n : node) :
  fromBase64Url id = Ok name ->
  fs_resolve fs (path_join MEDIA_DIR name) = Some n ->
  run (stream_handler id range)
  = run (respond (path_join MEDIA_DIR name)
           (mime_or_default (path_join MEDIA_DIR name))
           (st_size (stats_of n))
           (resolve_range range (st_size (stats_of n)))).
Proof.
  intros Hid Hn. rewrite stream_handler_factored, Hid. cbv zeta.
  unfold fs_existsSync, fs_statSync, fsp_stat. rewrite Hn.
  unfold fs_resolve in Hn.
  destruct (fs_lookup fs (path_join MEDIA_DIR name)) as [n'|code];
    cbn [found] in Hn; [injection Hn as ->|discriminate].
  cbn [bind negb].
  destruct (respond _ _ _ _) as [t r].
  destruct r; reflexivity.
Qed.

Lemma to_double_not_nan (z : Z) : to_double z <> NaN.
Proof.
  unfold to_double. destruct (2 ^ 1024 <=? _); [destruct (z <? 0)|];
    discriminate.
Qed.

Lemma validate_window_inv (size : Z) (a b a' b' : number) :
  a <> NaN -> b <> NaN ->
  validate_window (Fin size) a b = Window a' b' ->
  exists s e, a' = Fin s /\ b' = Fin e /\ 0 <= s <= e /\ e < size.
Proof.
  unfold validate_window. intros Ha Hb H.
  destruct a as [s| | |], b as [e| | |]; try congruence;
    cbn in H;
    repeat match type of H with
           | context [if ?c then _ else _] =>
             let E := fresh "E" in destruct c eqn:E
           end;
    try discriminate; zbool; try discriminate.
  injection H as <- <-. exists s, e. repeat split; lia.
Qed.

Lemma parsed_not_nan (d : jsstring) :
  all_digits d = true -> truthy d = true -> parseInt10 d <> NaN.
Proof.
  intros Hd Ht. destruct d as [|c d]; [discriminate|].
  destruct (parseInt10_digits c d Hd) as [-> _]. apply to_double_not_nan.
Qed.

Lemma suffix_start_not_nan (size : Z) (a : number) :
  a <> NaN -> Math_max (num_sub (Fin size) a) (Fin 0) <> NaN.
Proof.
  intros Ha. destruct a as [m| | |]; try congruence; try discriminate.
  cbn [num_sub num_neg num_add]. pose proof (to_double_not_nan (size + - m)).
  destruct (to_double (size + - m)); try congruence; cbn;
    try discriminate.
  destruct (z <? 0); discriminate.
Qed.

(** Every window the resolver returns lies inside the file. *)
Lemma resolve_range_window (range : option jsstring) (size : Z)
      (a b : number) :
  resolve_range range (Fin size) = Window a b ->
  exists s e, a = Fin s /\ b = Fin e /\ 0 <= s <= e /\ e < size.
Proof.
  unfold resolve_range.
  destruct range as [[|c r]|]; try discriminate.
  destruct (range_search (c :: r)) as [[m1 m2]|] eqn:Es; [|discriminate].
  apply range_search_sound in Es as (H1 & H2 & _).
  pose proof (to_double_not_nan (size + - 1)) as Hend.
  destruct (truthy m1) eqn:T1, (truthy m2) eqn:T2; try discriminate.
  - apply validate_window_inv; now apply parsed_not_nan.
  - apply validate_window_inv; [now apply parsed_not_nan|exact Hend].
  - destruct (num_eq (parseInt10 m2) (Fin 0)); [discriminate|].
    apply validate_window_inv; [|exact Hend].
    apply suffix_start_not_nan. now apply parsed_not_nan.
Qed.

Lemma byte_range_length (content : buffer) (s e : Z) :
  0 <= s <= e -> e < Z.of_nat (length content) ->
  Z.of_nat (length (byte_range content s e)) = e - s + 1.
Proof.
  intros H1 H2. unfold byte_range. rewrite length_firstn, length_skipn. lia.
Qed.

(** ** Paths: splitting, joining and normalising *)


Lemma split_slash_nonempty (s : jsstring) : split_slash s <> [].
Proof.
  induction s as [|c s IH]; simpl; [discriminate|].
  destruct (c =? 47); [discriminate|].
  destruct (split_slash s); [contradiction|discriminate].
Qed.

Lemma split_slash_no_slash (s : jsstring) :
  no_slash s = true -> split_slash s = [s].
Proof.
  unfold no_slash. induction s as [|c s IH]; simpl; intros H; [reflexivity|].
  apply andb_prop in H as [Hc Hs]. apply negb_true_iff in Hc.
  now rewrite Hc, IH.
Qed.

Lemma split_slash_app (a b : jsstring) :
  split_slash (a ++ 47 :: b) = split_slash a ++ split_slash b.
Proof.
  induction a as [|c a IH]; simpl; [reflexivity|].
  destruct (c =? 47); [now rewrite IH|].
  rewrite IH. pose proof (split_slash_nonempty a).
  destruct (split_slash a); [contradiction|reflexivity].
Qed.

Lemma split_slash_parts (s : jsstring) :
  forallb no_slash (split_slash s) = true.
Proof.
  induction s as [|c s IH]; simpl; [reflexivity|].
  destruct (c =? 47) eqn:E; [simpl; exact IH|].
  destruct (split_slash s) as [|seg rest]; simpl in *.
  - now rewrite E.
  - apply andb_prop in IH as [H1 H2].
    unfold no_slash at 1. simpl. rewrite E. simpl.
    fold (no_slash seg). now rewrite H1, H2.
Qed.

Lemma valid_seg_inv (s : jsstring) :
  valid_seg s = true ->
  (exists c t, s = c :: t) /\ no_slash s = true
  /\ zeqb_list s dot = false /\ zeqb_list s dotdot = false.
Proof.
  unfold valid_seg. intros H.
  apply andb_prop in H as [H Hdd]. apply andb_prop in H as [H Hd].
  apply andb_prop in H as [Ht Hs].
  apply negb_true_iff in Hd, Hdd.
  repeat split; auto. destruct s as [|c t]; [discriminate|eauto].
Qed.

Lemma split_join (segs : list jsstring) :
  forallb valid_seg segs = true -> segs <> [] ->
  split_slash (join_slash segs) = segs.
Proof.
  induction segs as [|s segs IH]; intros H Hne; [now elim Hne|].
  simpl in H. apply andb_prop in H as [Hs Hr].
  destruct (valid_seg_inv s Hs) as (_ & Hns & _).
  destruct segs as [|s2 segs].
  - simpl. now apply split_slash_no_slash.
  - change (join_slash (s :: s2 :: segs))
      with (s ++ 47 :: join_slash (s2 :: segs)).
    rewrite split_slash_app, split_slash_no_slash by exact Hns.
    rewrite IH by (auto; nonnil). reflexivity.
Qed.

Lemma norm_segs_valid_step (b : bool) (stack rest : list jsstring)
      (seg : jsstring) :
  valid_seg seg = true ->
  norm_segs b stack (seg :: rest) = norm_segs b (seg :: stack) rest.
Proof.
  intros H. destruct (valid_seg_inv seg H) as ((c & t & ->) & _ & Hd & Hdd).
  cbn [norm_segs]. now rewrite Hd, Hdd.
Qed.

Lemma norm_segs_valid_app (b : bool) (stack segs rest : list jsstring) :
  forallb valid_seg segs = true ->
  norm_segs b stack (segs ++ rest) = norm_segs b (rev segs ++ stack) rest.
Proof.
  revert stack. induction segs as [|s segs IH]; intros stack H;
    [reflexivity|].
  simpl in H. apply andb_prop in H as [Hs Hr].
  cbn [app]. rewrite norm_segs_valid_step by exact Hs.
  rewrite IH by exact Hr. cbn [rev]. now rewrite <- app_assoc.
Qed.

Lemma norm_segs_valid (b : bool) (segs : list jsstring) :
  forallb valid_seg segs = true -> norm_segs b [] segs = segs.
Proof.
  intros H. rewrite <- (app_nil_r segs) at 1.
  rewrite norm_segs_valid_app by exact H.
  cbn [norm_segs]. rewrite app_nil_r. apply rev_involutive.
Qed.

(** The segments of a joined list of valid segments, as [split_slash] sees
    them, normalise to the list itself. *)
Lemma norm_segs_split_join (stack segs rest : list jsstring) :
  forallb valid_seg segs = true ->
  norm_segs false stack (split_slash (join_slash segs) ++ rest)
  = norm_segs false (rev segs ++ stack) rest.
Proof.
  intros H. destruct segs as [|s segs].
  - reflexivity.
  - rewrite split_join by (auto; nonnil).
    now apply norm_segs_valid_app.
Qed.

Lemma forallb_rev {A} (f : A -> bool) (l : list A) :
  forallb f (rev l) = forallb f l.
Proof.
  induction l as [|x l IH]; [reflexivity|].
  simpl. rewrite forallb_app, IH. simpl. rewrite andb_true_r.
  apply andb_comm.
Qed.

(** Normalising an absolute path leaves valid segments only. *)
Lemma norm_segs_output_valid (stack segs : list jsstring) :
  forallb no_slash segs = true -> forallb valid_seg stack = true ->
  forallb valid_seg (norm_segs false stack segs) = true.
Proof.
  revert stack. induction segs as [|seg segs IH]; intros stack Hs Hst.
  - cbn [norm_segs]. now rewrite forallb_rev.
  - cbn [forallb] in Hs. apply andb_prop in Hs as [Hseg Hs].
    cbn [norm_segs]. destruct seg as [|c t]; [now apply IH|].
    destruct (zeqb_list (c :: t) dot) eqn:Ed; [now apply IH|].
    destruct (zeqb_list (c :: t) dotdot) eqn:Edd.
    + destruct stack as [|top stack']; [now apply IH|].
      cbn [forallb] in Hst. apply andb_prop in Hst as [Htop Hst].
      destruct (valid_seg_inv top Htop) as (_ & _ & _ & Hne).
      rewrite Hne. now apply IH.
    + apply IH; [exact Hs|]. cbn [forallb]. rewrite Hst, andb_true_r.
      unfold valid_seg. rewrite Hseg, Ed, Edd. reflexivity.
Qed.

Lemma root_segs_valid : forallb valid_seg root_segs = true.
Proof.
  unfold root_segs, resolve_segs.
  apply norm_segs_output_valid; [apply split_slash_parts|reflexivity].
Qed.

Lemma MEDIA_DIR_segs : MEDIA_DIR = abs_path root_segs.
Proof. reflexivity. Qed.

Lemma resolve_segs_abs (segs : list jsstring) :
  forallb valid_seg segs = true -> resolve_segs cwd (abs_path segs) = segs.
Proof.
  intros H. unfold resolve_segs, abs_path. cbn [is_absolute split_slash].
  rewrite Z.eqb_refl. cbn [norm_segs].
  rewrite <- (app_nil_r (split_slash (join_slash segs))).
  rewrite norm_segs_split_join by exact H.
  cbn [norm_segs]. rewrite app_nil_r. apply rev_involutive.
Qed.

Lemma join_slash_cons (s : jsstring) (segs : list jsstring) :
  segs <> [] -> join_slash (s :: segs) = s ++ 47 :: join_slash segs.
Proof. intros H. destruct segs; [now elim H|reflexivity]. Qed.

Lemma join_slash_snoc (segs : list jsstring) (name : jsstring) :
  segs <> [] -> join_slash (segs ++ [name]) = join_slash segs ++ 47 :: name.
Proof.
  induction segs as [|s segs IH]; intros Hne; [now elim Hne|].
  destruct segs as [|s2 segs]; [reflexivity|].
  change ((s :: s2 :: segs) ++ [name]) with (s :: ((s2 :: segs) ++ [name])).
  rewrite join_slash_cons by nonnil.
  rewrite IH by nonnil.
  rewrite (join_slash_cons s (s2 :: segs)) by nonnil.
  now rewrite <- app_assoc.
Qed.

Lemma join_slash_app (a b : list jsstring) :
  a <> [] -> b <> [] ->
  join_slash (a ++ b) = join_slash a ++ 47 :: join_slash b.
Proof.
  induction a as [|s a IH]; intros Ha Hb; [now elim Ha|].
  destruct a as [|s2 a].
  - cbn [app]. now rewrite join_slash_cons.
  - change ((s :: s2 :: a) ++ b) with (s :: ((s2 :: a) ++ b)).
    rewrite join_slash_cons by nonnil.
    rewrite IH by (auto; nonnil).
    rewrite (join_slash_cons s (s2 :: a)) by nonnil.
    now rewrite <- app_assoc.
Qed.

Lemma join_slash_valid_cons (segs : list jsstring) :
  forallb valid_seg segs = true -> segs <> [] ->
  exists c t, join_slash segs = c :: t.
Proof.
  intros H Hne. destruct segs as [|s segs]; [now elim Hne|].
  simpl in H. apply andb_prop in H as [Hs _].
  destruct (valid_seg_inv s Hs) as ((c & t & ->) & _).
  destruct segs; simpl; eauto.
Qed.

Lemma ends_with_slash_seg (pre seg : jsstring) :
  valid_seg seg = true -> ends_with_slash (pre ++ seg) = false.
Proof.
  intros H. destruct (valid_seg_inv seg H) as ((c & t & E) & Hns & _).
  assert (Hl : exists t' z, seg = t' ++ [z]).
  { subst seg. destruct (exists_last (l := c :: t)) as (t' & z & E');
      [discriminate|eauto]. }
  destruct Hl as (t' & z & ->).
  unfold ends_with_slash. rewrite app_assoc, rev_app_distr. cbn [rev app].
  unfold no_slash in Hns. rewrite forallb_app in Hns.
  apply andb_prop in Hns as [_ Hz]. cbn in Hz. rewrite andb_true_r in Hz.
  apply negb_true_iff, Z.eqb_neq in Hz.
  destruct z as [|q|q]; try reflexivity.
  do 6 (destruct q as [q|q|]; try reflexivity). contradiction.
Qed.

Lemma ends_with_slash_join (pre : jsstring) (segs : list jsstring) :
  forallb valid_seg segs = true -> segs <> [] ->
  ends_with_slash (pre ++ join_slash segs) = false.
Proof.
  revert pre. induction segs as [|s segs IH]; intros pre H Hne;
    [now elim Hne|].
  simpl in H. apply andb_prop in H as [Hs Hr].
  destruct segs as [|s2 segs].
  - now apply ends_with_slash_seg.
  - rewrite join_slash_cons by nonnil.
    replace (pre ++ s ++ 47 :: join_slash (s2 :: segs))
      with ((pre ++ s ++ [47]) ++ join_slash (s2 :: segs))
      by (now rewrite <- !app_assoc).
    apply IH; [exact Hr|nonnil].
Qed.

Lemma path_normalize_abs (q : jsstring) :
  path_normalize (47 :: q)
  = match join_slash (norm_segs false [] (split_slash q)) with
    | [] => [47]
    | c :: r =>
      47 :: (c :: r) ++ (if ends_with_slash (47 :: q) then [47] else [])
    end.
Proof.
  unfold path_normalize. cbn [is_absolute negb split_slash].
  rewrite Z.eqb_refl. cbn [norm_segs].
  destruct (join_slash (norm_segs false [] (split_slash q))); reflexivity.
Qed.

(** Joining the root with a relative path of valid segments appends them. *)
Lemma path_join_below (root sub : list jsstring) :
  forallb valid_seg root = true -> forallb valid_seg sub = true ->
  sub <> [] ->
  path_join (abs_path root) (join_slash sub) = abs_path (root ++ sub).
Proof.
  intros Hr Hs Hne.
  destruct (join_slash_valid_cons sub Hs Hne) as (c & t & Ej).
  assert (Ejoin : path_join (abs_path root) (join_slash sub)
                  = path_normalize (47 :: (join_slash root ++ 47 :: join_slash sub))).
  { unfold path_join, abs_path. rewrite Ej. reflexivity. }
  rewrite Ejoin, path_normalize_abs.
  assert (Ee : ends_with_slash (47 :: join_slash root ++ 47 :: join_slash sub)
               = false).
  { replace (47 :: join_slash root ++ 47 :: join_slash sub)
      with ((47 :: join_slash root ++ [47]) ++ join_slash sub)
      by (cbn [app]; now rewrite <- app_assoc).
    now apply ends_with_slash_join. }
  rewrite Ee, split_slash_app.
  rewrite norm_segs_split_join by exact Hr.
  rewrite split_join by assumption.
  rewrite <- (app_nil_r sub) at 1.
  rewrite norm_segs_valid_app by exact Hs. cbn [norm_segs].
  rewrite !app_nil_r, rev_app_distr, !rev_involutive.
  assert (Hv : forallb valid_seg (root ++ sub) = true)
    by (rewrite forallb_app, Hr, Hs; reflexivity).
  destruct (join_slash_valid_cons (root ++ sub) Hv) as (c' & t' & Ej').
  { destruct root; [exact Hne|nonnil]. }
  unfold abs_path. rewrite Ej'. now rewrite app_nil_r.
Qed.

Lemma strip_common_prefix (a b : list jsstring) :
  strip_common a (a ++ b) = ([], b).
Proof.
  induction a as [|x a IH]; [destruct b; reflexivity|].
  cbn [app strip_common]. now rewrite zeqb_list_refl.
Qed.

Lemma path_relative_below (sub : list jsstring) :
  forallb valid_seg sub = true ->
  path_relative cwd MEDIA_DIR (abs_path (root_segs ++ sub)) = join_slash sub.
Proof.
  intros Hs. unfold path_relative. rewrite MEDIA_DIR_segs.
  rewrite !resolve_segs_abs;
    [|rewrite forallb_app, root_segs_valid, Hs; reflexivity
     |apply root_segs_valid].
  now rewrite strip_common_prefix.
Qed.

(** ** Extensions *)

Lemma take_until_slash_app (a r : jsstring) :
  no_slash a = true -> take_until_slash (a ++ 47 :: r) = a.
Proof.
  unfold no_slash. induction a as [|c a IH]; intros H; simpl.
  - reflexivity.
  - simpl in H. apply andb_prop in H as [Hc Ha].
    apply negb_true_iff in Hc. now rewrite Hc, IH.
Qed.

Lemma take_until_slash_all (a : jsstring) :
  no_slash a = true -> take_until_slash a = a.
Proof.
  unfold no_slash. induction a as [|c a IH]; intros H; simpl.
  - reflexivity.
  - simpl in H. apply andb_prop in H as [Hc Ha].
    apply negb_true_iff in Hc. now rewrite Hc, IH.
Qed.

Lemma no_slash_rev (s : jsstring) : no_slash (rev s) = no_slash s.
Proof. apply forallb_rev. Qed.

Lemma drop_leading_keep (a r : jsstring) :
  a <> [] -> no_slash a = true -> drop_leading 47 (a ++ r) = a ++ r.
Proof.
  intros Hne H. destruct a as [|c a]; [now elim Hne|].
  unfold no_slash in H. simpl in H. apply andb_prop in H as [Hc _].
  apply negb_true_iff in Hc. simpl. now rewrite Hc.
Qed.

Lemma rev_nonempty (s : jsstring) : s <> [] -> rev s <> [].
Proof.
  intros H E. apply H. rewrite <- (rev_involutive s), E. reflexivity.
Qed.

Lemma valid_seg_nonempty (s : jsstring) : valid_seg s = true -> s <> [].
Proof.
  intros H. destruct (valid_seg_inv s H) as ((c & t & ->) & _). discriminate.
Qed.

Lemma rev_basename_below (pre name : jsstring) :
  valid_seg name = true -> rev_basename (pre ++ 47 :: name) = rev name.
Proof.
  intros H. destruct (valid_seg_inv name H) as (_ & Hns & _).
  unfold rev_basename.
  rewrite rev_app_distr. cbn [rev]. rewrite <- app_assoc. cbn [app].
  rewrite drop_leading_keep;
    [|apply rev_nonempty; now apply valid_seg_nonempty
     |now rewrite no_slash_rev].
  apply take_until_slash_app. now rewrite no_slash_rev.
Qed.

Lemma rev_basename_plain (s : jsstring) :
  s <> [] -> no_slash s = true -> rev_basename s = rev s.
Proof.
  intros Hne Hns. unfold rev_basename.
  rewrite <- (app_nil_r (rev s)) at 1.
  rewrite drop_leading_keep;
    [|now apply rev_nonempty|now rewrite no_slash_rev].
  rewrite app_nil_r. apply take_until_slash_all. now rewrite no_slash_rev.
Qed.

Lemma path_extname_below (pre name : jsstring) :
  valid_seg name = true ->
  path_extname (pre ++ 47 :: name) = path_extname name.
Proof.
  intros H. destruct (valid_seg_inv name H) as (_ & Hns & _).
  unfold path_extname.
  rewrite rev_basename_below by exact H.
  rewrite rev_basename_plain;
    [reflexivity|now apply valid_seg_nonempty|exact Hns].
Qed.

Lemma split_at_dot_app (a l x y : jsstring) :
  split_at_dot a = Some (x, y) -> split_at_dot (a ++ l) = Some (x, y ++ l).
Proof.
  revert x y. induction a as [|c a IH]; intros x y H; simpl in *;
    [discriminate|].
  destruct (c =? 46).
  - now injection H as <- <-.
  - destruct (split_at_dot a) as [[x' y']|]; [|discriminate].
    injection H as <- <-. now rewrite (IH x' y' eq_refl).
Qed.

(** [mime.lookup] looks at ['x.' + name]; for a name that has an extension
    this changes nothing. *)
Lemma path_extname_prefixed (name : jsstring) :
  valid_seg name = true -> path_extname name <> [] ->
  path_extname (js "x." ++ name) = path_extname name.
Proof.
  intros H Hext. destruct (valid_seg_inv name H) as (_ & Hns & _).
  pose proof (valid_seg_nonempty name H) as Hne.
  unfold path_extname in *.
  rewrite rev_basename_plain in Hext by assumption.
  rewrite (rev_basename_plain name) by assumption.
  rewrite rev_basename_plain;
    [|nonnil|unfold no_slash in *; rewrite forallb_app; now rewrite Hns].
  rewrite rev_app_distr.
  change (rev (js "x.")) with [46; 120].
  assert (Hlen : zeqb_list (rev name ++ [46; 120]) dotdot = false).
  { apply zeqb_list_neq. intros E. apply (f_equal (@length Z)) in E.
    rewrite length_app in E. cbn in E.
    pose proof (rev_nonempty name Hne) as Hr.
    destruct (rev name); [now elim Hr|cbn in E; lia]. }
  rewrite Hlen.
  destruct (zeqb_list (rev name) dotdot); [now elim Hext|].
  destruct (split_at_dot (rev name)) as [[rext rest]|] eqn:Es;
    [|now elim Hext].
  rewrite (split_at_dot_app _ [46; 120] _ _ Es).
  destruct rest; [now elim Hext|reflexivity].
Qed.

(** ** The file system: resolution of normalised paths *)

Lemma fs_lookup_found (p : jsstring) (n : node) :
  fs_resolve fs p = Some n -> fs_lookup fs p = Found n.
Proof.
  unfold fs_resolve. destruct (fs_lookup fs p); cbn [found]; congruence.
Qed.

Lemma fs_lookup_failed (p : jsstring) :
  fs_resolve fs p = None -> exists code, fs_lookup fs p = Failed code.
Proof.
  unfold fs_resolve. destruct (fs_lookup fs p) as [n|code]; cbn [found];
    [discriminate|]. intros _. now exists code.
Qed.

Lemma walk_valid (anc : list node) (cur : node) (segs : list jsstring) :
  forallb valid_seg segs = true ->
  found (walk anc cur segs) = descend cur segs.
Proof.
  revert anc cur. induction segs as [|seg segs IH]; intros anc cur H;
    [reflexivity|].
  cbn [forallb] in H. apply andb_prop in H as [Hs Hr].
  destruct (valid_seg_inv seg Hs) as ((c & t & ->) & _ & Hd & Hdd).
  cbn [walk descend]. destruct cur as [|r [] sz es|sz]; try reflexivity.
  cbn [negb]. rewrite Hd, Hdd.
  destruct (assoc (c :: t) es); [|reflexivity].
  now apply IH.
Qed.

(** A name looked up in a directory that cannot be searched: EACCES. *)
Lemma walk_denied (anc : list node) (cur : node) (segs : list jsstring)
      (r : bool) (sz : Z) (es : list (jsstring * node)) (nm : jsstring) :
  forallb valid_seg segs = true -> valid_seg nm = true ->
  descend cur segs = Some (Dir r false sz es) ->
  walk anc cur (segs ++ [nm]) = Failed "EACCES".
Proof.
  intros Hv Hnm. revert anc cur.
  induction segs as [|seg segs IH]; intros anc cur Hd.
  - cbn in Hd. injection Hd as ->.
    destruct (valid_seg_inv nm Hnm) as ((c & t & ->) & _).
    reflexivity.
  - cbn [forallb] in Hv. apply andb_prop in Hv as [Hs Hr].
    destruct (valid_seg_inv seg Hs) as ((c & t & ->) & _ & Hdot & Hdd).
    cbn [app walk descend] in *.
    destruct cur as [|r' [] sz' es'|sz']; try discriminate.
    cbn [negb]. rewrite Hdot, Hdd.
    destruct (assoc (c :: t) es') as [child|]; [|discriminate].
    now apply IH.
Qed.

Lemma fs_lookup_abs (segs : list jsstring) :
  is_dir fs = true -> segs <> [] -> forallb valid_seg segs = true ->
  has_nul (abs_path segs) = false ->
  fs_lookup fs (abs_path segs) = walk [] fs segs.
Proof.
  intros Hd Hne Hv Hn. unfold fs_lookup. rewrite Hn.
  unfold abs_path. cbn [split_slash]. rewrite Z.eqb_refl.
  destruct fs as [|r s sz es|sz] eqn:Efs; try discriminate.
  cbn [walk]. now rewrite split_join by auto.
Qed.

Lemma fs_resolve_abs (segs : list jsstring) :
  is_dir fs = true -> forallb valid_seg segs = true ->
  has_nul (abs_path segs) = false ->
  fs_resolve fs (abs_path segs) = descend fs segs.
Proof.
  intros Hd Hv Hn. destruct segs as [|s segs].
  - unfold fs_resolve, fs_lookup. rewrite Hn.
    destruct fs as [|r s sz es|sz] eqn:Efs; try discriminate. reflexivity.
  - unfold fs_resolve. rewrite fs_lookup_abs by (auto; nonnil).
    now apply walk_valid.
Qed.

Lemma descend_app (cur : node) (a b : list jsstring) :
  descend cur (a ++ b)
  = match descend cur a with
    | Some n => descend n b
    | None => None
    end.
Proof.
  revert cur. induction a as [|s a IH]; intros cur; [reflexivity|].
  cbn [app descend]. destruct cur as [|r [] sz es|sz]; try reflexivity.
  destruct (assoc s es); [apply IH|reflexivity].
Qed.

Lemma set_has_in (l : list jsstring) (x : jsstring) :
  set_has l x = true <-> In x l.
Proof.
  unfold set_has. rewrite existsb_exists. split.
  - intros (y & Hy & E). apply zeqb_list_eq in E. now subst.
  - intros H. exists x. split; [exact H|apply zeqb_list_refl].
Qed.

Lemma assoc_in (es : list (jsstring * node)) (nm : jsstring) (c : node) :
  names_distinct (map fst es) = true -> In (nm, c) es ->
  assoc nm es = Some c.
Proof.
  induction es as [|[n0 c0] es IH]; intros Hd Hin; [contradiction|].
  cbn [map fst names_distinct] in Hd. apply andb_prop in Hd as [Hn Hd].
  apply negb_true_iff in Hn. cbn [assoc].
  destruct Hin as [E|Hin].
  - injection E as -> ->. now rewrite zeqb_list_refl.
  - destruct (zeqb_list nm n0) eqn:E.
    + apply zeqb_list_eq in E. subst n0. exfalso.
      assert (Hs : set_has (map fst es) nm = true).
      { apply set_has_in. apply in_map_iff. now exists (nm, c). }
      congruence.
    + now apply IH.
Qed.

Lemma assoc_some (es : list (jsstring * node)) (nm : jsstring) (c : node) :
  assoc nm es = Some c -> In (nm, c) es.
Proof.
  induction es as [|[n0 c0] es IH]; intros H; [discriminate|].
  cbn [assoc] in H. destruct (zeqb_list nm n0) eqn:E.
  - apply zeqb_list_eq in E. injection H as ->. subst. now left.
  - right. now apply IH.
Qed.

Lemma wf_child (r s : bool) (sz : Z) (es : list (jsstring * node))
      (nm : jsstring) (c : node) :
  wf_node (Dir r s sz es) = true -> In (nm, c) es ->
  valid_name nm = true /\ wf_node c = true.
Proof.
  cbn [wf_node]. intros H Hin. apply andb_prop in H as [_ H].
  rewrite forallb_forall in H. apply H in Hin.
  now apply andb_prop in Hin.
Qed.

Lemma height_child (r s : bool) (sz : Z) (es : list (jsstring * node))
      (nm : jsstring) (c : node) :
  In (nm, c) es -> (height c < height (Dir r s sz es))%nat.
Proof.
  cbn [height]. induction es as [|[n0 c0] es IH]; intros Hin;
    [contradiction|].
  cbn [map fold_right]. destruct Hin as [E|Hin].
  - injection E as -> ->. lia.
  - specialize (IH Hin). lia.
Qed.

Lemma descend_wf (cur n : node) (segs : list jsstring) :
  wf_node cur = true -> descend cur segs = Some n -> wf_node n = true.
Proof.
  revert cur. induction segs as [|s segs IH]; intros cur Hwf H.
  - cbn in H. now injection H as <-.
  - cbn [descend] in H. destruct cur as [|r [] sz es|sz]; try discriminate.
    destruct (assoc s es) as [child|] eqn:Ea; [|discriminate].
    apply assoc_some in Ea. apply (IH child); [|exact H].
    now destruct (wf_child r true sz es s child Hwf Ea).
Qed.

Lemma valid_name_inv (s : jsstring) :
  valid_name s = true ->
  valid_seg s = true /\ has_nul s = false /\ wf_utf16 s = true.
Proof.
  unfold valid_name. intros H. apply andb_prop in H as [H Hw].
  apply andb_prop in H as [Hv Hn]. apply negb_true_iff in Hn. auto.
Qed.

Lemma valid_names_segs (l : list jsstring) :
  forallb valid_name l = true -> forallb valid_seg l = true.
Proof.
  rewrite !forallb_forall. intros H x Hx.
  now destruct (valid_name_inv x (H x Hx)).
Qed.

Lemma has_nul_app (a b : jsstring) : has_nul (a ++ b) = has_nul a || has_nul b.
Proof. apply existsb_app. Qed.

Lemma has_nul_abs_snoc (segs : list jsstring) (name : jsstring) :
  has_nul (abs_path segs) = false -> has_nul name = false ->
  has_nul (abs_path (segs ++ [name])) = false.
Proof.
  intros Hs Hn. unfold abs_path in *. destruct segs as [|s segs].
  - cbn [app join_slash]. change (47 :: name) with ([47] ++ name).
    now rewrite has_nul_app, Hn.
  - rewrite join_slash_snoc by nonnil.
    change (47 :: join_slash (s :: segs) ++ 47 :: name)
      with ((47 :: join_slash (s :: segs)) ++ [47] ++ name).
    now rewrite !has_nul_app, Hs, Hn.
Qed.

Lemma has_nul_abs_below (root sub : list jsstring) :
  has_nul (abs_path root) = false -> forallb valid_name sub = true ->
  has_nul (abs_path (root ++ sub)) = false.
Proof.
  intros Hr. induction sub as [|x sub IH] using rev_ind; intros Hs.
  - now rewrite app_nil_r.
  - rewrite forallb_app in Hs. apply andb_prop in Hs as [Hs Hx].
    cbn in Hx. rewrite andb_true_r in Hx.
    destruct (valid_name_inv x Hx) as (_ & Hn & _).
    rewrite app_assoc. apply has_nul_abs_snoc; auto.
Qed.

Lemma path_join_name (segs : list jsstring) (name : jsstring) :
  forallb valid_seg segs = true -> valid_seg name = true ->
  path_join (abs_path segs) name = abs_path (segs ++ [name]).
Proof.
  intros Hs Hn. change name with (join_slash [name]) at 1.
  apply path_join_below; [exact Hs|cbn; now rewrite Hn|nonnil].
Qed.

(** ** The monad *)

Lemma run_bind {A B} (c : M A) (k : A -> M B) (a : A) :
  run c = Val a -> run (bind c k) = run (k a).
Proof.
  destruct c as [t o]. cbn. intros ->. cbn. now destruct (k a).
Qed.

Lemma run_bind_exc {A B} (c : M A) (k : A -> M B) (e : exn) :
  run c = Exc e -> run (bind c k) = Exc e.
Proof. destruct c as [t o]. cbn. now intros ->. Qed.

Lemma run_bind_inv {A B} (c : M A) (k : A -> M B) (e : exn) :
  run (bind c k) = Exc e ->
  run c = Exc e \/ exists a, run c = Val a /\ run (k a) = Exc e.
Proof.
  destruct c as [t [a|e'|]]; cbn [bind run snd].
  - intros H. right. exists a. split; [reflexivity|].
    destruct (k a). exact H.
  - intros H. left. now injection H as ->.
  - discriminate.
Qed.

Lemma run_ret {A} (a : A) : run (ret a) = Val a.
Proof. reflexivity. Qed.

(** ** listMedia computes the catalogue of the specification *)

Lemma spec_catalog_dir (sub : list jsstring) (sz : Z)
      (es : list (jsstring * node)) :
  spec_catalog sub (Dir true true sz es) = flat_map (catalog_entry sub) es.
Proof. reflexivity. Qed.

Lemma stat_denied_dir (s : bool) (sz : Z) (es : list (jsstring * node)) :
  stat_denied (Dir true s sz es) = existsb (entry_denied s) es.
Proof. reflexivity. Qed.

(** The loop over the entries of a directory that was listed: it stops at
    the first video file that cannot be stat'ed, and otherwise adds what
    each entry contributes. *)
Lemma scan_entries_catalog
      (recur : jsstring -> M (list media_item)) (sub : list jsstring)
      (s : bool) (sz : Z) (all : list (jsstring * node)) :
  is_dir fs = true -> has_nul MEDIA_DIR = false ->
  forallb valid_name sub = true ->
  descend fs (root_segs ++ sub) = Some (Dir true s sz all) ->
  wf_node (Dir true s sz all) = true ->
  (forall nm c, In (nm, c) all -> is_dir c = true ->
                run (recur (abs_path (root_segs ++ sub ++ [nm])))
                = if s then scan_outcome (sub ++ [nm]) c else Val []) ->
  forall es items,
    incl es all ->
    run (scan_entries recur (abs_path (root_segs ++ sub))
           (map dirent_of es) items)
    = if existsb (entry_denied s) es then Exc (FsError "stat" "EACCES")
      else Val (items ++ if s then flat_map (catalog_entry sub) es else []).
Proof.
  intros Hd Hnul Hsub Hdesc Hwf Hrec.
  pose proof root_segs_valid as Hroot.
  assert (Hsegs : forallb valid_seg (root_segs ++ sub) = true)
    by (rewrite forallb_app, Hroot, valid_names_segs; auto).
  induction es as [|[nm c] es IH]; intros items Hincl.
  - cbn. destruct s; now rewrite app_nil_r.
  - assert (Hin : In (nm, c) all) by (apply Hincl; now left).
    assert (Hes : incl es all) by (intros x Hx; apply Hincl; now right).
    destruct (wf_child true s sz all nm c Hwf Hin) as [Hnm Hc].
    destruct (valid_name_inv nm Hnm) as (Hseg & Hnn & _).
    assert (Hsegs' : forallb valid_seg ((root_segs ++ sub) ++ [nm]) = true)
      by (rewrite forallb_app, Hsegs; cbn; now rewrite Hseg).
    assert (Hnul' : has_nul (abs_path ((root_segs ++ sub) ++ [nm])) = false)
      by (apply has_nul_abs_snoc;
          [now apply has_nul_abs_below|exact Hnn]).
    cbn [map scan_entries flat_map existsb]. cbv zeta.
    destruct c as [content|r' s' sz' es'|sz'];
      cbn [dirent_of fst snd d_isDirectory d_isFile d_name negb];
      try rewrite path_join_name by assumption.
    + cbn [catalog_entry entry_denied].
      destruct (set_has VIDEO_EXTS (toLowerCase (path_extname nm))) eqn:Ev;
        cbn [negb];
        [|rewrite andb_false_r; cbn [orb app]; now apply IH].
      rewrite andb_true_r. unfold fsp_stat. destruct s; cbn [negb orb].
      * rewrite (fs_lookup_found _ (File content)).
        2:{ rewrite fs_resolve_abs by assumption.
            rewrite descend_app, Hdesc. cbn [descend].
            rewrite (assoc_in all nm (File content));
              [reflexivity|now apply andb_prop in Hwf|exact Hin]. }
        rewrite (run_bind _ _ (stats_of (File content))) by reflexivity.
        rewrite <- (app_assoc root_segs sub [nm]).
        rewrite path_relative_below
          by (rewrite forallb_app, valid_names_segs by exact Hsub;
              cbn; now rewrite Hseg).
        rewrite IH by exact Hes. cbn [stats_of st_size node_size].
        destruct (existsb (entry_denied true) es); [reflexivity|].
        cbn [app]. now rewrite <- app_assoc.
      * rewrite fs_lookup_abs by (auto; nonnil).
        rewrite (walk_denied [] fs (root_segs ++ sub) true sz all nm)
          by assumption.
        reflexivity.
    + cbn [catalog_entry entry_denied].
      rewrite <- (app_assoc root_segs sub [nm]).
      specialize (Hrec nm _ Hin eq_refl). destruct s; cbn [andb orb].
      * unfold scan_outcome in Hrec.
        destruct (stat_denied (Dir r' s' sz' es')).
        -- now rewrite (run_bind_exc _ _ _ Hrec).
        -- rewrite (run_bind _ _ _ Hrec), IH by exact Hes.
           destruct (existsb (entry_denied true) es); [reflexivity|].
           now rewrite <- app_assoc.
      * rewrite (run_bind _ _ _ Hrec), IH by exact Hes.
        now rewrite app_nil_r.
    + cbn [catalog_entry entry_denied orb app]. now apply IH.
Qed.

Lemma listMedia_catalog (fuel : nat) :
  is_dir fs = true -> has_nul MEDIA_DIR = false ->
  forall sub n,
    forallb valid_name sub = true ->
    descend fs (root_segs ++ sub) = Some n ->
    wf_node n = true ->
    (height n < fuel)%nat ->
    run (listMedia fuel (abs_path (root_segs ++ sub))) = scan_outcome sub n.
Proof.
  intros Hd Hnul. induction fuel as [|fuel IH]; intros sub n Hsub Hdesc Hwf Hh;
    [lia|].
  pose proof root_segs_valid as Hroot.
  assert (Hsegs : forallb valid_seg (root_segs ++ sub) = true)
    by (rewrite forallb_app, Hroot, valid_names_segs; auto).
  assert (Hnul' : has_nul (abs_path (root_segs ++ sub)) = false)
    by (now apply has_nul_abs_below).
  cbn [listMedia]. unfold fsp_readdir.
  rewrite (fs_lookup_found _ n)
    by (now rewrite fs_resolve_abs by assumption).
  destruct n as [content|r s sz es|sz]; try reflexivity.
  destruct r; [|reflexivity].
  cbn [attempt bind app].
  pose proof (scan_entries_catalog (listMedia fuel) sub s sz es
                Hd Hnul Hsub Hdesc Hwf) as Hscan.
  assert (Hrec : forall nm c, In (nm, c) es -> is_dir c = true ->
                 run (listMedia fuel (abs_path (root_segs ++ sub ++ [nm])))
                 = if s then scan_outcome (sub ++ [nm]) c else Val []).
  { intros nm c Hin Hdir. rewrite app_assoc.
    destruct (wf_child true s sz es nm c Hwf Hin) as [Hnm Hc].
    destruct (valid_name_inv nm Hnm) as (Hseg & Hnn & _).
    pose proof (height_child true s sz es nm c Hin) as Hlt.
    destruct s.
    - rewrite <- app_assoc. apply IH.
      + rewrite forallb_app, Hsub. cbn. now rewrite Hnm.
      + rewrite app_assoc, descend_app, Hdesc. cbn [descend].
        rewrite (assoc_in es nm c);
          [reflexivity|now apply andb_prop in Hwf|exact Hin].
      + exact Hc.
      + lia.
    - destruct fuel as [|fuel']; [lia|].
      cbn [listMedia]. unfold fsp_readdir.
      rewrite fs_lookup_abs;
        [|exact Hd|nonnil
         |rewrite forallb_app, Hsegs; cbn; now rewrite Hseg
         |now apply has_nul_abs_snoc].
      rewrite (walk_denied [] fs (root_segs ++ sub) true sz es nm)
        by assumption.
      reflexivity. }
  specialize (Hscan Hrec es [] (incl_refl es)).
  unfold scan_outcome. rewrite stat_denied_dir.
  destruct (scan_entries _ _ _ _) as [t o]. cbn [run snd] in *. subst o.
  destruct (existsb (entry_denied s) es); [reflexivity|].
  destruct s; reflexivity.
Qed.

(** ** Lookup by identifier *)

Lemma getMediaById_decoded (id name : jsstring) :
  fromBase64Url id = Ok name ->
  getMediaById id
  = ([OpStat (path_join MEDIA_DIR name)], Val (lookup_answer id name)).
Proof.
  intros Hid.
  unfold getMediaById, lookup_answer, fsp_stat, fs_resolve. rewrite Hid.
  cbn [lift ret bind app]. cbv zeta.
  destruct (fs_lookup fs (path_join MEDIA_DIR name))
    as [[content|r s sz es|sz]|code];
    cbn [found bind attempt stats_of st_isFile negb ret app st_size
         node_size];
    try reflexivity.
  destruct (set_has VIDEO_EXTS (toLowerCase (path_extname name)));
    reflexivity.
Qed.

Lemma wf_utf16_app (a b : jsstring) :
  wf_utf16 a = true -> wf_utf16 b = true -> wf_utf16 (a ++ b) = true.
Proof.
  intros Ha Hb. revert a Ha. apply (wf_utf16_ind (fun a => wf_utf16 (a ++ b) = true)).
  - exact Hb.
  - intros c t Hh Hl Hr _ IH. cbn [app wf_utf16]. rewrite Hh, Hl, IH.
    cbn [negb andb]. rewrite andb_true_r.
    apply andb_true_intro. split; apply Z.leb_le; lia.
  - intros c d t Hh Hl _ IH. cbn [app wf_utf16]. now rewrite Hh, Hl, IH.
Qed.

Lemma wf_utf16_join (l : list jsstring) :
  forallb valid_name l = true -> wf_utf16 (join_slash l) = true.
Proof.
  induction l as [|s l IH]; intros H; [reflexivity|].
  cbn [forallb] in H. apply andb_prop in H as [Hs Hl].
  destruct (valid_name_inv s Hs) as (_ & _ & Hw).
  destruct l as [|s2 l]; [exact Hw|].
  rewrite join_slash_cons by nonnil.
  apply wf_utf16_app; [exact Hw|].
  change (47 :: join_slash (s2 :: l)) with ([47] ++ join_slash (s2 :: l)).
  apply wf_utf16_app; [reflexivity|now apply IH].
Qed.

Lemma path_extname_join (segs : list jsstring) (nm : jsstring) :
  valid_seg nm = true ->
  path_extname (join_slash (segs ++ [nm])) = path_extname nm.
Proof.
  intros H. destruct segs as [|s segs]; [reflexivity|].
  rewrite join_slash_snoc by nonnil. now apply path_extname_below.
Qed.

Lemma mime_lookup_join (segs : list jsstring) (nm : jsstring) :
  valid_seg nm = true -> path_extname nm <> [] ->
  mime_or_default (join_slash (segs ++ [nm])) = mime_or_default nm.
Proof.
  intros H Hext. destruct segs as [|s segs]; [reflexivity|].
  unfold mime_or_default, mime_lookup.
  rewrite join_slash_snoc by nonnil.
  rewrite (app_assoc (js "x.")), path_extname_below by exact H.
  rewrite path_extname_prefixed by assumption.
  destruct (valid_seg_inv nm H) as ((c & t & ->) & _).
  destruct (join_slash (s :: segs) ++ 47 :: c :: t) eqn:E; [|reflexivity].
  destruct (join_slash (s :: segs)); discriminate.
Qed.

Lemma getMediaById_file (segs : list jsstring) (nm : jsstring)
      (content : buffer) :
  toLowerCase [] = [] ->
  is_dir fs = true -> has_nul MEDIA_DIR = false ->
  forallb valid_name (segs ++ [nm]) = true ->
  descend fs (root_segs ++ segs ++ [nm]) = Some (File content) ->
  set_has VIDEO_EXTS (toLowerCase (path_extname nm)) = true ->
  run (getMediaById (toBase64Url (join_slash (segs ++ [nm]))))
  = Val (Some (mkMeta (toBase64Url (join_slash (segs ++ [nm])))
                 (join_slash (segs ++ [nm]))
                 (Fin (Z.of_nat (length content)))
                 (mime_or_default nm))).
Proof.
  intros Hlow Hd Hnul Hv Hdesc Hext.
  pose proof root_segs_valid as Hroot.
  pose proof (valid_names_segs _ Hv) as Hvs.
  assert (Hnm : valid_seg nm = true).
  { rewrite forallb_app in Hvs. apply andb_prop in Hvs as [_ Hn].
    cbn in Hn. now rewrite andb_true_r in Hn. }
  assert (Hne : path_extname nm <> []).
  { intros E. rewrite E, Hlow in Hext. discriminate. }
  rewrite (getMediaById_decoded _ (join_slash (segs ++ [nm])))
    by (apply codec_roundtrip; now apply wf_utf16_join).
  cbn [run snd]. unfold lookup_answer.
  rewrite MEDIA_DIR_segs, path_join_below; [|exact Hroot|exact Hvs|nonnil].
  rewrite fs_resolve_abs;
    [|exact Hd|rewrite forallb_app, Hroot, Hvs; reflexivity
     |now apply has_nul_abs_below].
  rewrite Hdesc, path_extname_join, Hext by exact Hnm.
  now rewrite mime_lookup_join.
Qed.

(** Every item of the catalogue is a video file below the node. *)
Lemma catalog_item_file (h : nat) :
  forall (n : node) (sub : list jsstring) (it : media_item),
    (height n <= h)%nat -> wf_node n = true ->
    In it (spec_catalog sub n) ->
    exists path nm content,
      forallb valid_name (path ++ [nm]) = true
      /\ descend n (path ++ [nm]) = Some (File content)
      /\ set_has VIDEO_EXTS (toLowerCase (path_extname nm)) = true
      /\ it = mkItem (toBase64Url (join_slash (sub ++ path ++ [nm]))) nm
                (join_slash (sub ++ path ++ [nm]))
                (Fin (Z.of_nat (length content)))
                (mime_or_default nm).
Proof.
  induction h as [|h IH]; intros n sub it Hh Hwf Hin.
  - destruct n as [|r s sz es|sz]; try contradiction. cbn in Hh. lia.
  - destruct n as [|r s sz es|sz]; try contradiction.
    destruct r; [|contradiction]. destruct s; [|contradiction].
    rewrite spec_catalog_dir in Hin. apply in_flat_map in Hin.
    destruct Hin as ([nm c] & Hc & Hit).
    destruct (wf_child true true sz es nm c Hwf Hc) as [Hnm Hwc].
    assert (Ha : assoc nm es = Some c).
    { apply assoc_in; [now apply andb_prop in Hwf|exact Hc]. }
    destruct c as [content|r' s' sz' es'|sz']; cbn [catalog_entry] in Hit.
    + destruct (set_has VIDEO_EXTS (toLowerCase (path_extname nm))) eqn:Ev;
        [|contradiction].
      destruct Hit as [<-|[]].
      exists [], nm, content. cbn [app forallb descend].
      rewrite Hnm, Ha. auto.
    + pose proof (height_child true true sz es nm (Dir r' s' sz' es') Hc)
        as Hlt.
      destruct (IH (Dir r' s' sz' es') (sub ++ [nm]) it) as
          (path & nm' & content & Hv & Hdesc & Hext & ->);
        [lia|exact Hwc|exact Hit|].
      exists (nm :: path), nm', content.
      cbn [app forallb descend]. rewrite Hnm, Ha, Hv, Hdesc.
      repeat split; auto. now rewrite <- !app_assoc.
    + contradiction.
Qed.

(** ** Where a joined path lies *)

Lemma join_slash_nil_inv (segs : list jsstring) :
  forallb valid_seg segs = true -> join_slash segs = [] -> segs = [].
Proof.
  intros H E. destruct segs as [|s segs]; [reflexivity|].
  destruct (join_slash_valid_cons (s :: segs) H) as (c & t & E');
    [nonnil|congruence].
Qed.

(** Resolving a normalised absolute path gives back its segments. *)
Lemma resolve_normalize (q : jsstring) :
  resolve_segs cwd (path_normalize (47 :: q))
  = norm_segs false [] (split_slash q).
Proof.
  rewrite path_normalize_abs.
  pose proof (norm_segs_output_valid [] (split_slash q)
                (split_slash_parts q) eq_refl) as Hv.
  set (segs := norm_segs false [] (split_slash q)) in *.
  destruct (join_slash segs) as [|c r] eqn:Ej.
  - rewrite (join_slash_nil_inv segs Hv Ej). reflexivity.
  - rewrite <- Ej.
    assert (Hne : segs <> []) by (intros E; rewrite E in Ej; discriminate).
    unfold resolve_segs. cbn [is_absolute split_slash].
    rewrite Z.eqb_refl. cbn [norm_segs].
    destruct (ends_with_slash (47 :: q)).
    + rewrite split_slash_app, split_join by assumption.
      rewrite norm_segs_valid_app by exact Hv.
      cbn [split_slash norm_segs]. rewrite app_nil_r. apply rev_involutive.
    + rewrite app_nil_r, split_join by assumption.
      now apply norm_segs_valid.
Qed.

Lemma norm_segs_no_dotdot (segs stack : list jsstring) :
  forallb (fun seg => negb (zeqb_list seg dotdot)) segs = true ->
  exists extra, norm_segs false stack segs = rev stack ++ extra.
Proof.
  revert stack. induction segs as [|seg segs IH]; intros stack H.
  - exists []. cbn. now rewrite app_nil_r.
  - cbn [forallb] in H. apply andb_prop in H as [Hs Hr].
    apply negb_true_iff in Hs.
    destruct seg as [|c t]; cbn [norm_segs]; [now apply IH|].
    destruct (zeqb_list (c :: t) dot); [now apply IH|].
    rewrite Hs. cbv iota. destruct (IH ((c :: t) :: stack) Hr) as [extra E].
    exists ((c :: t) :: extra). etransitivity; [exact E|]. cbn [rev].
    now rewrite <- app_assoc.
Qed.

Lemma seg_prefix_app (a b : list jsstring) : seg_prefix a (a ++ b) = true.
Proof.
  induction a as [|x a IH]; [reflexivity|].
  cbn. now rewrite zeqb_list_refl.
Qed.

(** A decoded value without a [..] segment, an absolute path among them,
    is joined to a path inside the media root. *)
Lemma join_stays_within (name : jsstring) :
  no_dotdot name = true -> within_root (path_join MEDIA_DIR name) = true.
Proof.
  intros H. unfold within_root.
  pose proof root_segs_valid as Hroot.
  assert (E : exists extra,
             resolve_segs cwd (path_join MEDIA_DIR name) = root_segs ++ extra).
  { rewrite MEDIA_DIR_segs. unfold path_join, abs_path.
    destruct name as [|c t].
    - exists []. rewrite resolve_normalize.
      rewrite <- (app_nil_r (split_slash (join_slash root_segs))).
      rewrite norm_segs_split_join by exact Hroot. cbn [norm_segs].
      now rewrite !app_nil_r, rev_involutive.
    - cbn [app]. rewrite resolve_normalize, split_slash_app.
      rewrite norm_segs_split_join by exact Hroot.
      destruct (norm_segs_no_dotdot (split_slash (c :: t)) (rev root_segs ++ []) H)
        as [extra E].
      exists extra. rewrite E, app_nil_r. now rewrite rev_involutive. }
  destruct E as [extra ->]. apply seg_prefix_app.
Qed.

(** Every access of the stream handler is to the joined path. *)
Lemma stream_handler_accesses (id name : jsstring) (range : option jsstring) :
  fromBase64Url id = Ok name ->
  exists rest,
    trace (stream_handler id range)
    = OpExists (path_join MEDIA_DIR name) :: rest
    /\ Forall (fun o => op_path o = path_join MEDIA_DIR name) rest.
Proof.
  intros Hid. rewrite stream_handler_factored, Hid. cbv zeta.
  unfold fs_existsSync, fs_statSync, fsp_stat, fs_resolve.
  destruct (fs_lookup fs (path_join MEDIA_DIR name)) as [n|code];
    cbn [found].
  - cbn [bind negb app].
    destruct (resolve_range range (st_size (stats_of n)));
      cbn [respond pipe_file bind ret app trace fst];
      eexists; (split; [reflexivity|]); repeat constructor.
  - cbn [bind negb app ret trace fst]. eexists. split; [reflexivity|].
    constructor.
Qed.

Lemma stream_handler_missing (id name : jsstring) (range : option jsstring) :
  fromBase64Url id = Ok name ->
  fs_resolve fs (path_join MEDIA_DIR name) = None ->
  run (stream_handler id range) = Val (json_error 404 msg_not_found).
Proof.
  intros Hid Hn. rewrite stream_handler_factored, Hid. cbv zeta.
  unfold fs_existsSync. now rewrite Hn.
Qed.

(** Where the media root lies, once it is known to exist. *)
Lemma media_root_found (root : node) :
  wf_fs fs = true -> fs_resolve fs MEDIA_DIR = Some root ->
  is_dir fs = true /\ has_nul MEDIA_DIR = false
  /\ descend fs root_segs = Some root /\ wf_node root = true.
Proof.
  intros Hwf Hres. unfold wf_fs in Hwf. apply andb_prop in Hwf as [Hd Hwf].
  assert (Hnul : has_nul MEDIA_DIR = false).
  { unfold fs_resolve, fs_lookup in Hres. destruct (has_nul MEDIA_DIR);
      [discriminate|reflexivity]. }
  assert (Hdesc : descend fs root_segs = Some root).
  { rewrite <- Hres, MEDIA_DIR_segs. symmetry.
    apply fs_resolve_abs; [exact Hd|apply root_segs_valid|exact Hnul]. }
  assert (Hwr : wf_node root = true) by (now apply (descend_wf fs root root_segs)).
  auto.
Qed.

(** The scan of the media root: the exception of a failed [stat], or the
    catalogue. *)
Lemma listMedia_root (fuel : nat) (root : node) :
  wf_fs fs = true -> fs_resolve fs MEDIA_DIR = Some root ->
  (height root < fuel)%nat ->
  run (listMedia fuel MEDIA_DIR) = scan_outcome [] root.
Proof.
  intros Hwf Hres Hh.
  destruct (media_root_found root Hwf Hres) as (Hd & Hnul & Hdesc & Hwr).
  rewrite MEDIA_DIR_segs, <- (app_nil_r root_segs).
  apply listMedia_catalog; auto. now rewrite app_nil_r.
Qed.

(** When the scan of the media root returns a list, it is the catalogue. *)
Lemma listMedia_returns (fuel : nat) (root : node)
      (items : list media_item) :
  wf_fs fs = true -> fs_resolve fs MEDIA_DIR = Some root ->
  (height root < fuel)%nat ->
  run (listMedia fuel MEDIA_DIR) = Val items ->
  items = spec_catalog [] root
  /\ is_dir fs = true /\ has_nul MEDIA_DIR = false
  /\ descend fs root_segs = Some root /\ wf_node root = true.
Proof.
  intros Hwf Hres Hh Hrun.
  split; [|now apply media_root_found].
  rewrite (listMedia_root fuel root Hwf Hres Hh) in Hrun.
  unfold scan_outcome in Hrun.
  destruct (stat_denied root); [discriminate|]. now injection Hrun as <-.
Qed.

(** ** The Identifier Codec *)

Lemma token_url_safe (p : jsstring) :
  wf_utf16 p = true -> forallb url_safe (toBase64Url p) = true.
Proof.
  intros Hwf. pose proof (utf8_encode_bytes p Hwf) as Hb.
  unfold toBase64Url. rewrite token_form by exact Hb.
  pose proof (sextets_of_range _ Hb) as Hr.
  rewrite forallb_forall in *. intros c Hc.
  apply in_map_iff in Hc as (v & <- & Hv). apply url_char_safe. now apply Hr.
Qed.

(** C4: on every well-formed string, and so on every relative path built
    from printable characters, decoding the token gives the path back; the
    token is a function of the path, different paths have different tokens,
    and a token holds only letters, digits, [-] and [_]: no padding and
    nothing that a URL path would percent-encode. *)
Theorem token_roundtrip (p : jsstring) :
  wf_utf16 p = true ->
  fromBase64Url (toBase64Url p) = Ok p
  /\ forallb url_safe (toBase64Url p) = true
  /\ (forall q, wf_utf16 q = true -> toBase64Url q = toBase64Url p -> q = p).
Proof.
  intros Hwf. split; [|split].
  - now apply codec_roundtrip.
  - now apply token_url_safe.
  - intros q Hq E.
    pose proof (codec_roundtrip q Hq) as Rq.
    pose proof (codec_roundtrip p Hwf) as Rp.
    rewrite E in Rq. congruence.
Qed.

(** C10, as the code has it: [fromBase64Url] returns a string for every
    input, so the handler never takes its [catch] branch: every identifier,
    however malformed, reaches the existence test on the joined path and is
    answered; the answer is never 400, it is the 404 error exactly when the
    joined path does not exist, and 200, 206 or 416 when it does.  A
    malformed identifier is therefore answered as whatever its decoded value
    names, not always with 404. *)
Theorem invalid_id_branch_unreachable (id : jsstring) (range : option jsstring) :
  exists name r rest,
    fromBase64Url id = Ok name
    /\ trace (stream_handler id range)
       = OpExists (path_join MEDIA_DIR name) :: rest
    /\ run (stream_handler id range) = Val r
    /\ status r <> 400
    /\ (status r = 404 <-> fs_resolve fs (path_join MEDIA_DIR name) = None)
    /\ (fs_resolve fs (path_join MEDIA_DIR name) = None ->
        r = json_error 404 msg_not_found)
    /\ (fs_resolve fs (path_join MEDIA_DIR name) <> None ->
        status r = 200 \/ status r = 206 \/ status r = 416).
Proof.
  destruct (fromBase64Url_total id) as [k Hk].
  destruct (fromBase64Url id) as [name|e] eqn:Hid; [clear Hk|discriminate].
  exists name. rewrite stream_handler_factored, Hid. cbv zeta.
  unfold fs_existsSync, fs_statSync, fsp_stat, fs_resolve.
  destruct (fs_lookup fs _) as [n|code] eqn:En; cbn [found].
  - cbn [bind negb app].
    destruct (resolve_range range (st_size (stats_of n))) eqn:Er;
      cbn [respond pipe_file bind ret app trace run fst snd];
      do 2 eexists; (split; [reflexivity|]); (split; [reflexivity|]);
      (split; [reflexivity|]); cbn [status respond_416];
      (split; [discriminate|]);
      (split; [split; intros H; discriminate H|]);
      (split; [intros H; discriminate H|]); auto.
  - cbn [bind negb app ret trace run fst snd].
    do 2 eexists. (split; [reflexivity|]). (split; [reflexivity|]).
    (split; [reflexivity|]). cbn [status json_error].
    split; [discriminate|]. split; [split; reflexivity|].
    split; [reflexivity|]. intros H. now contradiction H.
Qed.

(** ** The Range Resolver and the Stream Responder *)

Lemma chunk_size_exact (s e size : Z) :
  safe_size size -> 0 <= s <= e -> e < size ->
  chunk_size (Fin s) (Fin e) = Fin (e - s + 1).
Proof.
  unfold safe_size, chunk_size. intros Hs H1 H2.
  cbn [num_sub num_neg num_add].
  rewrite (to_double_small (e + - s)) by lia. cbn [num_add].
  rewrite to_double_small by lia. f_equal; lia.
Qed.

(** C2: for a header [bytes=<start>-<end>] of the single-range grammar and
    a file of size [size], the resolver returns what steps 3 and 4 of the
    specification compute on the exact integers: [start-end] gives
    [start, end], [start-] gives [start, size - 1], [-n] is unsatisfiable
    for [n = 0] and gives [max (size - n) 0, size - 1] otherwise; the result
    is unsatisfiable exactly when [start < 0], [end >= size] or
    [start > end]; an accepted window lies inside the file and its chunk
    size is [end - start + 1]; an empty file accepts no range. *)
Theorem range_window_as_specified (d1 d2 : jsstring) (size : Z) :
  all_digits d1 = true -> all_digits d2 = true ->
  truthy d1 || truthy d2 = true ->
  safe_size size ->
  matches_grammar (header_of d1 d2) = true
  /\ resolve_range (Some (header_of d1 d2)) (Fin size)
     = spec_resolve (field_value d1) (field_value d2) size
  /\ (forall a b,
         resolve_range (Some (header_of d1 d2)) (Fin size) = Window a b ->
         exists s e, a = Fin s /\ b = Fin e /\ 0 <= s <= e /\ e < size
                     /\ chunk_size a b = Fin (e - s + 1))
  /\ (size = 0 ->
      resolve_range (Some (header_of d1 d2)) (Fin size) = Unsatisfiable).
Proof.
  intros H1 H2 Hne Hs. split; [|split; [|split]].
  - unfold matches_grammar, header_of.
    rewrite strip_prefix_app.
    rewrite (span_digits_app d1 (45 :: d2)) by auto.
    rewrite <- (app_nil_r d2) at 1.
    rewrite (span_digits_app d2 []) by auto. exact Hne.
  - now apply resolve_range_spec.
  - intros a b Hw.
    destruct (resolve_range_window _ _ _ _ Hw) as (s & e & -> & -> & Hb & He).
    exists s, e. repeat split; try lia.
    now apply chunk_size_exact with (size := size).
  - intros ->. rewrite resolve_range_spec by auto.
    unfold spec_resolve.
    destruct (spec_window _ _ _) as [[s e]|]; [|reflexivity].
    destruct (s <? 0) eqn:E1, (0 <=? e) eqn:E2, (e <? s) eqn:E3;
      try reflexivity.
    exfalso. clear Hne. zbool. lia.
Qed.

(** The leftmost occurrence of the pattern is the one the search finds. *)
Lemma range_search_leftmost (pre d1 d2 post : jsstring) :
  all_digits d1 = true -> all_digits d2 = true ->
  starts_with_digit post = false ->
  (forall pre' e1 e2 post',
      all_digits e1 = true -> all_digits e2 = true ->
      pre ++ header_of d1 d2 ++ post = pre' ++ header_of e1 e2 ++ post' ->
      (length pre <= length pre')%nat) ->
  range_search (pre ++ header_of d1 d2 ++ post) = Some (d1, d2).
Proof.
  intros H1 H2 Hp. induction pre as [|c pre IH]; intros Hleft.
  - cbn [app]. apply range_search_here. now apply range_match_here_header.
  - cbn [app range_search].
    destruct (range_match_here (c :: pre ++ header_of d1 d2 ++ post))
      as [[e1 e2]|] eqn:E.
    + exfalso.
      apply range_match_here_sound in E as (He1 & He2 & post' & E).
      specialize (Hleft [] e1 e2 post' He1 He2 E). cbn in Hleft. lia.
    + rewrite <- IH; [now destruct (pre ++ header_of d1 d2 ++ post)|].
      intros pre' e1 e2 post' He1 He2 E'.
      assert (Hc : (length (c :: pre) <= length (c :: pre'))%nat).
      { apply (Hleft (c :: pre') e1 e2 post' He1 He2).
        cbn [app]. now rewrite E'. }
      cbn [length] in Hc. lia.
Qed.

(** C3, as the code has it: the pattern is searched anywhere in the header
    and its leftmost occurrence alone decides.  A non-empty header in which
    [bytes=<digits>-<digits>] occurs nowhere is unsatisfiable, [bytes=abc]
    among them.  A header in which it occurs is resolved exactly as the
    header made of the leftmost occurrence with its two maximal runs of
    digits, whatever precedes it (a leading prefix) and whatever follows it
    (trailing characters, further comma-separated ranges); so a leftmost
    occurrence [bytes=-] with no digit on either side is unsatisfiable.  An
    empty header value counts as no header. *)
Theorem unmatched_range_rejected (h : jsstring) (fileSize : number) :
  (truthy h = true -> ~ contains_range_pattern h ->
   resolve_range (Some h) fileSize = Unsatisfiable)
  /\ (forall pre d1 d2 post,
        h = pre ++ header_of d1 d2 ++ post ->
        all_digits d1 = true -> all_digits d2 = true ->
        starts_with_digit post = false ->
        (forall pre' e1 e2 post',
            all_digits e1 = true -> all_digits e2 = true ->
            h = pre' ++ header_of e1 e2 ++ post' ->
            (length pre <= length pre')%nat) ->
        resolve_range (Some h) fileSize
        = resolve_range (Some (header_of d1 d2)) fileSize
        /\ (d1 = [] -> d2 = [] ->
            resolve_range (Some h) fileSize = Unsatisfiable))
  /\ resolve_range (Some (js "bytes=abc")) fileSize = Unsatisfiable
  /\ resolve_range (Some []) fileSize = FullFile.
Proof.
  split; [|split; [|split]].
  - intros Ht Hc. apply range_search_none_iff in Hc.
    destruct h as [|c h]; [discriminate|].
    unfold resolve_range. now rewrite Hc.
  - intros pre d1 d2 post -> H1 H2 Hp Hleft.
    pose proof (range_search_leftmost pre d1 d2 post H1 H2 Hp Hleft) as Hs.
    assert (E : resolve_range (Some (pre ++ header_of d1 d2 ++ post)) fileSize
                = resolve_range (Some (header_of d1 d2)) fileSize).
    { rewrite <- (app_nil_r (header_of d1 d2)) at 2.
      rewrite (resolve_header d1 d2 []) by auto.
      destruct (pre ++ header_of d1 d2 ++ post) as [|c r] eqn:Eh.
      - apply app_eq_nil in Eh as [_ Eh]. rewrite header_of_cons in Eh.
        cbn [app] in Eh. discriminate Eh.
      - unfold resolve_range. rewrite Hs. reflexivity. }
    split; [exact E|]. intros -> ->. etransitivity; [exact E|reflexivity].
  - reflexivity.
  - reflexivity.
Qed.

(** C5: when the resolver returns a window for a file whose size a Number
    holds exactly, the window is [start, end] with
    [0 <= start <= end < fileSize] and the handler answers 206 with
    Content-Range [bytes start-end/fileSize], Accept-Ranges [bytes],
    Content-Length [end - start + 1] and Content-Type, and sends exactly the
    bytes [start .. end] of the file, [end - start + 1] of them. *)
Theorem partial_content_response (id name : jsstring) (range : option jsstring)
        (content : buffer) (a b : number) :
  fromBase64Url id = Ok name ->
  fs_resolve fs (path_join MEDIA_DIR name) = Some (File content) ->
  safe_size (Z.of_nat (length content)) ->
  resolve_range range (Fin (Z.of_nat (length content))) = Window a b ->
  exists s e,
    a = Fin s /\ b = Fin e /\ 0 <= s <= e /\ e < Z.of_nat (length content)
    /\ run (stream_handler id range)
       = Val (mkResponse 206
                [(js "Content-Range",
                  HStr (js "bytes " ++ num_to_string (Fin s) ++ js "-"
                          ++ num_to_string (Fin e) ++ js "/"
                          ++ num_to_string (Fin (Z.of_nat (length content)))));
                 (js "Accept-Ranges", HStr (js "bytes"));
                 (js "Content-Length", HNum (Fin (e - s + 1)));
                 (js "Content-Type",
                  HStr (mime_or_default (path_join MEDIA_DIR name)))]
                (BodyBytes (byte_range content s e)))
    /\ Z.of_nat (length (byte_range content s e)) = e - s + 1.
Proof.
  intros Hid Hf Hs Hw.
  destruct (resolve_range_window _ _ _ _ Hw) as (s & e & -> & -> & Hb & He).
  exists s, e. repeat split; try lia.
  - rewrite (stream_handler_found id name range _ Hid Hf).
    cbn [stats_of st_size node_size]. rewrite Hw.
    unfold respond, pipe_file. rewrite Hf. cbn [bind ret app run snd].
    rewrite (chunk_size_exact s e _ Hs Hb He).
    unfold read_window.
    replace ((0 <=? s) && (s <=? e)) with true;
      [reflexivity|].
    symmetry. apply andb_true_intro. split; apply Z.leb_le; lia.
  - apply byte_range_length; lia.
Qed.

(** C6: without a Range header the resolution is the full file whatever the
    size, and the handler answers 200 with Content-Type, Content-Length equal
    to the file size and Accept-Ranges [bytes], and sends the whole file. *)
Theorem full_file_response (id name : jsstring) (content : buffer) :
  fromBase64Url id = Ok name ->
  fs_resolve fs (path_join MEDIA_DIR name) = Some (File content) ->
  resolve_range None (Fin (Z.of_nat (length content))) = FullFile
  /\ run (stream_handler id None)
     = Val (mkResponse 200
              [(js "Content-Type",
                HStr (mime_or_default (path_join MEDIA_DIR name)));
               (js "Content-Length", HNum (Fin (Z.of_nat (length content))));
               (js "Accept-Ranges", HStr (js "bytes"))]
              (BodyBytes content)).
Proof.
  intros Hid Hf. split; [reflexivity|].
  rewrite (stream_handler_found id name None _ Hid Hf).
  cbn [resolve_range respond]. unfold pipe_file. rewrite Hf. reflexivity.
Qed.

Lemma st_size_node (n : node) : st_size (stats_of n) = Fin (node_size n).
Proof. now destruct n. Qed.

(** C7: whenever the resolution is unsatisfiable, whichever branch of the
    handler decided so and whatever the path names, a regular file or not,
    the answer is 416 with Content-Range [bytes */fileSize], where
    [fileSize] is the size that [stat] reports (one that a Number holds
    exactly), and an empty body. *)
Theorem unsatisfiable_response (id name : jsstring) (range : option jsstring)
        (n : node) :
  fromBase64Url id = Ok name ->
  fs_resolve fs (path_join MEDIA_DIR name) = Some n ->
  safe_size (node_size n) ->
  resolve_range range (Fin (node_size n)) = Unsatisfiable ->
  run (stream_handler id range)
  = Val (mkResponse 416
           [(js "Content-Range",
             HStr (js "bytes */" ++ num_to_string (Fin (node_size n))))]
           BodyEmpty).
Proof.
  intros Hid Hn _ Hu.
  rewrite (stream_handler_found id name range _ Hid Hn), st_size_node, Hu.
  reflexivity.
Qed.

(** ** The Media Index *)

(** C1, as the code has it: neither handler checks that the joined path
    stays inside the media root.  For every token the lookup makes one
    access, a stat of [path.join(MEDIA_DIR, decoded)], and answers NotFound
    exactly when that path is not a regular file (the stat failing
    included) or the extension of the decoded value, not of the joined
    path, is not allowed; otherwise it describes the file found there.  The
    stream handler touches that path and no other and answers the 404 error
    exactly when it does not exist.  As a string, the joined path is the
    root or lies below it whenever the decoded value has no [..] segment,
    an absolute decoded value included. *)
Theorem lookup_joins_without_containment (id : jsstring)
        (range : option jsstring) :
  exists name rest,
    fromBase64Url id = Ok name
    /\ trace (getMediaById id) = [OpStat (path_join MEDIA_DIR name)]
    /\ (run (getMediaById id) = Val None <->
        (forall content,
            fs_resolve fs (path_join MEDIA_DIR name) <> Some (File content))
        \/ set_has VIDEO_EXTS (toLowerCase (path_extname name)) = false)
    /\ (forall content,
          fs_resolve fs (path_join MEDIA_DIR name) = Some (File content) ->
          set_has VIDEO_EXTS (toLowerCase (path_extname name)) = true ->
          run (getMediaById id)
          = Val (Some (mkMeta id name (Fin (Z.of_nat (length content)))
                         (mime_or_default name))))
    /\ trace (stream_handler id range)
       = OpExists (path_join MEDIA_DIR name) :: rest
    /\ Forall (fun o => op_path o = path_join MEDIA_DIR name) rest
    /\ (run (stream_handler id range) = Val (json_error 404 msg_not_found)
        <-> fs_resolve fs (path_join MEDIA_DIR name) = None)
    /\ (no_dotdot name = true ->
        within_root (path_join MEDIA_DIR name) = true).
Proof.
  destruct (fromBase64Url_total id) as [k Hk].
  destruct (fromBase64Url id) as [name|e] eqn:Hid; [clear Hk|discriminate].
  destruct (stream_handler_accesses id name range Hid) as (rest & Ht & Hall).
  exists name, rest. split; [reflexivity|].
  rewrite (getMediaById_decoded id name Hid). cbn [trace run fst snd].
  split; [reflexivity|]. unfold lookup_answer.
  split; [|split; [|split; [exact Ht|split; [exact Hall|split]]]].
  - destruct (fs_resolve fs (path_join MEDIA_DIR name))
      as [[content|r s sz es|sz]|];
      [destruct (set_has VIDEO_EXTS (toLowerCase (path_extname name)))
         eqn:Hext|..];
      split; intros H; try reflexivity; try discriminate H;
      try (left; intros content'; discriminate);
      try (right; reflexivity).
    destruct H as [H|H]; [now contradiction (H content)|discriminate H].
  - intros content -> ->. reflexivity.
  - split.
    + intros H.
      destruct (fs_resolve fs (path_join MEDIA_DIR name)) as [n|] eqn:En;
        [|reflexivity].
      rewrite (stream_handler_found id name range n Hid En) in H.
      destruct (resolve_range range (st_size (stats_of n)));
        cbn [respond pipe_file bind ret app run snd] in H; discriminate H.
    + now apply stream_handler_missing.
  - apply join_stays_within.
Qed.

(** Whatever exception leaves the loop of [listMedia] comes from a [stat],
    when the exceptions of the recursive calls do. *)
Lemma scan_entries_exceptions (recur : jsstring -> M (list media_item))
      (dir : jsstring) :
  (forall p e, run (recur p) = Exc e -> stat_error e) ->
  forall es items e,
    run (scan_entries recur dir es items) = Exc e -> stat_error e.
Proof.
  intros Hrec. induction es as [|d es IH]; intros items e H.
  - discriminate H.
  - cbn [scan_entries] in H. cbv zeta in H.
    destruct (d_isDirectory d).
    + apply run_bind_inv in H as [H|(sub & _ & H)];
        [now apply (Hrec _ _ H)|now apply (IH _ _ H)].
    + destruct (negb (d_isFile d)); [now apply (IH _ _ H)|].
      destruct (negb (set_has VIDEO_EXTS _)); [now apply (IH _ _ H)|].
      apply run_bind_inv in H as [H|(st & _ & H)]; [|now apply (IH _ _ H)].
      unfold fsp_stat in H. cbn [run snd] in H.
      destruct (fs_lookup fs _) as [n|code]; [discriminate H|].
      injection H as <-. now exists code.
Qed.

Lemma listMedia_exceptions (fuel : nat) :
  forall dir e, run (listMedia fuel dir) = Exc e -> stat_error e.
Proof.
  induction fuel as [|fuel IH]; intros dir e H; [discriminate H|].
  cbn [listMedia] in H.
  destruct (fsp_readdir dir) as [t [entries|e'|]];
    cbn [attempt bind ret] in H; try discriminate H.
  destruct (scan_entries (listMedia fuel) dir entries []) as [t' o] eqn:Es.
  cbn [run snd] in H. subst o.
  apply (scan_entries_exceptions (listMedia fuel) dir IH entries [] e).
  now rewrite Es.
Qed.

Lemma listMedia_unreadable (fuel : nat) (dir : jsstring) :
  (exists e, run (fsp_readdir dir) = Exc e) ->
  listMedia (S fuel) dir = ([OpReaddir dir], Val []).
Proof.
  intros [e He]. cbn [listMedia]. unfold fsp_readdir in *.
  cbn [run snd] in He.
  destruct (fs_lookup fs dir) as [[|[] s sz es|sz]|code]; try discriminate;
    reflexivity.
Qed.

(** C8: a directory whose listing fails, the media root or any directory
    below it, yields no entries and no error: [listMedia] returns the empty
    list for it, so GET /media answers 200 with the empty list when it is
    the root, and the loop of the calling [listMedia] goes on with the
    entries after it exactly as if the directory were not there.  No failed
    listing is ever propagated: an exception that leaves [listMedia], or
    GET /media, comes from a [stat].  On a well-formed tree in which no
    listed video is out of reach of [stat], the scan returns the catalogue,
    whatever directories cannot be read. *)
Theorem unreadable_directory_swallowed (fuel : nat) (dir : jsstring) :
  ((exists e, run (fsp_readdir dir) = Exc e) ->
   listMedia (S fuel) dir = ([OpReaddir dir], Val [])
   /\ (dir = MEDIA_DIR ->
       run (media_handler (S fuel)) = Val (mkResponse 200 [] (BodyItems []))))
  /\ (forall parent d es items,
        d_isDirectory d = true -> dir = path_join parent (d_name d) ->
        (exists e, run (fsp_readdir dir) = Exc e) ->
        scan_entries (listMedia (S fuel)) parent (d :: es) items
        = (OpReaddir dir
             :: trace (scan_entries (listMedia (S fuel)) parent es items),
           run (scan_entries (listMedia (S fuel)) parent es items)))
  /\ (forall e, run (listMedia fuel dir) = Exc e -> stat_error e)
  /\ (forall e, run (media_handler fuel) = Exc e -> stat_error e)
  /\ (forall root,
        wf_fs fs = true -> fs_resolve fs MEDIA_DIR = Some root ->
        (height root < fuel)%nat -> stat_denied root = false ->
        run (listMedia fuel MEDIA_DIR) = Val (spec_catalog [] root)
        /\ run (media_handler fuel)
           = Val (mkResponse 200 [] (BodyItems (spec_catalog [] root)))).
Proof.
  split; [|split; [|split; [|split]]].
  - intros He. pose proof (listMedia_unreadable fuel dir He) as Hl.
    split; [exact Hl|]. intros ->. unfold media_handler. now rewrite Hl.
  - intros parent d es items Hd -> He.
    pose proof (listMedia_unreadable fuel _ He) as Hl.
    cbn [scan_entries]. cbv zeta. rewrite Hd, Hl. cbn [bind].
    rewrite app_nil_r.
    destruct (scan_entries (listMedia (S fuel)) parent es items).
    reflexivity.
  - apply listMedia_exceptions.
  - intros e H. unfold media_handler in H.
    apply run_bind_inv in H as [H|(items & _ & H)]; [|discriminate H].
    now apply (listMedia_exceptions fuel MEDIA_DIR).
  - intros root Hwf Hres Hh Hsafe.
    pose proof (listMedia_root fuel root Hwf Hres Hh) as Hcat.
    unfold scan_outcome in Hcat. rewrite Hsafe in Hcat.
    split; [exact Hcat|].
    unfold media_handler. now rewrite (run_bind _ _ _ Hcat).
Qed.

(** C9, as the code has it: for every entry of the catalogue of an unchanged
    root, files in subdirectories included, the lookup of its id answers 200
    with the same id, size and mime type; the answer has no path field, and
    its name is the entry's name when the file lies directly in the root. *)
Theorem lookup_of_catalog_entry (fuel : nat) (root : node)
        (items : list media_item) (e : media_item) :
  toLowerCase [] = [] ->
  wf_fs fs = true -> fs_resolve fs MEDIA_DIR = Some root ->
  (height root < fuel)%nat ->
  run (listMedia fuel MEDIA_DIR) = Val items ->
  In e items ->
  exists m,
    run (getMediaById (item_id e)) = Val (Some m)
    /\ run (media_id_handler (item_id e)) = Val (mkResponse 200 [] (BodyMeta m))
    /\ meta_id m = item_id e
    /\ meta_size m = item_size e
    /\ meta_mime m = item_mime e
    /\ (item_path e = item_name e -> meta_name m = item_name e)
    /\ run (media_handler fuel) = Val (mkResponse 200 [] (BodyItems items)).
Proof.
  intros Hlow Hwf Hres Hh Hrun Hin.
  destruct (listMedia_returns fuel root items Hwf Hres Hh Hrun)
    as (-> & Hd & Hnul & Hdesc & Hwr).
  assert (Hget : run (media_handler fuel)
                 = Val (mkResponse 200 [] (BodyItems (spec_catalog [] root))))
    by (unfold media_handler; now rewrite (run_bind _ _ _ Hrun)).
  destruct (catalog_item_file (height root) root [] e (le_n _) Hwr Hin)
    as (path & nm & content & Hv & Hfile & Hext & ->).
  cbn [app item_id item_name item_path item_size item_mime].
  assert (Hlook : run (getMediaById (toBase64Url (join_slash (path ++ [nm]))))
                  = Val (Some (mkMeta (toBase64Url (join_slash (path ++ [nm])))
                                 (join_slash (path ++ [nm]))
                                 (Fin (Z.of_nat (length content)))
                                 (mime_or_default nm)))).
  { apply getMediaById_file; auto.
    now rewrite descend_app, Hdesc. }
  eexists. split; [exact Hlook|].
  split; [unfold media_id_handler; now rewrite (run_bind _ _ _ Hlook)|].
  cbn [meta_id meta_size meta_mime meta_name]. auto.
Qed.

(** * Further properties of the code *)

(** ** The codec on arbitrary strings and on padded identifiers *)

Lemma toWellFormed_encode (s : jsstring) :
  code_units s = true ->
  wf_utf16 (toWellFormed s) = true
  /\ utf8_encode (toWellFormed s) = utf8_encode s.
Proof.
  unfold code_units.
  assert (G : forall n s, (length s <= n)%nat ->
                forallb (fun c => (0 <=? c) && (c <=? 0xFFFF)) s = true ->
                wf_utf16 (toWellFormed s) = true
                /\ utf8_encode (toWellFormed s) = utf8_encode s);
    [|intros H; now apply (G (length s))].
  clear s. induction n as [|n IHn]; intros [|c t] Hlen H;
    try (split; reflexivity); [cbn in Hlen; lia|].
  assert (IH : forall x, (length x <= length t)%nat ->
                 forallb (fun c => (0 <=? c) && (c <=? 0xFFFF)) x = true ->
                 wf_utf16 (toWellFormed x) = true
                 /\ utf8_encode (toWellFormed x) = utf8_encode x).
  { intros x Hx. apply IHn. cbn in Hlen. lia. }
  clear IHn Hlen.
  - cbn [forallb] in H. apply andb_prop in H as [Hc Ht].
    cbn [toWellFormed utf8_encode].
    destruct (is_high_surrogate c) eqn:Eh.
    + destruct t as [|d t']; [split; reflexivity|].
      destruct (is_low_surrogate d) eqn:El.
      * cbn [forallb] in Ht. apply andb_prop in Ht as [_ Ht'].
        destruct (IH t' (Nat.le_succ_diag_r _) Ht') as [Hw He].
        cbn [wf_utf16 utf8_encode]. rewrite Eh, El, Hw, He. split; reflexivity.
      * destruct (IH (d :: t') (le_n _) Ht) as [Hw He].
        split.
        -- change (wf_utf16 (0xFFFD :: toWellFormed (d :: t')))
             with (true && wf_utf16 (toWellFormed (d :: t'))).
           now rewrite Hw.
        -- change (utf8_encode (0xFFFD :: toWellFormed (d :: t')))
             with (utf8_replacement ++ utf8_encode (toWellFormed (d :: t'))).
           now rewrite He.
    + destruct (IH t (le_n _) Ht) as [Hw He].
      destruct (is_low_surrogate c) eqn:El.
      * split.
        -- change (wf_utf16 (0xFFFD :: toWellFormed t))
             with (true && wf_utf16 (toWellFormed t)).
           now rewrite Hw.
        -- change (utf8_encode (0xFFFD :: toWellFormed t))
             with (utf8_replacement ++ utf8_encode (toWellFormed t)).
           now rewrite He.
      * cbn [wf_utf16 utf8_encode]. rewrite Eh, El, Hw, He.
        apply andb_prop in Hc as [H0 H1]. rewrite H0, H1. split; reflexivity.
Qed.

Lemma toBase64Url_wellFormed (s : jsstring) :
  code_units s = true -> toBase64Url (toWellFormed s) = toBase64Url s.
Proof.
  intros H. unfold toBase64Url.
  now destruct (toWellFormed_encode s H) as [_ ->].
Qed.

(** X1: on any string, decoding the token gives the string with every
    unpaired surrogate replaced by U+FFFD, and two strings have the same
    token exactly when these well-formed forms coincide. *)
Theorem token_roundtrip_any_string (s : jsstring) :
  code_units s = true ->
  fromBase64Url (toBase64Url s) = Ok (toWellFormed s)
  /\ (forall s', code_units s' = true ->
        (toBase64Url s' = toBase64Url s
         <-> toWellFormed s' = toWellFormed s)).
Proof.
  intros H.
  assert (R : forall x, code_units x = true ->
                fromBase64Url (toBase64Url x) = Ok (toWellFormed x)).
  { intros x Hx. rewrite <- (toBase64Url_wellFormed x Hx).
    apply codec_roundtrip. now destruct (toWellFormed_encode x Hx). }
  split; [now apply R|].
  intros s' H'. split.
  - intros E. pose proof (R s' H') as R1. rewrite E, (R s H) in R1.
    congruence.
  - intros E. rewrite <- (toBase64Url_wellFormed s' H'), E.
    now apply toBase64Url_wellFormed.
Qed.

Lemma b64_char_plain (v : Z) :
  is_sextet v = true ->
  let c := b64_char v in
  (if (if c =? 45 then 43 else c) =? 95 then 47
   else if c =? 45 then 43 else c) = c
  /\ c mod 256 = c /\ c <> 61 /\ unbase64 c = Some v.
Proof.
  forget_server.
  unfold is_sextet, b64_char, unbase64. intros H. zbool.
  cbv zeta. split_ifs; (split; [lia|]);
    (split; [apply Z.mod_small; lia|]); (split; [lia|]);
    decide_tests; cbn [andb orb]; f_equal; lia.
Qed.

Lemma b64_sextets_standard (vs : list Z) (k : nat) :
  forallb is_sextet vs = true ->
  b64_sextets (replace_all 95 47 (replace_all 45 43 (map b64_char vs))
                 ++ repeat 61 k) = vs.
Proof.
  induction vs as [|v vs IH]; intros H.
  - simpl. destruct k; reflexivity.
  - cbn [forallb] in H. apply andb_prop in H as [Hv Hvs].
    destruct (b64_char_plain v Hv) as (Hp & Hlow & Hne & Hun).
    cbv zeta in Hp.
    cbn [map replace_all app]. unfold replace_all in IH.
    rewrite Hp. cbn [b64_sextets]. cbv zeta.
    apply Z.eqb_neq in Hne.
    rewrite Hlow, Hne, Hun, IH by assumption. reflexivity.
Qed.

(** X2: an identifier need not be the canonical token.  The standard base64
    form of a path, with [+], [/] and its padding, decodes to the path, and
    so does the URL-safe form with the padding left on. *)
Theorem padded_identifier_decodes (p : jsstring) :
  wf_utf16 p = true ->
  fromBase64Url (base64_encode (utf8_encode p)) = Ok p
  /\ fromBase64Url
       (replace_all 47 95 (replace_all 43 45 (base64_encode (utf8_encode p))))
     = Ok p.
Proof.
  intros Hwf. pose proof (utf8_encode_bytes p Hwf) as Hb.
  pose proof (sextets_of_range _ Hb) as Hr.
  split.
  - destruct (fromBase64Url_total (base64_encode (utf8_encode p))) as [k ->].
    rewrite base64_encode_form, !replace_all_app, !replace_all_repeat by lia.
    rewrite <- app_assoc, <- repeat_app. unfold base64_decode.
    rewrite b64_sextets_standard by exact Hr.
    now rewrite b64_pack_sextets, utf8_roundtrip.
  - destruct (fromBase64Url_total
                (replace_all 47 95
                   (replace_all 43 45 (base64_encode (utf8_encode p)))))
      as [k ->].
    rewrite base64_encode_form, !replace_all_app, !replace_all_repeat by lia.
    replace (replace_all 47 95
               (replace_all 43 45 (map b64_char (sextets_of (utf8_encode p)))))
      with (map url_char (sextets_of (utf8_encode p)))
      by (unfold replace_all; rewrite !map_map; reflexivity).
    rewrite <- app_assoc, <- repeat_app. unfold base64_decode.
    rewrite b64_sextets_token by exact Hr.
    now rewrite b64_pack_sextets, utf8_roundtrip.
Qed.

(** ** What any identifier decodes to *)

Lemma utf8_lead_ok (b : Z) :
  0 <= b ->
  Forall is_scalar (fst (utf8_lead b)) /\ state_ok (snd (utf8_lead b)).
Proof.
  forget_server.
  intros Hb. unfold utf8_lead.
  repeat match goal with
         | |- context [if ?c then _ else _] =>
           destruct c eqn:?; zbool; try lia
         end;
    cbn [fst snd state_ok cont_ok];
    (split;
     [ repeat constructor; unfold is_scalar; lia
     | try exact I; intros; unfold is_scalar; lia ]).
Qed.

Lemma utf8_decode_from_scalar (bs : buffer) :
  Forall (fun b => 0 <= b) bs ->
  forall st, state_ok st -> Forall is_scalar (utf8_decode_from st bs).
Proof.
  forget_server.
  assert (Hrep : is_scalar 0xFFFD) by (unfold is_scalar; lia).
  induction 1 as [|b bs Hb Hbs IH]; intros st Hst.
  - destruct st; [constructor|constructor; [exact Hrep|constructor]].
  - cbn [utf8_decode_from].
    destruct (utf8_lead_ok b Hb) as [Hout Hnext].
    destruct st as [|cp needed lower upper].
    + destruct (utf8_lead b) as [out st']. apply Forall_app. split.
      * exact Hout.
      * apply IH. exact Hnext.
    + cbn [state_ok] in Hst.
      destruct ((lower <=? b) && (b <=? upper)) eqn:E; zbool.
      * destruct needed as [|n]; cbn [cont_ok] in Hst.
        -- constructor; [apply Hst; lia|]. apply IH. exact I.
        -- apply IH. cbn [state_ok]. apply Hst. lia.
      * destruct (utf8_lead b) as [out st']. constructor; [exact Hrep|].
        apply Forall_app. split; [exact Hout|]. apply IH. exact Hnext.
      * destruct (utf8_lead b) as [out st']. constructor; [exact Hrep|].
        apply Forall_app. split; [exact Hout|]. apply IH. exact Hnext.
Qed.

Lemma utf16_of_scalars_wf (cps : list Z) :
  Forall is_scalar cps -> wf_utf16 (flat_map utf16_of_cp cps) = true.
Proof.
  forget_server.
  induction 1 as [|cp cps [Hr Hs] _ IH]; [reflexivity|].
  cbn [flat_map]. unfold utf16_of_cp at 1.
  destruct (cp <? 0x10000) eqn:E; zbool; cbn [app wf_utf16].
  - unfold is_high_surrogate, is_low_surrogate. rewrite IH.
    destruct (0xD800 <=? cp) eqn:E1; destruct (cp <=? 0xDBFF) eqn:E2;
      destruct (0xDC00 <=? cp) eqn:E3; destruct (cp <=? 0xDFFF) eqn:E4;
      zbool; cbn [andb negb]; try lia; decide_tests; reflexivity.
  - unfold is_high_surrogate, is_low_surrogate. rewrite IH.
    assert (Hq : 0 <= (cp - 0x10000) / 1024 <= 0x3FF)
      by (Z.div_mod_to_equations; lia).
    assert (Hm : 0 <= (cp - 0x10000) mod 1024 <= 0x3FF)
      by (Z.div_mod_to_equations; lia).
    decide_tests. reflexivity.
Qed.

Lemma unbase64_range (c v : Z) : unbase64 c = Some v -> 0 <= v <= 63.
Proof.
  forget_server.
  unfold unbase64. intros H.
  split_ifs; first [discriminate H | injection H as <-; lia].
Qed.

Lemma b64_sextets_range (s : jsstring) :
  Forall (fun v => 0 <= v <= 63) (b64_sextets s).
Proof.
  induction s as [|x t IH]; [constructor|].
  cbn [b64_sextets]. cbv zeta. destruct (x mod 256 =? 61); [constructor|].
  destruct (unbase64 (x mod 256)) as [v|] eqn:E; [|exact IH].
  constructor; [exact (unbase64_range _ v E)|exact IH].
Qed.

Lemma b64_pack_nonneg (n : nat) :
  forall vs, (length vs <= n)%nat ->
             Forall (fun v => 0 <= v <= 63) vs ->
             Forall (fun b => 0 <= b) (b64_pack vs).
Proof.
  forget_server.
  induction n as [|n IH]; intros vs Hn Hvs.
  - destruct vs; [constructor|cbn in Hn; lia].
  - destruct vs as [|a [|b [|c [|d t]]]]; try solve [cbn; constructor].
    + inversion Hvs as [|? ? Ha Hvs1]; subst.
      inversion Hvs1 as [|? ? Hb _]; subst.
      cbn [b64_pack]. repeat constructor. Z.div_mod_to_equations; lia.
    + inversion Hvs as [|? ? Ha Hvs1]; subst.
      inversion Hvs1 as [|? ? Hb Hvs2]; subst.
      inversion Hvs2 as [|? ? Hc _]; subst.
      cbn [b64_pack]. repeat constructor; Z.div_mod_to_equations; lia.
    + inversion Hvs as [|? ? Ha Hvs1]; subst.
      inversion Hvs1 as [|? ? Hb Hvs2]; subst.
      inversion Hvs2 as [|? ? Hc Hvs3]; subst.
      inversion Hvs3 as [|? ? Hd Ht]; subst.
      cbn [b64_pack].
      repeat (constructor; [Z.div_mod_to_equations; lia|]).
      apply IH; [cbn in Hn; lia|exact Ht].
Qed.

Lemma utf8_decode_wf (s : jsstring) :
  wf_utf16 (utf8_decode (base64_decode s)) = true.
Proof.
  unfold utf8_decode, base64_decode.
  apply utf16_of_scalars_wf, utf8_decode_from_scalar; [|exact I].
  apply (b64_pack_nonneg (length (b64_sextets s))); [apply le_n|].
  apply b64_sextets_range.
Qed.

(** X10: whatever identifier a request carries, well formed Base64 or not,
    decoding it never throws and yields a well-formed string, and that
    string is a fixed point of the codec: its token decodes to it again. *)
Theorem decoded_identifier_is_canonical (id : jsstring) :
  exists name,
    fromBase64Url id = Ok name
    /\ wf_utf16 name = true
    /\ fromBase64Url (toBase64Url name) = Ok name.
Proof.
  forget_server.
  destruct (fromBase64Url_total id) as [k Hk].
  eexists. split; [exact Hk|].
  pose proof (utf8_decode_wf
                (replace_all 95 47 (replace_all 45 43 id) ++ repeat 61 k))
    as Hwf.
  split; [exact Hwf|]. apply codec_roundtrip. exact Hwf.
Qed.

(** ** What the catalogue holds *)

Lemma within_root_below (sub : list jsstring) :
  forallb valid_seg sub = true ->
  within_root (abs_path (root_segs ++ sub)) = true.
Proof.
  intros H. unfold within_root.
  rewrite resolve_segs_abs
    by (rewrite forallb_app, root_segs_valid, H; reflexivity).
  apply seg_prefix_app.
Qed.

(** X3: every entry that the scan of the media root returns describes an
    existing regular file inside the root: the entry's path, joined to the
    root, resolves to a file whose length is the entry's size; the name is
    the last segment of the path and has an allowed extension; the id is
    the token of the path and the mime type is that of the name. *)
Theorem catalog_entries_are_video_files (fuel : nat) (root : node)
        (items : list media_item) (e : media_item) :
  wf_fs fs = true -> fs_resolve fs MEDIA_DIR = Some root ->
  (height root < fuel)%nat ->
  run (listMedia fuel MEDIA_DIR) = Val items ->
  In e items ->
  exists dirs content,
    item_path e = join_slash (dirs ++ [item_name e])
    /\ fs_resolve fs (path_join MEDIA_DIR (item_path e)) = Some (File content)
    /\ within_root (path_join MEDIA_DIR (item_path e)) = true
    /\ item_size e = Fin (Z.of_nat (length content))
    /\ set_has VIDEO_EXTS (toLowerCase (path_extname (item_name e))) = true
    /\ item_id e = toBase64Url (item_path e)
    /\ item_mime e = mime_or_default (item_name e).
Proof.
  intros Hwf Hres Hh Hrun Hin.
  destruct (listMedia_returns fuel root items Hwf Hres Hh Hrun)
    as (-> & Hd & Hnul & Hdesc & Hwr).
  destruct (catalog_item_file (height root) root [] e (le_n _) Hwr Hin)
    as (path & nm & content & Hv & Hfile & Hext & ->).
  pose proof root_segs_valid as Hroot.
  pose proof (valid_names_segs _ Hv) as Hvs.
  exists path, content.
  cbn [app item_id item_name item_path item_size item_mime].
  rewrite MEDIA_DIR_segs, path_join_below; [|exact Hroot|exact Hvs|nonnil].
  rewrite fs_resolve_abs;
    [|exact Hd|rewrite forallb_app, Hroot, Hvs; reflexivity
     |now apply has_nul_abs_below].
  rewrite descend_app, Hdesc, within_root_below by exact Hvs.
  repeat split; auto.
Qed.

Lemma descend_listed_catalog (segs : list jsstring) :
  forall (n : node) (sub : list jsstring) (nm : jsstring) (content : buffer),
    descend_listed n (segs ++ [nm]) = Some (File content) ->
    set_has VIDEO_EXTS (toLowerCase (path_extname nm)) = true ->
    In (mkItem (toBase64Url (join_slash (sub ++ segs ++ [nm]))) nm
          (join_slash (sub ++ segs ++ [nm]))
          (Fin (Z.of_nat (length content))) (mime_or_default nm))
       (spec_catalog sub n).
Proof.
  induction segs as [|seg segs IH]; intros n sub nm content Hd Hext.
  - cbn [app descend_listed] in Hd.
    destruct n as [|[] [] sz es|sz]; try discriminate.
    destruct (assoc nm es) as [child|] eqn:Ea; [|discriminate].
    cbn in Hd. injection Hd as ->. apply assoc_some in Ea.
    rewrite spec_catalog_dir. apply in_flat_map.
    exists (nm, File content). split; [exact Ea|].
    cbn [catalog_entry app]. rewrite Hext. now left.
  - cbn [app descend_listed] in Hd.
    destruct n as [|[] [] sz es|sz]; try discriminate.
    destruct (assoc seg es) as [child|] eqn:Ea; [|discriminate].
    apply assoc_some in Ea.
    rewrite spec_catalog_dir. apply in_flat_map.
    exists (seg, child). split; [exact Ea|].
    destruct child as [c|r s sz' es'|sz'].
    + destruct segs; discriminate.
    + cbn [catalog_entry].
      replace (sub ++ (seg :: segs) ++ [nm])
        with ((sub ++ [seg]) ++ segs ++ [nm])
        by (now rewrite <- app_assoc).
      now apply IH.
    + destruct segs; discriminate.
Qed.

(** X4: the scan misses nothing it can reach: a regular file with an
    allowed extension that lies below the root through directories that can
    all be listed and searched has its entry in the catalogue, with the
    token of its relative path as id and its length as size. *)
Theorem reachable_videos_are_listed (fuel : nat) (root : node)
        (items : list media_item) (segs : list jsstring) (nm : jsstring)
        (content : buffer) :
  wf_fs fs = true -> fs_resolve fs MEDIA_DIR = Some root ->
  (height root < fuel)%nat ->
  run (listMedia fuel MEDIA_DIR) = Val items ->
  descend_listed root (segs ++ [nm]) = Some (File content) ->
  set_has VIDEO_EXTS (toLowerCase (path_extname nm)) = true ->
  In (mkItem (toBase64Url (join_slash (segs ++ [nm]))) nm
        (join_slash (segs ++ [nm]))
        (Fin (Z.of_nat (length content))) (mime_or_default nm))
     items.
Proof.
  intros Hwf Hres Hh Hrun Hd Hext.
  destruct (listMedia_returns fuel root items Hwf Hres Hh Hrun) as (-> & _).
  now apply (descend_listed_catalog segs root []).
Qed.

(** ** Identifiers of the catalogue are distinct *)

Lemma join_slash_inj (a b : list jsstring) :
  forallb valid_seg a = true -> forallb valid_seg b = true ->
  a <> [] -> b <> [] -> join_slash a = join_slash b -> a = b.
Proof.
  intros Ha Hb Na Nb E.
  rewrite <- (split_join a Ha Na), <- (split_join b Hb Nb). now rewrite E.
Qed.

(** The path of every item that an entry contributes begins, below [sub],
    with the entry's name. *)
Lemma catalog_entry_paths (sub : list jsstring) (nm : jsstring) (c : node)
      (it : media_item) :
  valid_name nm = true -> wf_node c = true ->
  In it (catalog_entry sub (nm, c)) ->
  exists rest,
    forallb valid_name rest = true
    /\ item_path it = join_slash (sub ++ nm :: rest)
    /\ item_id it = toBase64Url (item_path it).
Proof.
  intros Hnm Hwf Hin.
  destruct c as [content|r s sz es|sz]; cbn [catalog_entry] in Hin.
  - destruct (set_has VIDEO_EXTS (toLowerCase (path_extname nm)));
      [|contradiction].
    destruct Hin as [<-|[]]. exists []. repeat split.
  - destruct (catalog_item_file (height (Dir r s sz es)) (Dir r s sz es)
                (sub ++ [nm]) it (le_n _) Hwf Hin)
      as (path & nm' & content & Hv & _ & _ & ->).
    exists (path ++ [nm']). cbn [item_path item_id].
    rewrite <- !app_assoc. repeat split. exact Hv.
  - contradiction.
Qed.

Lemma catalog_paths_distinct (h : nat) :
  forall (n : node) (sub : list jsstring),
    (height n <= h)%nat -> wf_node n = true ->
    forallb valid_name sub = true ->
    NoDup (map item_path (spec_catalog sub n)).
Proof.
  induction h as [|h IH]; intros n sub Hh Hwf Hsub.
  - destruct n as [|r s sz es|sz]; try constructor. cbn in Hh. lia.
  - destruct n as [|r s sz es|sz]; try constructor.
    destruct r; [|constructor]. destruct s; [|constructor].
    rewrite spec_catalog_dir.
    assert (Hall : forall nm c, In (nm, c) es ->
                     valid_name nm = true /\ wf_node c = true
                     /\ (height c <= h)%nat).
    { intros nm c Hin.
      destruct (wf_child true true sz es nm c Hwf Hin) as [H1 H2].
      pose proof (height_child true true sz es nm c Hin).
      repeat split; auto. lia. }
    assert (Hdist : names_distinct (map fst es) = true)
      by (cbn [wf_node] in Hwf; now apply andb_prop in Hwf).
    clear Hwf Hh. induction es as [|[nm c] es IHes]; [constructor|].
    cbn [flat_map]. rewrite map_app.
    cbn [map fst names_distinct] in Hdist.
    apply andb_prop in Hdist as [Hfresh Hdist].
    apply negb_true_iff in Hfresh.
    destruct (Hall nm c (or_introl eq_refl)) as (Hnm & Hwc & Hhc).
    apply NoDup_app.
    + destruct c as [content|r' s' sz' es'|sz']; cbn [catalog_entry].
      * destruct (set_has VIDEO_EXTS (toLowerCase (path_extname nm)));
          repeat constructor. intros [].
      * apply IH; auto. rewrite forallb_app, Hsub. cbn. now rewrite Hnm.
      * constructor.
    + apply IHes; [|exact Hdist]. intros nm' c' Hin. apply Hall. now right.
    + intros p Hp1 Hp2.
      apply in_map_iff in Hp1 as (it1 & <- & Hin1).
      apply in_map_iff in Hp2 as (it2 & E & Hin2).
      apply in_flat_map in Hin2 as ([nm2 c2] & Hin2 & Hit2).
      destruct (Hall nm2 c2 (or_intror Hin2)) as (Hnm2 & Hwc2 & _).
      destruct (catalog_entry_paths sub nm c it1 Hnm Hwc Hin1)
        as (r1 & Hv1 & E1 & _).
      destruct (catalog_entry_paths sub nm2 c2 it2 Hnm2 Hwc2 Hit2)
        as (r2 & Hv2 & E2 & _).
      rewrite E1, E2 in E.
      apply join_slash_inj in E; try nonnil;
        try (apply valid_names_segs; rewrite forallb_app, Hsub; cbn;
             rewrite ?Hnm, ?Hnm2, ?Hv1, ?Hv2; reflexivity).
      apply app_inv_head in E. injection E as E _. subst nm2.
      assert (Hs : set_has (map fst es) nm = true).
      { apply set_has_in. apply in_map_iff. now exists (nm, c2). }
      congruence.
Qed.

Lemma NoDup_map_transfer {A B C} (f : A -> B) (g : A -> C) (l : list A) :
  NoDup (map f l) ->
  (forall x y, In x l -> In y l -> g x = g y -> f x = f y) ->
  NoDup (map g l).
Proof.
  induction l as [|a l IH]; intros Hn Hfg; [constructor|].
  cbn [map] in *. apply NoDup_cons_iff in Hn as [Hna Hn].
  constructor.
  - intros Hin. apply in_map_iff in Hin as (y & E & Hy).
    apply Hna. apply in_map_iff. exists y. split; [|exact Hy].
    apply Hfg; [now right|now left|exact E].
  - apply IH; [exact Hn|]. intros x y Hx Hy. apply Hfg; now right.
Qed.

(** X5: no two entries of the catalogue have the same path, and no two have
    the same id: an id of the catalogue names one entry. *)
Theorem catalog_ids_distinct (fuel : nat) (root : node)
        (items : list media_item) :
  wf_fs fs = true -> fs_resolve fs MEDIA_DIR = Some root ->
  (height root < fuel)%nat ->
  run (listMedia fuel MEDIA_DIR) = Val items ->
  NoDup (map item_path items) /\ NoDup (map item_id items).
Proof.
  intros Hwf Hres Hh Hrun.
  destruct (listMedia_returns fuel root items Hwf Hres Hh Hrun)
    as (-> & Hd & Hnul & Hdesc & Hwr).
  pose proof (catalog_paths_distinct (height root) root [] (le_n _) Hwr eq_refl)
    as Hp.
  split; [exact Hp|].
  apply (NoDup_map_transfer item_path item_id); [exact Hp|].
  intros x y Hx Hy E.
  destruct (catalog_item_file (height root) root [] x (le_n _) Hwr Hx)
    as (p1 & n1 & c1 & Hv1 & _ & _ & ->).
  destruct (catalog_item_file (height root) root [] y (le_n _) Hwr Hy)
    as (p2 & n2 & c2 & Hv2 & _ & _ & ->).
  cbn [item_id item_path app] in *.
  pose proof (codec_roundtrip _ (wf_utf16_join _ Hv1)) as R1.
  pose proof (codec_roundtrip _ (wf_utf16_join _ Hv2)) as R2.
  rewrite E in R1. congruence.
Qed.

(** ** What the scan touches *)

Lemma trace_bind {A B} (c : M A) (k : A -> M B) :
  trace (bind c k)
  = trace c ++ match run c with
               | Val a => trace (k a)
               | _ => []
               end.
Proof.
  destruct c as [t [a|e|]]; cbn; [|now rewrite app_nil_r..].
  now destruct (k a).
Qed.

Lemma scan_entries_accesses
      (recur : jsstring -> M (list media_item)) (sub : list jsstring) :
  forallb valid_name sub = true ->
  forall es items,
    (forall nm c, In (nm, c) es ->
       valid_name nm = true
       /\ (is_dir c = true ->
           Forall scan_access
             (trace (recur (abs_path (root_segs ++ sub ++ [nm])))))) ->
    Forall scan_access
      (trace (scan_entries recur (abs_path (root_segs ++ sub))
                (map dirent_of es) items)).
Proof.
  intros Hsub. pose proof root_segs_valid as Hroot.
  assert (Hsegs : forallb valid_seg (root_segs ++ sub) = true)
    by (rewrite forallb_app, Hroot, valid_names_segs; auto).
  induction es as [|[nm c] es IH]; intros items Hall; [constructor|].
  destruct (Hall nm c (or_introl eq_refl)) as [Hnm Hrec].
  destruct (valid_name_inv nm Hnm) as (Hseg & _ & _).
  assert (Hrest : forall items',
             Forall scan_access
               (trace (scan_entries recur (abs_path (root_segs ++ sub))
                         (map dirent_of es) items'))).
  { intros items'. apply IH. intros nm' c' Hin. apply Hall. now right. }
  cbn [map scan_entries]. cbv zeta.
  destruct c as [content|r' s' sz' es'|sz'];
    cbn [dirent_of fst snd d_isDirectory d_isFile d_name negb];
    try rewrite path_join_name by assumption.
  - destruct (negb (set_has VIDEO_EXTS (toLowerCase (path_extname nm))));
      [apply Hrest|].
    rewrite trace_bind. apply Forall_app. split.
    + repeat constructor. cbn [op_path].
      rewrite <- app_assoc. apply within_root_below.
      rewrite forallb_app, valid_names_segs by exact Hsub.
      cbn. now rewrite Hseg.
    + destruct (run (fsp_stat _)); [apply Hrest|constructor..].
  - rewrite trace_bind. apply Forall_app. split.
    + rewrite <- app_assoc. now apply Hrec.
    + destruct (run (recur _)); [apply Hrest|constructor..].
  - apply Hrest.
Qed.

Lemma listMedia_accesses (fuel : nat) :
  is_dir fs = true -> has_nul MEDIA_DIR = false ->
  forall sub,
    forallb valid_name sub = true ->
    (forall n, descend fs (root_segs ++ sub) = Some n -> wf_node n = true) ->
    Forall scan_access (trace (listMedia fuel (abs_path (root_segs ++ sub)))).
Proof.
  intros Hd Hnul. induction fuel as [|fuel IH]; intros sub Hsub Hwf;
    [constructor|].
  pose proof root_segs_valid as Hroot.
  cbn [listMedia]. rewrite trace_bind. apply Forall_app. split.
  - unfold fsp_readdir.
    destruct (fs_lookup fs _) as [[|[] s sz es|sz]|code]; cbn;
      repeat constructor; apply within_root_below;
      now apply valid_names_segs.
  - unfold fsp_readdir.
    destruct (fs_lookup fs (abs_path (root_segs ++ sub)))
      as [[content|[] s sz es|sz]|code] eqn:El;
      cbn [attempt run snd]; try constructor.
    assert (Hdesc : descend fs (root_segs ++ sub) = Some (Dir true s sz es)).
    { rewrite <- fs_resolve_abs;
        [|exact Hd
         |rewrite forallb_app, Hroot, valid_names_segs; auto
         |now apply has_nul_abs_below].
      unfold fs_resolve. now rewrite El. }
    pose proof (Hwf _ Hdesc) as Hwn.
    apply scan_entries_accesses; [exact Hsub|].
    intros nm c Hin.
    destruct (wf_child true s sz es nm c Hwn Hin) as [Hnm Hc].
    split; [exact Hnm|]. intros _.
    rewrite app_assoc, <- app_assoc. apply (IH (sub ++ [nm])).
    + rewrite forallb_app, Hsub. cbn. now rewrite Hnm.
    + intros n Hn. rewrite app_assoc, descend_app, Hdesc in Hn.
      cbn [descend] in Hn. destruct s; [|discriminate].
      rewrite (assoc_in es nm c) in Hn;
        [|now apply andb_prop in Hwn|exact Hin].
      cbn in Hn. now injection Hn as <-.
Qed.

(** X6: whatever the recursion budget, the scan of the media root only
    lists directories and stats files, all of them inside the root: it
    touches no path outside and reads no file content. *)
Theorem scan_stays_inside_root (fuel : nat) (root : node) :
  wf_fs fs = true -> fs_resolve fs MEDIA_DIR = Some root ->
  Forall scan_access (trace (listMedia fuel MEDIA_DIR)).
Proof.
  intros Hwf Hres.
  destruct (media_root_found root Hwf Hres) as (Hd & Hnul & Hdesc & Hwr).
  rewrite MEDIA_DIR_segs, <- (app_nil_r root_segs).
  apply (listMedia_accesses fuel Hd Hnul []); [reflexivity|].
  intros n Hn. rewrite app_nil_r, Hdesc in Hn. now injection Hn as <-.
Qed.

(** ** The stream handler beside the lookup and the catalogue *)

Lemma stream_handler_trace_found (id name : jsstring) (range : option jsstring)
      (n : node) :
  fromBase64Url id = Ok name ->
  fs_resolve fs (path_join MEDIA_DIR name) = Some n ->
  trace (stream_handler id range)
  = OpExists (path_join MEDIA_DIR name) :: OpStat (path_join MEDIA_DIR name)
      :: trace (respond (path_join MEDIA_DIR name)
                  (mime_or_default (path_join MEDIA_DIR name))
                  (st_size (stats_of n))
                  (resolve_range range (st_size (stats_of n)))).
Proof.
  intros Hid Hn. rewrite stream_handler_factored, Hid. cbv zeta.
  unfold fs_existsSync, fs_statSync, fsp_stat.
  rewrite Hn, (fs_lookup_found _ _ Hn).
  cbn [bind negb app].
  destruct (respond _ _ _ _) as [t r]. reflexivity.
Qed.

(** X7: the stream handler applies neither the extension allow-list nor any
    other filter of the lookup: for a regular file whose extension is not
    allowed, GET /media/:id answers 404 while GET /stream/:id sends the
    whole file with status 200. *)
Theorem stream_serves_what_lookup_refuses (id name : jsstring)
        (content : buffer) :
  fromBase64Url id = Ok name ->
  fs_resolve fs (path_join MEDIA_DIR name) = Some (File content) ->
  set_has VIDEO_EXTS (toLowerCase (path_extname name)) = false ->
  run (media_id_handler id) = Val (json_error 404 msg_not_found)
  /\ run (stream_handler id None)
     = Val (mkResponse 200
              [(js "Content-Type",
                HStr (mime_or_default (path_join MEDIA_DIR name)));
               (js "Content-Length", HNum (Fin (Z.of_nat (length content))));
               (js "Accept-Ranges", HStr (js "bytes"))]
              (BodyBytes content)).
Proof.
  intros Hid Hf Hext. split.
  - unfold media_id_handler. rewrite (getMediaById_decoded id name Hid).
    unfold lookup_answer. rewrite Hf, Hext. reflexivity.
  - rewrite (stream_handler_found id name None _ Hid Hf).
    cbn [resolve_range respond]. unfold pipe_file. rewrite Hf. reflexivity.
Qed.




Lemma byte_range_within (content : buffer) (s e : Z) :
  exists pre post, content = pre ++ byte_range content s e ++ post.
Proof.
  unfold byte_range.
  exists (firstn (Z.to_nat s) content),
         (skipn (Z.to_nat (e - s + 1)) (skipn (Z.to_nat s) content)).
  now rewrite !firstn_skipn.
Qed.

(** X9: for a regular file whose size a Number holds exactly and for any
    Range header, well formed or not, the answer is one of two kinds.
    Either it carries bytes, which are then a contiguous part of the file,
    as many as Content-Length says, with Accept-Ranges [bytes] and status
    200 for the whole file or 206 for a non-empty part; or it is the 416
    answer with an empty body, and the file was never opened. *)
Theorem sent_bytes_match_headers (id name : jsstring)
        (range : option jsstring) (content : buffer) :
  fromBase64Url id = Ok name ->
  fs_resolve fs (path_join MEDIA_DIR name) = Some (File content) ->
  safe_size (Z.of_nat (length content)) ->
  exists r,
    run (stream_handler id range) = Val r
    /\ ((exists b pre post,
           resp_body r = BodyBytes b
           /\ content = pre ++ b ++ post
           /\ In (js "Content-Length", HNum (Fin (Z.of_nat (length b))))
                (headers r)
           /\ In (js "Accept-Ranges", HStr (js "bytes")) (headers r)
           /\ ((status r = 200 /\ b = content)
               \/ (status r = 206 /\ b <> [])))
        \/ (r = respond_416 (Fin (Z.of_nat (length content)))
            /\ forallb (fun o => negb (is_read o))
                 (trace (stream_handler id range)) = true)).
Proof.
  intros Hid Hf Hs.
  rewrite (stream_handler_found id name range _ Hid Hf).
  rewrite (stream_handler_trace_found id name range _ Hid Hf).
  cbn [stats_of st_size node_size].
  destruct (resolve_range range (Fin (Z.of_nat (length content))))
    as [| |a b] eqn:Er.
  - cbn [respond]. unfold pipe_file. rewrite Hf.
    cbn [bind ret app run snd read_window].
    eexists. split; [reflexivity|]. left.
    exists content, [], []. cbn [resp_body headers status app].
    rewrite app_nil_r. repeat split; auto.
    + right. left. reflexivity.
    + right. right. left. reflexivity.
  - cbn [respond ret trace fst run snd].
    eexists. split; [reflexivity|]. right. split; reflexivity.
  - destruct (resolve_range_window _ _ _ _ Er) as (s & e & -> & -> & Hb & He).
    cbn [respond]. unfold pipe_file. rewrite Hf.
    cbn [bind ret app run snd]. rewrite (chunk_size_exact s e _ Hs Hb He).
    unfold read_window.
    replace ((0 <=? s) && (s <=? e)) with true
      by (symmetry; apply andb_true_intro; split; apply Z.leb_le; lia).
    eexists. split; [reflexivity|]. left.
    destruct (byte_range_within content s e) as (pre & post & Hc).
    exists (byte_range content s e), pre, post.
    cbn [resp_body headers status].
    pose proof (byte_range_length content s e Hb He) as Hl.
    fold (byte_range content s e). rewrite Hl.
    repeat split; auto.
    + right. right. left. reflexivity.
    + right. left. reflexivity.
    + right. split; [reflexivity|].
      intros E. rewrite E in Hl. cbn in Hl. lia.
Qed.

(** X11: GET /media/:id answers every identifier, malformed ones too: the
    lookup never lets an exception out, asks the file system for one stat
    of the joined path and nothing else, and the answer is 200 exactly when
    that path is a regular file and the extension of the decoded value is
    allowed, and the 404 JSON error otherwise.  The extension tested is
    that of the decoded value, which need not be that of the joined path:
    a decoded value that ends in [/.] has none. *)
Theorem lookup_always_answers (id : jsstring) :
  exists name r,
    fromBase64Url id = Ok name
    /\ media_id_handler id = ([OpStat (path_join MEDIA_DIR name)], Val r)
    /\ (status r = 200 \/ r = json_error 404 msg_not_found)
    /\ (status r = 200 <->
        exists content,
          fs_resolve fs (path_join MEDIA_DIR name) = Some (File content)
          /\ set_has VIDEO_EXTS (toLowerCase (path_extname name)) = true).
Proof.
  destruct (fromBase64Url_total id) as [k Hk].
  destruct (fromBase64Url id) as [name|e] eqn:Hid; [clear Hk|discriminate Hk].
  exists name. unfold media_id_handler.
  rewrite (getMediaById_decoded id name Hid). unfold lookup_answer.
  cbn [bind].
  destruct (fs_resolve fs (path_join MEDIA_DIR name))
    as [[content|r s sz es|sz]|] eqn:Hf;
    [destruct (set_has VIDEO_EXTS (toLowerCase (path_extname name))) eqn:Hext
    |..];
    cbn [ret app]; eexists; (split; [reflexivity|]); (split; [reflexivity|]);
    cbn [status json_error]; split;
    try (left; reflexivity); try (right; reflexivity).
  - split; [intros _; exists content; split; reflexivity|reflexivity].
  - split; [discriminate|]. intros (c & Hc & He). congruence.
  - split; [discriminate|]. intros (c & Hc & _). discriminate Hc.
  - split; [discriminate|]. intros (c & Hc & _). discriminate Hc.
  - split; [discriminate|]. intros (c & Hc & _). discriminate Hc.
Qed.

End Server.

(** * Worked examples on the sample installation *)

(** C4 at a path with an accented letter and a surrogate pair. *)
Lemma token_roundtrip_witness :
  wf_utf16 sample_path = true
  /\ toBase64Url sample_path = js "cGVsw61jdWxhIPCfjqwubXA0"
  /\ fromBase64Url (toBase64Url sample_path) = Ok sample_path
  /\ forallb url_safe (toBase64Url sample_path) = true.
Proof.
  split; [reflexivity|]. split; [reflexivity|].
  destruct (token_roundtrip sample_path eq_refl) as (H1 & H2 & _).
  split; [exact H1|exact H2].
Defined.

(** C2 at [bytes=500-], [bytes=-500], [bytes=0-0] and [bytes=2000-3000] on a
    file of 1000 bytes. *)
Lemma range_window_as_specified_witness :
  resolve_range (Some (js "bytes=500-")) (Fin 1000) = Window (Fin 500) (Fin 999)
  /\ resolve_range (Some (js "bytes=-500")) (Fin 1000)
     = Window (Fin 500) (Fin 999)
  /\ resolve_range (Some (js "bytes=0-0")) (Fin 1000) = Window (Fin 0) (Fin 0)
  /\ resolve_range (Some (js "bytes=2000-3000")) (Fin 1000) = Unsatisfiable.
Proof.
  assert (Hs : safe_size 1000) by (split; [discriminate|reflexivity]).
  split; [|split; [|split]].
  - exact (proj1 (proj2 (range_window_as_specified (js "500") [] 1000
                           eq_refl eq_refl eq_refl Hs))).
  - exact (proj1 (proj2 (range_window_as_specified [] (js "500") 1000
                           eq_refl eq_refl eq_refl Hs))).
  - exact (proj1 (proj2 (range_window_as_specified (js "0") (js "0") 1000
                           eq_refl eq_refl eq_refl Hs))).
  - exact (proj1 (proj2 (range_window_as_specified (js "2000") (js "3000") 1000
                           eq_refl eq_refl eq_refl Hs))).
Defined.

(** C3, as amended, at [bytes=abc], in which the pattern occurs nowhere,
    and at [xbytes=1-2,5-6], whose leftmost occurrence is [bytes=1-2]. *)
Lemma unmatched_range_rejected_witness :
  truthy (js "bytes=abc") = true
  /\ ~ contains_range_pattern (js "bytes=abc")
  /\ resolve_range (Some (js "bytes=abc")) (Fin 1000) = Unsatisfiable
  /\ resolve_range (Some (js "xbytes=1-2,5-6")) (Fin 1000)
     = resolve_range (Some (js "bytes=1-2")) (Fin 1000).
Proof.
  assert (Hn : ~ contains_range_pattern (js "bytes=abc"))
    by (apply range_search_none_iff; reflexivity).
  split; [reflexivity|]. split; [exact Hn|]. split.
  - exact (proj1 (unmatched_range_rejected (js "bytes=abc") (Fin 1000))
             eq_refl Hn).
  - refine (proj1 (proj1 (proj2 (unmatched_range_rejected
                                   (js "xbytes=1-2,5-6") (Fin 1000)))
                     (js "x") (js "1") (js "2") (js ",5-6")
                     eq_refl eq_refl eq_refl eq_refl _)).
    intros [|c p] e1 e2 post' _ _ E.
    + exfalso. rewrite header_of_cons in E. cbn in E. discriminate E.
    + cbn [length]. apply le_n_S, Nat.le_0_l.
Defined.

(** C3 as stated fails: a second comma-separated range, or a leading
    prefix, does not stop the handler from accepting a window, and an empty
    header value is served as the full file. *)
Lemma unanchored_range_accepted :
  matches_grammar (js "bytes=0-0,5-6") = false
  /\ resolve_range (Some (js "bytes=0-0,5-6")) (Fin 1000)
     = Window (Fin 0) (Fin 0)
  /\ matches_grammar (js "xbytes=1-2") = false
  /\ resolve_range (Some (js "xbytes=1-2")) (Fin 1000) = Window (Fin 1) (Fin 2)
  /\ matches_grammar [] = false
  /\ resolve_range (Some []) (Fin 1000) = FullFile.
Proof. repeat split. Qed.

(** C5 at [bytes=2-4] on [a.mp4]: bytes 3, 4 and 5 of the ten. *)
Lemma partial_content_response_witness :
  exists r,
    run (stream_handler sample_cwd sample_env ascii_lower sample_mime sample_fs
           (js "YS5tcDQ") (Some (js "bytes=2-4"))) = Val r
    /\ status r = 206
    /\ headers r
       = [(js "Content-Range", HStr (js "bytes 2-4/10"));
          (js "Accept-Ranges", HStr (js "bytes"));
          (js "Content-Length", HNum (Fin 3));
          (js "Content-Type", HStr (js "video/mp4"))]
    /\ resp_body r = BodyBytes [3; 4; 5].
Proof.
  assert (Hsafe : safe_size 10) by (split; [discriminate|reflexivity]).
  destruct (partial_content_response sample_cwd sample_env ascii_lower
              sample_mime sample_fs (js "YS5tcDQ") (js "a.mp4")
              (Some (js "bytes=2-4")) [1; 2; 3; 4; 5; 6; 7; 8; 9; 10]
              (Fin 2) (Fin 4) eq_refl eq_refl Hsafe eq_refl)
    as (s & e & Hs & He & _ & _ & Hr & _).
  injection Hs as <-. injection He as <-.
  eexists. split; [exact Hr|]. repeat split.
Defined.

(** C6 on [a.mp4]: the ten bytes, with status 200. *)
Lemma full_file_response_witness :
  run (stream_handler sample_cwd sample_env ascii_lower sample_mime sample_fs
         (js "YS5tcDQ") None)
  = Val (mkResponse 200
           [(js "Content-Type", HStr (js "video/mp4"));
            (js "Content-Length", HNum (Fin 10));
            (js "Accept-Ranges", HStr (js "bytes"))]
           (BodyBytes [1; 2; 3; 4; 5; 6; 7; 8; 9; 10])).
Proof.
  exact (proj2 (full_file_response sample_cwd sample_env ascii_lower
                  sample_mime sample_fs (js "YS5tcDQ") (js "a.mp4")
                  [1; 2; 3; 4; 5; 6; 7; 8; 9; 10] eq_refl eq_refl)).
Defined.

(** C7 at [bytes=7-20] on [a.mp4], whose end lies beyond the file, and at
    [bytes=abc] on the directory [sub]. *)
Lemma unsatisfiable_response_witness :
  run (stream_handler sample_cwd sample_env ascii_lower sample_mime sample_fs
         (js "YS5tcDQ") (Some (js "bytes=7-20")))
  = Val (mkResponse 416 [(js "Content-Range", HStr (js "bytes */10"))]
           BodyEmpty)
  /\ run (stream_handler sample_cwd sample_env ascii_lower sample_mime
            sample_fs (js "c3Vi") (Some (js "bytes=abc")))
     = Val (mkResponse 416 [(js "Content-Range", HStr (js "bytes */4096"))]
              BodyEmpty).
Proof.
  assert (Hs : forall z, 0 <= z -> z < 2 ^ 53 -> safe_size z)
    by (intros z H0 H1; split; assumption).
  split.
  - refine (unsatisfiable_response sample_cwd sample_env ascii_lower
              sample_mime sample_fs (js "YS5tcDQ") (js "a.mp4")
              (Some (js "bytes=7-20"))
              (File [1; 2; 3; 4; 5; 6; 7; 8; 9; 10]) eq_refl eq_refl _
              eq_refl).
    apply Hs; [discriminate|reflexivity].
  - refine (unsatisfiable_response sample_cwd sample_env ascii_lower
              sample_mime sample_fs (js "c3Vi") (js "sub")
              (Some (js "bytes=abc"))
              (Dir true true 4096 [(js "b.mkv", File [7; 7; 7])])
              eq_refl eq_refl _ eq_refl).
    apply Hs; [discriminate|reflexivity].
Defined.

(** C8 on the sample tree: [locked] cannot be read, its scan is empty and
    the scan of the root lists the two videos around it; a media root that
    does not exist gives 200 with the empty list; in the second
    installation the video in [vault] is listed but cannot be stat'ed, and
    that failure, not a failed listing, is what leaves GET /media. *)
Lemma unreadable_directory_swallowed_witness :
  wf_fs sample_fs = true
  /\ listMedia sample_cwd sample_env ascii_lower sample_mime sample_fs 4
       (js "/media/locked")
     = ([OpReaddir (js "/media/locked")], Val [])
  /\ run (listMedia sample_cwd sample_env ascii_lower sample_mime sample_fs 3
            (MEDIA_DIR sample_cwd sample_env))
     = Val sample_items
  /\ run (media_handler sample_cwd (js "/nowhere") ascii_lower sample_mime
            sample_fs 1)
     = Val (mkResponse 200 [] (BodyItems []))
  /\ run (media_handler sample_cwd sample_env ascii_lower sample_mime
            sample_guarded 3)
     = Exc (FsError "stat" "EACCES")
  /\ stat_error (FsError "stat" "EACCES").
Proof.
  split; [reflexivity|].
  split; [|split; [|split; [|split]]].
  - apply (proj1 (unreadable_directory_swallowed sample_cwd sample_env
                    ascii_lower sample_mime sample_fs 3
                    (js "/media/locked"))).
    exists (FsError "scandir" "EACCES"). reflexivity.
  - apply (proj2 (proj2 (proj2 (proj2
             (unreadable_directory_swallowed sample_cwd sample_env
                ascii_lower sample_mime sample_fs 3 (js "/media/locked")))))
             sample_media eq_refl eq_refl (le_n 3) eq_refl).
  - apply (proj1 (unreadable_directory_swallowed sample_cwd (js "/nowhere")
                    ascii_lower sample_mime sample_fs 0 (js "/nowhere"))).
    + exists (FsError "scandir" "ENOENT"). reflexivity.
    + reflexivity.
  - reflexivity.
  - apply (proj1 (proj2 (proj2 (proj2
             (unreadable_directory_swallowed sample_cwd sample_env
                ascii_lower sample_mime sample_guarded 3 (js "/media")))))
             (FsError "stat" "EACCES")).
    reflexivity.
Defined.

(** C9, as amended, at the entry of [sub/b.mkv]. *)
Lemma lookup_of_catalog_entry_witness :
  exists m,
    run (getMediaById sample_cwd sample_env ascii_lower sample_mime sample_fs
           (js "c3ViL2IubWt2")) = Val (Some m)
    /\ meta_id m = js "c3ViL2IubWt2"
    /\ meta_size m = Fin 3
    /\ meta_mime m = js "video/x-matroska".
Proof.
  destruct (lookup_of_catalog_entry sample_cwd sample_env ascii_lower
              sample_mime sample_fs 3 sample_media sample_items
              (mkItem (js "c3ViL2IubWt2") (js "b.mkv") (js "sub/b.mkv") (Fin 3)
                 (js "video/x-matroska"))
              eq_refl eq_refl eq_refl (le_n 3) eq_refl
              (or_intror (or_introl eq_refl)))
    as (m & Hm & _ & Hid & Hsize & Hmime & _).
  exists m. repeat split; assumption.
Defined.

(** C9 as stated fails: for the file in [sub] the catalogue names [b.mkv]
    and the lookup names [sub/b.mkv]; the lookup answer has the four fields
    of [media_meta], none of them a path. *)
Lemma lookup_name_differs :
  run (listMedia sample_cwd sample_env ascii_lower sample_mime sample_fs 3
         (MEDIA_DIR sample_cwd sample_env))
  = Val [mkItem (js "YS5tcDQ") (js "a.mp4") (js "a.mp4") (Fin 10)
           (js "video/mp4");
         mkItem (js "c3ViL2IubWt2") (js "b.mkv") (js "sub/b.mkv") (Fin 3)
           (js "video/x-matroska")]
  /\ run (media_id_handler sample_cwd sample_env ascii_lower sample_mime
            sample_fs (js "c3ViL2IubWt2"))
     = Val (mkResponse 200 []
              (BodyMeta (mkMeta (js "c3ViL2IubWt2") (js "sub/b.mkv") (Fin 3)
                           (js "video/x-matroska"))))
  /\ zeqb_list (js "sub/b.mkv") (js "b.mkv") = false.
Proof. repeat split. Qed.

(** C10 as stated fails: a malformed identifier is not always answered
    404.  [@@@@] holds no base64 character and decodes to the empty string,
    so the joined path is the media root itself, which exists: the answer
    is 200.  [YS5t*cDQ] decodes, the [*] skipped, to [a.mp4], which is
    streamed. *)
Lemma malformed_id_served :
  fromBase64Url (js "@@@@") = Ok []
  /\ stream_handler sample_cwd sample_env ascii_lower sample_mime sample_fs
       (js "@@@@") None
     = ([OpExists (js "/media"); OpStat (js "/media");
         OpRead (js "/media") None],
        Val (mkResponse 200
               [(js "Content-Type", HStr (js "application/octet-stream"));
                (js "Content-Length", HNum (Fin 4096));
                (js "Accept-Ranges", HStr (js "bytes"))]
               BodyAborted))
  /\ fromBase64Url (js "YS5t*cDQ") = Ok (js "a.mp4")
  /\ run (stream_handler sample_cwd sample_env ascii_lower sample_mime
            sample_fs (js "YS5t*cDQ") None)
     = Val (mkResponse 200
              [(js "Content-Type", HStr (js "video/mp4"));
               (js "Content-Length", HNum (Fin 10));
               (js "Accept-Ranges", HStr (js "bytes"))]
              (BodyBytes [1; 2; 3; 4; 5; 6; 7; 8; 9; 10])).
Proof. repeat split. Qed.

(** C1 as stated fails: the token of [../secret.mp4] decodes to a path that
    joins to [/secret.mp4], outside the root [/media]; the lookup stats it
    and returns its metadata, and the stream handler opens it and sends its
    bytes. *)
Lemma traversal_reaches_outside_root :
  fromBase64Url (js "Li4vc2VjcmV0Lm1wNA") = Ok (js "../secret.mp4")
  /\ path_join (MEDIA_DIR sample_cwd sample_env) (js "../secret.mp4")
     = js "/secret.mp4"
  /\ within_root sample_cwd sample_env (js "/secret.mp4") = false
  /\ getMediaById sample_cwd sample_env ascii_lower sample_mime sample_fs
       (js "Li4vc2VjcmV0Lm1wNA")
     = ([OpStat (js "/secret.mp4")],
        Val (Some (mkMeta (js "Li4vc2VjcmV0Lm1wNA") (js "../secret.mp4")
                     (Fin 2) (js "video/mp4"))))
  /\ stream_handler sample_cwd sample_env ascii_lower sample_mime sample_fs
       (js "Li4vc2VjcmV0Lm1wNA") None
     = ([OpExists (js "/secret.mp4"); OpStat (js "/secret.mp4");
         OpRead (js "/secret.mp4") None],
        Val (mkResponse 200
               [(js "Content-Type", HStr (js "video/mp4"));
                (js "Content-Length", HNum (Fin 2));
                (js "Accept-Ranges", HStr (js "bytes"))]
               (BodyBytes [42; 42]))).
Proof. repeat split. Qed.

(** * Further worked examples *)

(** X1 at a string with a lone high surrogate between [a] and [b]: the
    token decodes to the string with U+FFFD in its place. *)
Lemma token_roundtrip_any_string_witness :
  code_units [97; 55296; 98] = true
  /\ fromBase64Url (toBase64Url [97; 55296; 98]) = Ok [97; 65533; 98].
Proof.
  split; [reflexivity|].
  exact (proj1 (token_roundtrip_any_string [97; 55296; 98] eq_refl)).
Defined.

(** X2 at [a.mp4], whose standard Base64 form ends in one [=]. *)
Lemma padded_identifier_decodes_witness :
  wf_utf16 (js "a.mp4") = true
  /\ fromBase64Url (js "YS5tcDQ=") = Ok (js "a.mp4").
Proof.
  split; [reflexivity|].
  exact (proj1 (padded_identifier_decodes (js "a.mp4") eq_refl)).
Defined.

(** X3 at the entry of [sub/b.mkv]. *)
Lemma catalog_entries_are_video_files_witness :
  exists dirs content,
    js "sub/b.mkv" = join_slash (dirs ++ [js "b.mkv"])
    /\ fs_resolve sample_fs
         (path_join (MEDIA_DIR sample_cwd sample_env) (js "sub/b.mkv"))
       = Some (File content)
    /\ Fin 3 = Fin (Z.of_nat (length content)).
Proof.
  destruct (catalog_entries_are_video_files sample_cwd sample_env ascii_lower
              sample_mime sample_fs 3 sample_media sample_items
              (mkItem (js "c3ViL2IubWt2") (js "b.mkv") (js "sub/b.mkv") (Fin 3)
                 (js "video/x-matroska"))
              eq_refl eq_refl (le_n 3) eq_refl
              (or_intror (or_introl eq_refl)))
    as (dirs & content & H1 & H2 & _ & H4 & _).
  exists dirs, content. repeat split; assumption.
Defined.

(** X4 at [sub/b.mkv], reached through the readable directory [sub]. *)
Lemma reachable_videos_are_listed_witness :
  descend_listed sample_media [js "sub"; js "b.mkv"] = Some (File [7; 7; 7])
  /\ In (mkItem (js "c3ViL2IubWt2") (js "b.mkv") (js "sub/b.mkv") (Fin 3)
           (js "video/x-matroska")) sample_items.
Proof.
  split; [reflexivity|].
  exact (reachable_videos_are_listed sample_cwd sample_env ascii_lower
           sample_mime sample_fs 3 sample_media sample_items [js "sub"]
           (js "b.mkv") [7; 7; 7] eq_refl eq_refl (le_n 3) eq_refl eq_refl
           eq_refl).
Defined.

(** X5 on the sample catalogue. *)
Lemma catalog_ids_distinct_witness :
  NoDup (map item_path sample_items) /\ NoDup (map item_id sample_items).
Proof.
  exact (catalog_ids_distinct sample_cwd sample_env ascii_lower sample_mime
           sample_fs 3 sample_media sample_items eq_refl eq_refl (le_n 3)
           eq_refl).
Defined.

(** X6 on the sample tree. *)
Lemma scan_stays_inside_root_witness :
  wf_fs sample_fs = true
  /\ Forall (scan_access sample_cwd sample_env)
       (trace (listMedia sample_cwd sample_env ascii_lower sample_mime
                 sample_fs 3 (MEDIA_DIR sample_cwd sample_env))).
Proof.
  split; [reflexivity|].
  exact (scan_stays_inside_root sample_cwd sample_env ascii_lower sample_mime
           sample_fs 3 sample_media eq_refl eq_refl).
Defined.

(** X7 at [notes.txt], which the catalogue and the lookup leave out. *)
Lemma stream_serves_what_lookup_refuses_witness :
  run (media_id_handler sample_cwd sample_env ascii_lower sample_mime
         sample_fs (js "bm90ZXMudHh0"))
  = Val (json_error 404 msg_not_found)
  /\ run (stream_handler sample_cwd sample_env ascii_lower sample_mime
            sample_fs (js "bm90ZXMudHh0") None)
     = Val (mkResponse 200
              [(js "Content-Type", HStr (js "application/octet-stream"));
               (js "Content-Length", HNum (Fin 1));
               (js "Accept-Ranges", HStr (js "bytes"))]
              (BodyBytes [0])).
Proof.
  exact (stream_serves_what_lookup_refuses sample_cwd sample_env ascii_lower
           sample_mime sample_fs (js "bm90ZXMudHh0") (js "notes.txt") [0]
           eq_refl eq_refl eq_refl).
Defined.


(** X9 at [bytes=2-4] on [a.mp4]. *)
Lemma sent_bytes_match_headers_witness :
  exists r,
    run (stream_handler sample_cwd sample_env ascii_lower sample_mime sample_fs
           (js "YS5tcDQ") (Some (js "bytes=2-4"))) = Val r
    /\ r <> respond_416 (Fin 10).
Proof.
  assert (Hsafe : safe_size 10) by (split; [discriminate|reflexivity]).
  destruct (sent_bytes_match_headers sample_cwd sample_env ascii_lower
              sample_mime sample_fs (js "YS5tcDQ") (js "a.mp4")
              (Some (js "bytes=2-4")) [1; 2; 3; 4; 5; 6; 7; 8; 9; 10]
              eq_refl eq_refl Hsafe) as (r & Hr & _).
  exists r. split; [exact Hr|].
  intros E. rewrite E in Hr. discriminate Hr.
Defined.
